(** * Household specialization model: a shallow embedding and its properties

    Source: [inauguralproject/HouseholdSpecializationModel.py], the two classes
    [HouseholdSpecializationModelClass] (variant A) and
    [NewHouseholdSpecializationModelClass] (variant B).

    Arithmetic model.  A numpy/Python float is a [float] below: a real
    number, or one of the three IEEE 754 special values.  Operations
    involving a special value follow the IEEE 754 / C99 tables that numpy
    implements.  A finite result is returned through [rnd], which depends on
    the [Arithmetic] at hand: a result outside the range of the format
    overflows to an infinity, a result inside it is returned as it is
    (rounding inside the range, underflow and the sign of zero are abstracted
    away).  [binary64_range] is the range of the float64 of numpy and Python;
    [exact_arithmetic] has no bound.  Properties are stated for every
    [Arithmetic] unless they say otherwise.

    Effects.  Every method of the classes runs in the monad [M], which threads
    the object ([self.par], [self.sol]) and may raise a Python exception.

    External libraries.  [scipy.optimize.minimize] and [numpy.linalg.lstsq] are
    not code of the repository: they are the classes [optimize.Minimize] and
    [linalg.Lstsq], each with the part of its contract the properties rely
    on. *)

From Stdlib Require Import Reals Lra Lia List Bool Arith ZArith.
Import ListNotations.

Set Implicit Arguments.

(** ** numpy floats *)

Inductive float : Type :=
| NaN
| NInf
| PInf
| Fin (r : R).

Coercion Fin : R >-> float.

Declare Scope float_scope.
Delimit Scope float_scope with fl.
Bind Scope float_scope with float.

(** The range of the float format: which finite results overflow.  Every
    format reaches at least as far as binary32, and a result overflows as
    soon as a smaller one does. *)
Class Arithmetic : Type := {
  overflows : R -> bool;
  overflows_small :
    forall r : R, (Rabs r <= IZR (2 ^ 127))%R -> overflows r = false;
  overflows_mono :
    forall r r' : R,
      (Rabs r <= Rabs r')%R -> overflows r' = false -> overflows r = false
}.

(** The float returned for the exact finite result [r]. *)
Definition rnd {ar : Arithmetic} (r : R) : float :=
  if overflows r then (if Rlt_dec 0 r then PInf else NInf) else Fin r.

(** Arithmetic without overflow: every finite result is returned as it
    is. *)
Definition exact_arithmetic : Arithmetic :=
  {| overflows := fun _ => false;
     overflows_small := fun _ _ => eq_refl;
     overflows_mono := fun _ _ _ _ => eq_refl |}.

(** The largest finite binary64 number, [(2 - 2^-52) * 2^1023]. *)
Definition max_float : R := IZR (2 ^ 1024 - 2 ^ 971).

Definition binary64_overflows (r : R) : bool :=
  if Rlt_dec max_float (Rabs r) then true else false.

Module np.

Section Operations.

Context {ar : Arithmetic}.

Definition isnan (x : float) : bool :=
  match x with NaN => true | _ => false end.

(** [x + y] *)
Definition add (x y : float) : float :=
  match x, y with
  | NaN, _ | _, NaN => NaN
  | Fin a, Fin b => rnd (a + b)
  | PInf, NInf | NInf, PInf => NaN
  | PInf, _ | _, PInf => PInf
  | NInf, _ | _, NInf => NInf
  end.

(** [-x] *)
Definition negative (x : float) : float :=
  match x with
  | NaN => NaN
  | NInf => PInf
  | PInf => NInf
  | Fin a => Fin (- a)
  end.

(** [x - y] *)
Definition subtract (x y : float) : float := add x (negative y).

(** The sign of a real: [Lt] negative, [Eq] zero, [Gt] positive. *)
Definition Rsign (a : R) : comparison :=
  match total_order_T a 0 with
  | inleft (left _) => Lt
  | inleft (right _) => Eq
  | inright _ => Gt
  end.

Definition sign (x : float) : option comparison :=
  match x with
  | NaN => None
  | NInf => Some Lt
  | PInf => Some Gt
  | Fin a => Some (Rsign a)
  end.

(** An infinity of the sign of the product of two signs; [0 * inf] is NaN. *)
Definition inf_of_signs (s t : comparison) : float :=
  match s, t with
  | Eq, _ | _, Eq => NaN
  | Lt, Lt | Gt, Gt => PInf
  | Lt, Gt | Gt, Lt => NInf
  end.

(** [x * y] *)
Definition multiply (x y : float) : float :=
  match x, y with
  | NaN, _ | _, NaN => NaN
  | Fin a, Fin b => rnd (a * b)
  | _, _ =>
      match sign x, sign y with
      | Some s, Some t => inf_of_signs s t
      | _, _ => NaN
      end
  end.

(** [x / y] on numpy operands: a zero divisor gives an infinity of the sign
    of the dividend (a warning, not an exception), [0/0] is NaN. *)
Definition divide (x y : float) : float :=
  match x, y with
  | NaN, _ | _, NaN => NaN
  | Fin a, Fin b =>
      match Rsign b with
      | Eq => match Rsign a with Lt => NInf | Eq => NaN | Gt => PInf end
      | _ => rnd (a / b)
      end
  | Fin _, _ => Fin 0
  | _, Fin b =>
      match sign x, Rsign b with
      | Some s, Eq => inf_of_signs s Gt
      | Some s, t => inf_of_signs s t
      | None, _ => NaN
      end
  | _, _ => NaN
  end.

(** Whether a real is an integer, and an odd one. *)
Definition is_integer (b : R) : bool :=
  if Req_dec_T (IZR (Int_part b)) b then true else false.

Definition is_odd_integer (b : R) : bool :=
  is_integer b && Z.odd (Int_part b).

(** [a ** b] for finite [a] and finite [b <> 0]. *)
Definition power_fin (a b : R) : float :=
  match Rsign a with
  | Gt => rnd (Rpower a b)
  | Eq => if Rlt_dec 0 b then Fin 0 else PInf
  | Lt => if is_integer b then rnd (powerRZ a (Int_part b)) else NaN
  end.

(** How [|a|] compares with 1. *)
Definition abs_vs_one (a : R) : comparison :=
  match total_order_T (Rabs a) 1 with
  | inleft (left _) => Lt
  | inleft (right _) => Eq
  | inright _ => Gt
  end.

(** [x ** y], the C99 [pow] table. *)
Definition power (x y : float) : float :=
  match x, y with
  | _, Fin b =>
      if Req_dec_T b 0 then Fin 1
      else match x with
           | NaN => NaN
           | Fin a => power_fin a b
           | PInf => if Rlt_dec b 0 then Fin 0 else PInf
           | NInf => if Rlt_dec b 0 then Fin 0
                     else if is_odd_integer b then NInf else PInf
           end
  | Fin a, _ =>
      if Req_dec_T a 1 then Fin 1
      else match y with
           | PInf => match abs_vs_one a with
                     | Lt => Fin 0 | Eq => Fin 1 | Gt => PInf end
           | NInf => match abs_vs_one a with
                     | Lt => PInf | Eq => Fin 1 | Gt => Fin 0 end
           | _ => NaN
           end
  | NaN, _ | _, NaN => NaN
  | _, PInf => PInf
  | _, NInf => Fin 0
  end.

(** [np.log] *)
Definition log (x : float) : float :=
  match x with
  | NaN | NInf => NaN
  | PInf => PInf
  | Fin a =>
      match Rsign a with
      | Lt => NaN
      | Eq => NInf
      | Gt => rnd (ln a)
      end
  end.

(** Comparisons: false as soon as an operand is NaN. *)
Definition less (x y : float) : bool :=
  match x, y with
  | NaN, _ | _, NaN => false
  | Fin a, Fin b => if Rlt_dec a b then true else false
  | NInf, NInf | PInf, _ | _, NInf => false
  | NInf, _ | _, PInf => true
  end.

Definition equal (x y : float) : bool :=
  match x, y with
  | Fin a, Fin b => if Req_dec_T a b then true else false
  | NInf, NInf | PInf, PInf => true
  | _, _ => false
  end.

Definition less_equal (x y : float) : bool := less x y || equal x y.
Definition greater (x y : float) : bool := less y x.

(** [np.fmax]: the larger operand; a NaN operand is ignored. *)
Definition fmax (x y : float) : float :=
  match x, y with
  | NaN, _ => y
  | _, NaN => x
  | _, _ => if less x y then y else x
  end.

(** [np.minimum]: the smaller operand; a NaN operand propagates. *)
Definition minimum (x y : float) : float :=
  match x, y with
  | NaN, _ | _, NaN => NaN
  | _, _ => if less y x then y else x
  end.

End Operations.

End np.

Notation "x + y" := (np.add x y) : float_scope.
Notation "x - y" := (np.subtract x y) : float_scope.
Notation "x * y" := (np.multiply x y) : float_scope.
Notation "x / y" := (np.divide x y) : float_scope.
Notation "- x" := (np.negative x) : float_scope.
Notation "x ** y" := (np.power x y)
  (at level 30, right associativity) : float_scope.
Notation "x >? y" := (np.greater x y) (at level 70) : float_scope.
Notation "x <=? y" := (np.less_equal x y) (at level 70) : float_scope.
Notation "x =? y" := (np.equal x y) (at level 70) : float_scope.

(** ** Python: exceptions and the object as state *)

Inductive exn : Type :=
| ZeroDivisionError
| IndexError
| ValueError.

Inductive result (A : Type) : Type :=
| Ok (a : A)
| Raise (e : exn).

Arguments Ok {A} a.
Arguments Raise {A} e.

Module py.

(** A computation that may raise. *)
Definition bind {A B} (r : result A) (k : A -> result B) : result B :=
  match r with
  | Ok a => k a
  | Raise e => Raise e
  end.

(** [x / y] on Python floats: a zero divisor raises. *)
Definition truediv {ar : Arithmetic} (x y : float) : result float :=
  if (y =? 0%R)%fl then Raise ZeroDivisionError else Ok (x / y)%fl.

(** [a[i]] for [i >= 0]. *)
Definition getitem {A} (a : list A) (i : nat) : result A :=
  match nth_error a i with
  | Some v => Ok v
  | None => Raise IndexError
  end.

(** [a[i] = v] for [i >= 0]. *)
Fixpoint setitem {A} (a : list A) (i : nat) (v : A) : result (list A) :=
  match a, i with
  | [], _ => Raise IndexError
  | _ :: t, O => Ok (v :: t)
  | h :: t, S j => bind (setitem t j v) (fun t' => Ok (h :: t'))
  end.

End py.

(** A method: it reads and writes the object [S] and returns or raises.  The
    object survives an exception with the writes made so far. *)
Definition M (S A : Type) : Type := S -> result A * S.

Definition ret {S A} (a : A) : M S A := fun s => (Ok a, s).

Definition raise {S A} (e : exn) : M S A := fun s => (Raise e, s).

Definition bind {S A B} (c : M S A) (k : A -> M S B) : M S B :=
  fun s =>
    match c s with
    | (Ok a, s') => k a s'
    | (Raise e, s') => (Raise e, s')
    end.

Definition lift {S A} (r : result A) : M S A := fun s => (r, s).

Definition gets {S A} (f : S -> A) : M S A := fun s => (Ok (f s), s).

Definition modify {S} (f : S -> S) : M S unit := fun s => (Ok tt, f s).

Declare Scope monad_scope.
Delimit Scope monad_scope with monad.
Notation "x <- c ;; k" := (bind c (fun x => k))
  (at level 61, c at next level, right associativity) : monad_scope.
Notation "c ;; k" := (bind c (fun _ => k))
  (at level 61, right associativity) : monad_scope.
Notation "x <-? c ;; k" := (py.bind c (fun x => k))
  (at level 61, c at next level, right associativity) : monad_scope.

(** [for it in l: body(it)] *)
Fixpoint for_ {S A} (l : list A) (body : A -> M S unit) : M S unit :=
  match l with
  | [] => ret tt
  | a :: t => bind (body a) (fun _ => for_ t body)
  end.

(** [range(n)] *)
Definition range (n : nat) : list nat := seq 0 n.

(** ** numpy arrays

    A one-dimensional array is a list.  Element-wise operations are [map] and
    [map2]; the classes only ever combine arrays of one shape. *)

Fixpoint map2 {A B C} (f : A -> B -> C) (a : list A) (b : list B) : list C :=
  match a, b with
  | x :: a', y :: b' => f x y :: map2 f a' b'
  | _, _ => []
  end.

Module nparray.

(** [np.linspace(start, stop, num)] *)
Definition linspace (start stop : R) (num : nat) : list float :=
  map (fun i => Fin (start + INR i * ((stop - start) / INR (num - 1))))
      (seq 0 num).

(** [np.zeros(n)], [np.ones(n)] *)
Definition zeros (n : nat) : list float := repeat (Fin 0) n.
Definition ones (n : nat) : list float := repeat (Fin 1) n.

(** A four-dimensional array, outermost axis first. *)
Definition array4 (A : Type) : Type := list (list (list (list A))).

(** [np.meshgrid(x1, x2, x3, x4)] with the default ['xy'] indexing: the
    result has shape [(len x2, len x1, len x3, len x4)], and the [k]-th
    output repeats [xk] along its own axis. *)
Definition meshgrid {A} (x1 x2 x3 x4 : list A)
  : array4 A * array4 A * array4 A * array4 A :=
  let grid (pick : A -> A -> A -> A -> A) :=
    map (fun b => map (fun a => map (fun c => map (fun d => pick a b c d)
                                               x4) x3) x1) x2 in
  (grid (fun a _ _ _ => a), grid (fun _ b _ _ => b),
   grid (fun _ _ c _ => c), grid (fun _ _ _ d => d)).

(** [a.ravel()], row-major. *)
Definition ravel {A} (a : array4 A) : list A := concat (concat (concat a)).

(** [u[I] = v] for a boolean mask [I] of the shape of [u]. *)
Definition mask_assign {A} (u : list A) (I : list bool) (v : A) : list A :=
  map2 (fun ui b => if b : bool then v else ui) u I.

(** The scan of [np.argmax] over float64: the running maximum [mp] at index
    [best] is replaced by the element at [i] unless that element is
    [<= mp]; the scan stops at the first NaN. *)
Fixpoint argmax_scan (mp : float) (best i : nat) (l : list float) : nat :=
  match l with
  | [] => best
  | v :: t =>
      if (v <=? mp)%fl then argmax_scan mp best (S i) t
      else if np.isnan v then i
      else argmax_scan v i (S i) t
  end.

(** [np.argmax(u)]: raises on an empty array. *)
Definition argmax (u : list float) : result nat :=
  match u with
  | [] => Raise ValueError
  | v :: t => Ok (if np.isnan v then O else argmax_scan v 0 1 t)
  end.

(** [np.vstack(rows)]: the rows of a two-dimensional array. *)
Definition vstack {A} (rows : list (list A)) : list (list A) := rows.

(** [a.T] for a two-dimensional array given by its rows. *)
Fixpoint T {A} (a : list (list A)) : list (list A) :=
  match a with
  | [] => []
  | [r] => map (fun v => [v]) r
  | r :: a' => map2 cons r (T a')
  end.

End nparray.

(** ** External libraries *)

Module optimize.

Inductive method : Type := SLSQP | Nelder_Mead.

Inductive constraint_type : Type := ineq | eq.

(** A constraint dictionary [{'type': ..., 'fun': ...}]. *)
Record constraint : Type := mkConstraint {
  type : constraint_type;
  fun_ : list float -> result float
}.

(** The part of [OptimizeResult] the classes read. *)
Record OptimizeResult : Type := mkResult { x : list float }.

(** [scipy.optimize.minimize(fun, x0, method, bounds, constraints, tol)].
    The objective is a Python callable: it may read and write the object
    it closes over and may raise.  The optimizer itself knows nothing about
    that object, which is what [minimize_parametric] states: objectives that
    return the same values on related objects lead to the same result and
    to related objects. *)
Class Minimize : Type := {
  minimize : forall S : Type,
    (list float -> M S float) -> list float -> method ->
    list (float * float) -> list constraint -> option float ->
    M S OptimizeResult;
  minimize_parametric :
    forall (S1 S2 : Type) (rel : S1 -> S2 -> Prop)
           (f1 : list float -> M S1 float) (f2 : list float -> M S2 float)
           x0 meth bounds constraints tol,
      (forall v s1 s2, rel s1 s2 ->
         fst (f1 v s1) = fst (f2 v s2) /\
         rel (snd (f1 v s1)) (snd (f2 v s2))) ->
      forall s1 s2, rel s1 s2 ->
        fst (minimize f1 x0 meth bounds constraints tol s1) =
        fst (minimize f2 x0 meth bounds constraints tol s2) /\
        rel (snd (minimize f1 x0 meth bounds constraints tol s1))
            (snd (minimize f2 x0 meth bounds constraints tol s2))
}.

End optimize.

Module linalg.

(** Sums over the rows [(a, b)] of a two-column matrix. *)
Definition sum_by {A} (f : A -> R) (l : list A) : R :=
  fold_right (fun r acc => (f r + acc)%R) 0%R l.

(** The determinant of the Gram matrix of a two-column matrix: non-zero
    exactly when the columns are linearly independent. *)
Definition gram_det (rows : list (R * R)) : R :=
  (sum_by (fun r => fst r * fst r) rows * sum_by (fun r => snd r * snd r) rows
   - sum_by (fun r => fst r * snd r) rows * sum_by (fun r => fst r * snd r) rows)%R.

(** The squared Euclidean norm of [y - A c] for the coefficients
    [c = (c0, c1)]. *)
Definition sse (rows : list (R * R)) (y : list R) (c0 c1 : R) : R :=
  sum_by (fun ry => let '((a, b), yi) := ry in
                    (yi - (c0 * a + c1 * b)) * (yi - (c0 * a + c1 * b)))%R
         (combine rows y).

Definition float_rows (rows : list (R * R)) : list (list float) :=
  map (fun r => [Fin (fst r); Fin (snd r)]) rows.

(** [np.linalg.lstsq(A, y, rcond=None)[0]]: the solution component.  The
    contract is numpy's: on finite data with a design matrix of full column
    rank the solution minimises the squared Euclidean norm of the residual. *)
Class Lstsq : Type := {
  lstsq : list (list float) -> list float -> list float;
  lstsq_least_squares :
    forall (rows : list (R * R)) (y : list R),
      length rows = length y ->
      gram_det rows <> 0%R ->
      exists b0 b1 : R,
        lstsq (float_rows rows) (map Fin y) = [Fin b0; Fin b1] /\
        forall c0 c1 : R, (sse rows y b0 b1 <= sse rows y c0 c1)%R
}.

End linalg.

(** ** Variant A: [HouseholdSpecializationModelClass] *)

Module HouseholdSpecializationModelClass.

(** [self.par] *)
Record Par : Type := mkPar {
  rho : float;
  nu : float;
  epsilon : float;
  omega : float;
  alpha : float;
  sigma : float;
  wM : float;
  wF : float;
  wF_vec : list float;
  beta0_target : float;
  beta1_target : float
}.

(** [self.sol] *)
Record Sol : Type := mkSol {
  LM_vec : list float;
  HM_vec : list float;
  LF_vec : list float;
  HF_vec : list float;
  beta0 : float;
  beta1 : float
}.

(** [self] *)
Record Model : Type := mkModel { par : Par; sol : Sol }.

(** The [opt] namespace [solve_discrete] returns. *)
Record Opt : Type := mkOpt { LM : float; HM : float; LF : float; HF : float }.

(** Attribute assignments. *)
Definition set_wF (v : float) (self : Model) : Model :=
  let p := par self in
  mkModel (mkPar (rho p) (nu p) (epsilon p) (omega p) (alpha p) (sigma p)
                 (wM p) v (wF_vec p) (beta0_target p) (beta1_target p))
          (sol self).

Definition set_alpha (v : float) (self : Model) : Model :=
  let p := par self in
  mkModel (mkPar (rho p) (nu p) (epsilon p) (omega p) v (sigma p)
                 (wM p) (wF p) (wF_vec p) (beta0_target p) (beta1_target p))
          (sol self).

Definition set_sigma (v : float) (self : Model) : Model :=
  let p := par self in
  mkModel (mkPar (rho p) (nu p) (epsilon p) (omega p) (alpha p) v
                 (wM p) (wF p) (wF_vec p) (beta0_target p) (beta1_target p))
          (sol self).

Definition set_LM_vec (v : list float) (self : Model) : Model :=
  let s := sol self in
  mkModel (par self)
          (mkSol v (HM_vec s) (LF_vec s) (HF_vec s) (beta0 s) (beta1 s)).

Definition set_HM_vec (v : list float) (self : Model) : Model :=
  let s := sol self in
  mkModel (par self)
          (mkSol (LM_vec s) v (LF_vec s) (HF_vec s) (beta0 s) (beta1 s)).

Definition set_LF_vec (v : list float) (self : Model) : Model :=
  let s := sol self in
  mkModel (par self)
          (mkSol (LM_vec s) (HM_vec s) v (HF_vec s) (beta0 s) (beta1 s)).

Definition set_HF_vec (v : list float) (self : Model) : Model :=
  let s := sol self in
  mkModel (par self)
          (mkSol (LM_vec s) (HM_vec s) (LF_vec s) v (beta0 s) (beta1 s)).

Definition set_betas (b0 b1 : float) (self : Model) : Model :=
  let s := sol self in
  mkModel (par self)
          (mkSol (LM_vec s) (HM_vec s) (LF_vec s) (HF_vec s) b0 b1).

Local Open Scope R_scope.
Local Open Scope float_scope.
Local Open Scope monad_scope.

(** [__init__] *)
Definition init : Model :=
  let wF_vec := nparray.linspace 0.8 1.2 5 in
  mkModel
    (mkPar 2.0 0.001 1.0 0.5 0.5 1.0 1.0 1.0 wF_vec 0.4 (-0.1)%R)
    (mkSol (nparray.zeros (length wF_vec)) (nparray.zeros (length wF_vec))
           (nparray.zeros (length wF_vec)) (nparray.zeros (length wF_vec))
           NaN NaN).

Section WithArithmetic.

Context {ar : Arithmetic}.

(** *** [calc_utility]

    The arguments are numpy operands (array entries in [solve_discrete],
    [np.float64] scalars in [solve_cont]), so arithmetic on them never
    raises; divisions between parameters are Python float divisions. *)

(** b. home production.  The last branch assigns to [HM] and [HF], and the
    rest of the method reads the two names after the block: the block hands
    them back with [H]. *)
Definition home_production (par : Par) (HM HF : float)
  : result (float * float * float) :=
  if sigma par =? 0 then
    let H := np.minimum HM HF in
    Ok (H, HM, HF)
  else if sigma par =? 1 then
    let H := HM ** (1 - alpha par) * HF ** alpha par in
    Ok (H, HM, HF)
  else
    let HM := np.fmax HM 1e-07 in
    let HF := np.fmax HF 1e-07 in
    eM <-? py.truediv (sigma par - 1) (sigma par) ;;
    eF <-? py.truediv (sigma par - 1) (sigma par) ;;
    let inside := (1 - alpha par) * HM ** eM + alpha par * HF ** eF in
    e <-? py.truediv (sigma par) (sigma par - 1) ;;
    let H := inside ** e in
    Ok (H, HM, HF).

(** c. total consumption utility *)
Definition consumption_utility (par : Par) (C H : float) : float :=
  let Q := C ** omega par * H ** (1 - omega par) in
  np.fmax Q 1e-8 ** (1 - rho par) / (1 - rho par).

(** d. disutility of work *)
Definition disutility (par : Par) (LM HM LF HF : float) : result float :=
  inv <-? py.truediv 1 (epsilon par) ;;
  let epsilon_ := 1 + inv in
  let TM := LM + HM in
  let TF := LF + HF in
  Ok (nu par * (TM ** epsilon_ / epsilon_ + TF ** epsilon_ / epsilon_)).

(** [calc_utility(self, LM, HM, LF, HF)] *)
Definition calc_utility (LM HM LF HF : float) : M Model float :=
  par <- gets par ;;
  sol <- gets sol ;;
  (* a. consumption of market goods *)
  let C := wM par * LM + wF par * LF in
  b <- lift (home_production par HM HF) ;;
  let '(H, HM, HF) := b in
  let utility := consumption_utility par C H in
  disutility <- lift (disutility par LM HM LF HF) ;;
  ret (utility - disutility).

(** The value [calc_utility] returns, as a function of the parameters. *)
Definition utility (par : Par) (LM HM LF HF : float) : result float :=
  b <-? home_production par HM HF ;;
  let '(H, HM, HF) := b in
  d <-? disutility par LM HM LF HF ;;
  Ok (consumption_utility par (wM par * LM + wF par * LF) H - d).

(** The same method called on four arrays of one shape. *)
Fixpoint calc_utility_array (LM HM LF HF : list float)
  : M Model (list float) :=
  match LM, HM, LF, HF with
  | a :: LM', b :: HM', c :: LF', d :: HF' =>
      u <- calc_utility a b c d ;;
      us <- calc_utility_array LM' HM' LF' HF' ;;
      ret (u :: us)
  | _, _, _, _ => ret []
  end.

(** *** [solve_discrete]

    Printing is output only and is left out. *)
Definition solve_discrete (do_print : bool) : M Model Opt :=
  (* a. all possible choices *)
  let x := nparray.linspace 0 24 49 in
  let '(LM, HM, LF, HF) := nparray.meshgrid x x x x in
  let LM := nparray.ravel LM in
  let HM := nparray.ravel HM in
  let LF := nparray.ravel LF in
  let HF := nparray.ravel HF in
  (* b. calculate utility *)
  u <- calc_utility_array LM HM LF HF ;;
  (* c. set to minus infinity if constraint is broken *)
  let I := map2 orb (map (fun t => t >? 24) (map2 np.add LM HM))
                    (map (fun t => t >? 24) (map2 np.add LF HF)) in
  let u := nparray.mask_assign u I NInf in
  (* d. find maximizing argument *)
  j <- lift (nparray.argmax u) ;;
  LMj <- lift (py.getitem LM j) ;;
  HMj <- lift (py.getitem HM j) ;;
  LFj <- lift (py.getitem LF j) ;;
  HFj <- lift (py.getitem HF j) ;;
  ret (mkOpt LMj HMj LFj HFj).

Section WithLibraries.

Context {scipy_minimize : optimize.Minimize} {numpy_lstsq : linalg.Lstsq}.

(** *** [solve_cont] *)
Definition solve_cont (do_print : bool) : M Model (list float) :=
  (* constraints and bounds for optimizer *)
  let constraints_M :=
    optimize.mkConstraint optimize.ineq
      (fun x => x0 <-? py.getitem x 0 ;; x1 <-? py.getitem x 1 ;;
                Ok (24 - x0 - x1)) in
  let constraints_F :=
    optimize.mkConstraint optimize.ineq
      (fun x => x2 <-? py.getitem x 2 ;; x3 <-? py.getitem x 3 ;;
                Ok (24 - x2 - x3)) in
  let constraints := [constraints_M; constraints_F] in
  let bounds := repeat (Fin 0, Fin 24) 4 in
  (* call optimizer *)
  let initial_guess := repeat (Fin 4) 4 in
  res <- optimize.minimize
           (fun x =>
              x0 <- lift (py.getitem x 0) ;;
              x1 <- lift (py.getitem x 1) ;;
              x2 <- lift (py.getitem x 2) ;;
              x3 <- lift (py.getitem x 3) ;;
              u <- calc_utility x0 x1 x2 x3 ;;
              ret (- u))
           initial_guess optimize.SLSQP bounds constraints
           (Some (Fin 10e-08)) ;;
  ret (optimize.x res).

(** *** [solve_wF_vec] *)
Definition solve_wF_vec (discrete : bool) : M Model unit :=
  size <- gets (fun self => length (wF_vec (par self))) ;;
  for_ (range size) (fun it =>
    w <- (fun self => lift (py.getitem (wF_vec (par self)) it) self) ;;
    modify (set_wF w) ;;
    if discrete then
      res <- solve_discrete false ;;
      ret tt
    else
      res <- solve_cont false ;;
      r <- lift (py.getitem res 0) ;;
      v <- (fun self => lift (py.setitem (LM_vec (sol self)) it r) self) ;;
      modify (set_LM_vec v) ;;
      r <- lift (py.getitem res 1) ;;
      v <- (fun self => lift (py.setitem (HM_vec (sol self)) it r) self) ;;
      modify (set_HM_vec v) ;;
      r <- lift (py.getitem res 2) ;;
      v <- (fun self => lift (py.setitem (LF_vec (sol self)) it r) self) ;;
      modify (set_LF_vec v) ;;
      r <- lift (py.getitem res 3) ;;
      v <- (fun self => lift (py.setitem (HF_vec (sol self)) it r) self) ;;
      modify (set_HF_vec v)).

(** *** [run_regression] *)

(** [x = np.log(par.wF_vec/par.wM)] *)
Definition regressor (par : Par) : list float :=
  map np.log (map (fun w => w / wM par) (wF_vec par)).

(** [y = np.log(sol.HF_vec/sol.HM_vec)] *)
Definition regressand (sol : Sol) : list float :=
  map np.log (map2 np.divide (HF_vec sol) (HM_vec sol)).

(** [A = np.vstack([np.ones(x.size),x]).T] *)
Definition design_matrix (x : list float) : list (list float) :=
  nparray.T (nparray.vstack [nparray.ones (length x); x]).

(** [sol.beta0,sol.beta1 = np.linalg.lstsq(A,y,rcond=None)[0]]: unpacking
    anything but two coefficients raises. *)
Definition run_regression : M Model unit :=
  par <- gets par ;;
  sol <- gets sol ;;
  let x := regressor par in
  let y := regressand sol in
  let A := design_matrix x in
  match linalg.lstsq A y with
  | [b0; b1] => modify (set_betas b0 b1)
  | _ => raise ValueError
  end.

(** *** [est] and [estimate] *)

(** [est(self, x)] *)
Definition est (x : list float) : M Model float :=
  x0 <- lift (py.getitem x 0) ;;
  modify (set_alpha x0) ;;
  x1 <- lift (py.getitem x 1) ;;
  modify (set_sigma x1) ;;
  solve_wF_vec false ;;
  run_regression ;;
  par <- gets par ;;
  sol <- gets sol ;;
  let objective := (beta0_target par - beta0 sol) ** 2
                   + (beta1_target par - beta1 sol) ** 2 in
  ret objective.

(** [estimate(self, alpha=None, sigma=None, do_print=True)] *)
Definition estimate (alpha sigma : option float) (do_print : bool)
  : M Model (list float) :=
  let obj := fun x => est x in
  result <- optimize.minimize obj [Fin 0.5; Fin 0.1] optimize.Nelder_Mead
              (repeat (Fin 0.01, Fin 0.99) 2) [] None ;;
  ret (optimize.x result).

End WithLibraries.

End WithArithmetic.

End HouseholdSpecializationModelClass.

(** ** Variant B: [NewHouseholdSpecializationModelClass] *)

Module NewHouseholdSpecializationModelClass.

(** [self.par] *)
Record Par : Type := mkPar {
  rho : float;
  nu : float;
  eta : float;
  epsilon : float;
  omega : float;
  alpha : float;
  sigma : float;
  wM : float;
  wF : float;
  wF_vec : list float;
  beta0_target : float;
  beta1_target : float
}.

(** [self.sol] *)
Record Sol : Type := mkSol {
  LM_vec : list float;
  HM_vec : list float;
  LF_vec : list float;
  HF_vec : list float;
  beta0 : float;
  beta1 : float
}.

(** [self] *)
Record Model : Type := mkModel { par : Par; sol : Sol }.

(** The [opt] namespace [solve_discrete] returns. *)
Record Opt : Type := mkOpt { LM : float; HM : float; LF : float; HF : float }.

(** Attribute assignments. *)
Definition set_wF (v : float) (self : Model) : Model :=
  let p := par self in
  mkModel (mkPar (rho p) (nu p) (eta p) (epsilon p) (omega p) (alpha p) (sigma p)
                 (wM p) v (wF_vec p) (beta0_target p) (beta1_target p))
          (sol self).

Definition set_sigma (v : float) (self : Model) : Model :=
  let p := par self in
  mkModel (mkPar (rho p) (nu p) (eta p) (epsilon p) (omega p) (alpha p) v
                 (wM p) (wF p) (wF_vec p) (beta0_target p) (beta1_target p))
          (sol self).

Definition set_LM_vec (v : list float) (self : Model) : Model :=
  let s := sol self in
  mkModel (par self)
          (mkSol v (HM_vec s) (LF_vec s) (HF_vec s) (beta0 s) (beta1 s)).

Definition set_HM_vec (v : list float) (self : Model) : Model :=
  let s := sol self in
  mkModel (par self)
          (mkSol (LM_vec s) v (LF_vec s) (HF_vec s) (beta0 s) (beta1 s)).

Definition set_LF_vec (v : list float) (self : Model) : Model :=
  let s := sol self in
  mkModel (par self)
          (mkSol (LM_vec s) (HM_vec s) v (HF_vec s) (beta0 s) (beta1 s)).

Definition set_HF_vec (v : list float) (self : Model) : Model :=
  let s := sol self in
  mkModel (par self)
          (mkSol (LM_vec s) (HM_vec s) (LF_vec s) v (beta0 s) (beta1 s)).

Definition set_betas (b0 b1 : float) (self : Model) : Model :=
  let s := sol self in
  mkModel (par self)
          (mkSol (LM_vec s) (HM_vec s) (LF_vec s) (HF_vec s) b0 b1).

Local Open Scope R_scope.
Local Open Scope float_scope.
Local Open Scope monad_scope.

(** [__init__] *)
Definition init : Model :=
  let wF_vec := nparray.linspace 0.8 1.2 5 in
  mkModel
    (mkPar 2.0 0.001 0.002 1.0 0.5 0.5 1.0 1.0 1.0 wF_vec 0.4 (-0.1)%R)
    (mkSol (nparray.zeros (length wF_vec)) (nparray.zeros (length wF_vec))
           (nparray.zeros (length wF_vec)) (nparray.zeros (length wF_vec))
           NaN NaN).

Section WithArithmetic.

Context {ar : Arithmetic}.

(** *** [calc_utility]

    The arguments are numpy operands (array entries in [solve_discrete],
    [np.float64] scalars in [solve_cont]), so arithmetic on them never
    raises; divisions between parameters are Python float divisions. *)

(** b. home production.  The last branch assigns to [HM] and [HF], and the
    rest of the method reads the two names after the block: the block hands
    them back with [H]. *)
Definition home_production (par : Par) (HM HF : float)
  : result (float * float * float) :=
  if sigma par =? 0 then
    let H := np.minimum HM HF in
    Ok (H, HM, HF)
  else if sigma par =? 1 then
    let H := HM ** (1 - alpha par) * HF ** alpha par in
    Ok (H, HM, HF)
  else
    let HM := np.fmax HM 1e-07 in
    let HF := np.fmax HF 1e-07 in
    eM <-? py.truediv (sigma par - 1) (sigma par) ;;
    eF <-? py.truediv (sigma par - 1) (sigma par) ;;
    let inside := (1 - alpha par) * HM ** eM + alpha par * HF ** eF in
    e <-? py.truediv (sigma par) (sigma par - 1) ;;
    let H := inside ** e in
    Ok (H, HM, HF).

(** c. total consumption utility *)
Definition consumption_utility (par : Par) (C H : float) : float :=
  let Q := C ** omega par * H ** (1 - omega par) in
  np.fmax Q 1e-8 ** (1 - rho par) / (1 - rho par).

(** d. disutility of work *)
Definition disutility (par : Par) (LM HM LF HF : float) : result float :=
  inv <-? py.truediv 1 (epsilon par) ;;
  let epsilon_ := 1 + inv in
  let TM := LM + HM in
  let TF := LF + HF in
  Ok (nu par * (TM ** epsilon_ / epsilon_)
      + eta par * (TF ** epsilon_ / epsilon_)).

(** [calc_utility(self, LM, HM, LF, HF)] *)
Definition calc_utility (LM HM LF HF : float) : M Model float :=
  par <- gets par ;;
  sol <- gets sol ;;
  (* a. consumption of market goods *)
  let C := wM par * LM + wF par * LF in
  b <- lift (home_production par HM HF) ;;
  let '(H, HM, HF) := b in
  let utility := consumption_utility par C H in
  disutility <- lift (disutility par LM HM LF HF) ;;
  ret (utility - disutility).

(** The value [calc_utility] returns, as a function of the parameters. *)
Definition utility (par : Par) (LM HM LF HF : float) : result float :=
  b <-? home_production par HM HF ;;
  let '(H, HM, HF) := b in
  d <-? disutility par LM HM LF HF ;;
  Ok (consumption_utility par (wM par * LM + wF par * LF) H - d).

(** The same method called on four arrays of one shape. *)
Fixpoint calc_utility_array (LM HM LF HF : list float)
  : M Model (list float) :=
  match LM, HM, LF, HF with
  | a :: LM', b :: HM', c :: LF', d :: HF' =>
      u <- calc_utility a b c d ;;
      us <- calc_utility_array LM' HM' LF' HF' ;;
      ret (u :: us)
  | _, _, _, _ => ret []
  end.

(** *** [solve_discrete]

    Printing is output only and is left out. *)
Definition solve_discrete (do_print : bool) : M Model Opt :=
  (* a. all possible choices *)
  let x := nparray.linspace 0 24 49 in
  let '(LM, HM, LF, HF) := nparray.meshgrid x x x x in
  let LM := nparray.ravel LM in
  let HM := nparray.ravel HM in
  let LF := nparray.ravel LF in
  let HF := nparray.ravel HF in
  (* b. calculate utility *)
  u <- calc_utility_array LM HM LF HF ;;
  (* c. set to minus infinity if constraint is broken *)
  let I := map2 orb (map (fun t => t >? 24) (map2 np.add LM HM))
                    (map (fun t => t >? 24) (map2 np.add LF HF)) in
  let u := nparray.mask_assign u I NInf in
  (* d. find maximizing argument *)
  j <- lift (nparray.argmax u) ;;
  LMj <- lift (py.getitem LM j) ;;
  HMj <- lift (py.getitem HM j) ;;
  LFj <- lift (py.getitem LF j) ;;
  HFj <- lift (py.getitem HF j) ;;
  ret (mkOpt LMj HMj LFj HFj).

Section WithLibraries.

Context {scipy_minimize : optimize.Minimize} {numpy_lstsq : linalg.Lstsq}.

(** *** [solve_cont] *)
Definition solve_cont (do_print : bool) : M Model (list float) :=
  (* constraints and bounds for optimizer *)
  let constraints_M :=
    optimize.mkConstraint optimize.ineq
      (fun x => x0 <-? py.getitem x 0 ;; x1 <-? py.getitem x 1 ;;
                Ok (24 - x0 - x1)) in
  let constraints_F :=
    optimize.mkConstraint optimize.ineq
      (fun x => x2 <-? py.getitem x 2 ;; x3 <-? py.getitem x 3 ;;
                Ok (24 - x2 - x3)) in
  let constraints := [constraints_M; constraints_F] in
  let bounds := repeat (Fin 0, Fin 24) 4 in
  (* call optimizer *)
  let initial_guess := repeat (Fin 4) 4 in
  res <- optimize.minimize
           (fun x =>
              x0 <- lift (py.getitem x 0) ;;
              x1 <- lift (py.getitem x 1) ;;
              x2 <- lift (py.getitem x 2) ;;
              x3 <- lift (py.getitem x 3) ;;
              u <- calc_utility x0 x1 x2 x3 ;;
              ret (- u))
           initial_guess optimize.SLSQP bounds constraints None ;;
  ret (optimize.x res).

(** *** [solve_wF_vec] *)
Definition solve_wF_vec (discrete : bool) : M Model unit :=
  size <- gets (fun self => length (wF_vec (par self))) ;;
  for_ (range size) (fun it =>
    w <- (fun self => lift (py.getitem (wF_vec (par self)) it) self) ;;
    modify (set_wF w) ;;
    if discrete then
      res <- solve_discrete false ;;
      ret tt
    else
      res <- solve_cont false ;;
      r <- lift (py.getitem res 0) ;;
      v <- (fun self => lift (py.setitem (LM_vec (sol self)) it r) self) ;;
      modify (set_LM_vec v) ;;
      r <- lift (py.getitem res 1) ;;
      v <- (fun self => lift (py.setitem (HM_vec (sol self)) it r) self) ;;
      modify (set_HM_vec v) ;;
      r <- lift (py.getitem res 2) ;;
      v <- (fun self => lift (py.setitem (LF_vec (sol self)) it r) self) ;;
      modify (set_LF_vec v) ;;
      r <- lift (py.getitem res 3) ;;
      v <- (fun self => lift (py.setitem (HF_vec (sol self)) it r) self) ;;
      modify (set_HF_vec v)).

(** *** [run_regression] *)

(** [x = np.log(par.wF_vec/par.wM)] *)
Definition regressor (par : Par) : list float :=
  map np.log (map (fun w => w / wM par) (wF_vec par)).

(** [y = np.log(sol.HF_vec/sol.HM_vec)] *)
Definition regressand (sol : Sol) : list float :=
  map np.log (map2 np.divide (HF_vec sol) (HM_vec sol)).

(** [A = np.vstack([np.ones(x.size),x]).T] *)
Definition design_matrix (x : list float) : list (list float) :=
  nparray.T (nparray.vstack [nparray.ones (length x); x]).

(** [sol.beta0,sol.beta1 = np.linalg.lstsq(A,y,rcond=None)[0]]: unpacking
    anything but two coefficients raises. *)
Definition run_regression : M Model unit :=
  par <- gets par ;;
  sol <- gets sol ;;
  let x := regressor par in
  let y := regressand sol in
  let A := design_matrix x in
  match linalg.lstsq A y with
  | [b0; b1] => modify (set_betas b0 b1)
  | _ => raise ValueError
  end.

(** *** [est] and [estimate] *)

(** [est(self, x)] *)
Definition est (x : list float) : M Model float :=
  x0 <- lift (py.getitem x 0) ;;
  modify (set_sigma x0) ;;
  solve_wF_vec false ;;
  run_regression ;;
  par <- gets par ;;
  sol <- gets sol ;;
  let objective := (beta0_target par - beta0 sol) ** 2
                   + (beta1_target par - beta1 sol) ** 2 in
  ret objective.

(** [estimate(self, sigma=None, do_print=True)] *)
Definition estimate (sigma : option float) (do_print : bool)
  : M Model (list float) :=
  let obj := fun x => est x in
  result <- optimize.minimize obj [Fin 0.1] optimize.Nelder_Mead
              [(Fin 0.01, Fin 0.99)] [] None ;;
  ret (optimize.x result).

End WithLibraries.

End WithArithmetic.

End NewHouseholdSpecializationModelClass.

(** ** Vocabulary of the properties *)

(** What [np.argmax] promises on a NaN-free array: [j] is the first index
    holding the maximum. *)
Definition first_max (u : list float) (j : nat) : Prop :=
  j < length u /\
  (forall i, i < length u -> np.less_equal (nth i u NaN) (nth j u NaN) = true) /\
  (forall i, i < j -> np.less (nth i u NaN) (nth j u NaN) = true).

(** What it does when the array holds a NaN: [j] is the first NaN. *)
Definition first_nan (u : list float) (j : nat) : Prop :=
  j < length u /\
  nth j u NaN = NaN /\
  (forall i, i < j -> nth i u NaN <> NaN).

Definition argmax_of (u : list float) (j : nat) : Prop :=
  (Forall (fun v => v <> NaN) u /\ first_max u j) \/ first_nan u j.

(** The combinations [(LM, HM, LF, HF)] in the order of the ravelled
    meshgrid: the second input varies slowest, then the first, the third and
    the fourth. *)
Definition cells {A} (x1 x2 x3 x4 : list A) : list (A * A * A * A) :=
  flat_map (fun b =>
    flat_map (fun a =>
      flat_map (fun c => map (fun d => (a, b, c, d)) x4) x3) x1) x2.

Module A := HouseholdSpecializationModelClass.
Module B := NewHouseholdSpecializationModelClass.

(** The grid of [solve_discrete] and its combinations, in the order of the
    ravelled arrays. *)
Definition grid : list float := nparray.linspace 0 24 49.

Definition grid_cells : list (float * float * float * float) :=
  cells grid grid grid grid.

Section Vocabulary.

Context {ar : Arithmetic}.

(** The mask [I] of [solve_discrete] at one combination. *)
Definition infeasible (t : float * float * float * float) : bool :=
  let '(LM, HM, LF, HF) := t in
  ((LM + HM >? 24%R) || (LF + HF >? 24%R))%fl.

(** The utility array of [solve_discrete] after the mask is applied. *)
Definition masked (u : float) (t : float * float * float * float) : float :=
  if infeasible t then NInf else u.

Definition utility_at (par : A.Par) (t : float * float * float * float)
  : result float :=
  let '(LM, HM, LF, HF) := t in A.utility par LM HM LF HF.

Definition opt_of (t : float * float * float * float) : A.Opt :=
  let '(LM, HM, LF, HF) := t in A.mkOpt LM HM LF HF.

(** The time budget of the two members. *)
Definition feasible (c : A.Opt) : Prop :=
  (A.LM c + A.HM c <=? 24%R)%fl = true /\
  (A.LF c + A.HF c <=? 24%R)%fl = true.

(** A computation keeps a property of the object. *)
Definition preserves {S T} (P : S -> Prop) (c : M S T) : Prop :=
  forall s, P s -> P (snd (c s)).

(** A computation leaves the object as it was. *)
Definition read_only {S T} (c : M S T) : Prop :=
  forall s, snd (c s) = s.

Section MethodCalls.

Context {scipy_minimize : optimize.Minimize} {numpy_lstsq : linalg.Lstsq}.

(** One call of a method of the class, with any arguments. *)
Inductive call : A.Model -> A.Model -> Prop :=
| call_calc_utility LM HM LF HF self :
    call self (snd (A.calc_utility LM HM LF HF self))
| call_solve_discrete do_print self :
    call self (snd (A.solve_discrete do_print self))
| call_solve_cont do_print self :
    call self (snd (A.solve_cont do_print self))
| call_solve_wF_vec discrete self :
    call self (snd (A.solve_wF_vec discrete self))
| call_run_regression self :
    call self (snd (A.run_regression self))
| call_estimate alpha sigma do_print self :
    call self (snd (A.estimate alpha sigma do_print self))
| call_est x self :
    call self (snd (A.est x self)).

(** The objects reachable from the default construction. *)
Inductive reachable : A.Model -> Prop :=
| reachable_init : reachable A.init
| reachable_call self self' :
    reachable self -> call self self' -> reachable self'.

(** A property of the object that no assignment of the class changes:
    it looks at no attribute that is ever assigned. *)
Definition stable (P : A.Model -> Prop) : Prop :=
  (forall v s, P s -> P (A.set_wF v s)) /\
  (forall v s, P s -> P (A.set_alpha v s)) /\
  (forall v s, P s -> P (A.set_sigma v s)) /\
  (forall v s, P s -> P (A.set_LM_vec v s)) /\
  (forall v s, P s -> P (A.set_HM_vec v s)) /\
  (forall v s, P s -> P (A.set_LF_vec v s)) /\
  (forall v s, P s -> P (A.set_HF_vec v s)) /\
  (forall b0 b1 s, P s -> P (A.set_betas b0 b1 s)).

(** One iteration of the sweep that runs to its end, in discrete mode. *)
Definition discrete_step (it : nat) (s s' : A.Model) : Prop :=
  exists w : float,
    nth_error (A.wF_vec (A.par s)) it = Some w /\ s' = A.set_wF w s.

(** One iteration of the sweep that runs to its end, in continuous mode. *)
Definition continuous_step (it : nat) (s s' : A.Model) : Prop :=
  exists (w : float) (res : list float) (r0 r1 r2 r3 : float)
         (v0 v1 v2 v3 : list float),
    nth_error (A.wF_vec (A.par s)) it = Some w /\
    fst (A.solve_cont false (A.set_wF w s)) = Ok res /\
    nth_error res 0 = Some r0 /\ nth_error res 1 = Some r1 /\
    nth_error res 2 = Some r2 /\ nth_error res 3 = Some r3 /\
    py.setitem (A.LM_vec (A.sol s)) it r0 = Ok v0 /\
    py.setitem (A.HM_vec (A.sol s)) it r1 = Ok v1 /\
    py.setitem (A.LF_vec (A.sol s)) it r2 = Ok v2 /\
    py.setitem (A.HF_vec (A.sol s)) it r3 = Ok v3 /\
    s' = A.set_HF_vec v3 (A.set_LF_vec v2 (A.set_HM_vec v1
           (A.set_LM_vec v0 (A.set_wF w s)))).

(** Entry [it] of the four solution vectors of [s] holds what [solve_cont]
    returns on [self] with [wF] set to [w]. *)
Definition swept_entry (self : A.Model) (it : nat) (w : float) (s : A.Model)
  : Prop :=
  exists (res : list float) (r0 r1 r2 r3 : float),
    fst (A.solve_cont false (A.set_wF w self)) = Ok res /\
    (nth_error res 0 = Some r0 /\ nth_error res 1 = Some r1 /\
     nth_error res 2 = Some r2 /\ nth_error res 3 = Some r3) /\
    nth_error (A.LM_vec (A.sol s)) it = Some r0 /\
    nth_error (A.HM_vec (A.sol s)) it = Some r1 /\
    nth_error (A.LF_vec (A.sol s)) it = Some r2 /\
    nth_error (A.HF_vec (A.sol s)) it = Some r3.

(** The state of the sweep after [k] iterations. *)
Definition sweep_invariant (discrete : bool) (self : A.Model) (k : nat)
           (s : A.Model) : Prop :=
  (forall w, A.par (A.set_wF w s) = A.par (A.set_wF w self)) /\
  A.wF (A.par s)
  = last (firstn k (A.wF_vec (A.par self))) (A.wF (A.par self)) /\
  (discrete = true -> A.sol s = A.sol self) /\
  (discrete = false ->
   forall it w, it < k -> nth_error (A.wF_vec (A.par self)) it = Some w ->
     swept_entry self it w s).

End MethodCalls.

End Vocabulary.

(** ** Reference implementations of the external libraries

    They show that the contracts of [optimize.Minimize] and [linalg.Lstsq]
    can be met, and give the properties concrete objects to run on. *)

(** An optimizer that stops after its first evaluation of the objective. *)
Definition minimize_once (S : Type) (f : list float -> M S float)
           (x0 : list float) (meth : optimize.method)
           (bounds : list (float * float))
           (constraints : list optimize.constraint) (tol : option float)
  : M S optimize.OptimizeResult :=
  bind (f x0) (fun _ => ret (optimize.mkResult x0)).

Definition to_R (v : float) : R :=
  match v with
  | Fin r => r
  | _ => 0%R
  end.

Definition row_pair (r : list float) : R * R :=
  match r with
  | [a; b] => (to_R a, to_R b)
  | _ => (0%R, 0%R)
  end.

(** Least squares on two columns by the normal equations. *)
Definition lstsq_normal_equations (A : list (list float)) (y : list float)
  : list float :=
  let rows := map row_pair A in
  let d := combine rows (map to_R y) in
  let Saa := linalg.sum_by (fun r => fst r * fst r)%R rows in
  let Sab := linalg.sum_by (fun r => fst r * snd r)%R rows in
  let Sbb := linalg.sum_by (fun r => snd r * snd r)%R rows in
  let Say := linalg.sum_by (fun t => fst (fst t) * snd t)%R d in
  let Sby := linalg.sum_by (fun t => snd (fst t) * snd t)%R d in
  let det := (Saa * Sbb - Sab * Sab)%R in
  [Fin ((Sbb * Say - Sab * Sby) / det); Fin ((Saa * Sby - Sab * Say) / det)].

(** ** The utility function in the words of the specification *)

Section Specification.

Context {ar : Arithmetic}.

(** The hours the disutility is computed from: the floor of the last
    branch of the home production stays on [HM] and [HF]. *)
Definition floored_hours (sigma h : float) : float :=
  if (sigma =? 0%R)%fl then h
  else if (sigma =? 1%R)%fl then h
  else np.fmax h 1e-07%R.

Definition hours_spec (sigma : float) (h : R) : float :=
  if (sigma =? 0%R)%fl then Fin h
  else if (sigma =? 1%R)%fl then Fin h
  else Fin (Rmax h 1e-7).

(** Home production, the three-branch rule on [sigma]. *)
Definition H_spec (sigma alpha : float) (HM HF : R) : float :=
  if (sigma =? 0%R)%fl then
    Fin (Rmin HM HF)
  else if (sigma =? 1%R)%fl then
    (Fin HM ** (1%R - alpha) * Fin HF ** alpha)%fl
  else
    let HM' := Rmax HM 1e-7 in
    let HF' := Rmax HF 1e-7 in
    (((1%R - alpha) * Fin HM' ** ((sigma - 1%R) / sigma)
      + alpha * Fin HF' ** ((sigma - 1%R) / sigma))
     ** (sigma / (sigma - 1%R)))%fl.

(** Consumption utility with the floor on the composite good. *)
Definition core_spec (omega rho C H : float) : float :=
  let Q := (C ** omega * H ** (1%R - omega))%fl in
  (np.fmax Q 1e-8%R ** (1%R - rho) / (1%R - rho))%fl.

(** The exponent [e = 1 + 1/epsilon] and the two disutility terms. *)
Definition e_spec (epsilon : float) : float := (1%R + 1%R / epsilon)%fl.

Definition disutility_A_spec (nu epsilon TM TF : float) : float :=
  let e := e_spec epsilon in
  (nu * (TM ** e / e + TF ** e / e))%fl.

Definition disutility_B_spec (nu eta epsilon TM TF : float) : float :=
  let e := e_spec epsilon in
  (nu * (TM ** e / e) + eta * (TF ** e / e))%fl.

(** The parameters of variant B that extend those of variant A by [eta]. *)
Definition with_eta (p : A.Par) (eta : float) : B.Par :=
  B.mkPar (A.rho p) (A.nu p) eta (A.epsilon p) (A.omega p) (A.alpha p)
          (A.sigma p) (A.wM p) (A.wF p) (A.wF_vec p)
          (A.beta0_target p) (A.beta1_target p).

(** The objective of a calibration trial once the regression has run. *)
Definition objective_A (self : A.Model) : float :=
  ((A.beta0_target (A.par self) - A.beta0 (A.sol self)) ** 2%R
   + (A.beta1_target (A.par self) - A.beta1 (A.sol self)) ** 2%R)%fl.

Definition objective_B (self : B.Model) : float :=
  ((B.beta0_target (B.par self) - B.beta0 (B.sol self)) ** 2%R
   + (B.beta1_target (B.par self) - B.beta1 (B.sol self)) ** 2%R)%fl.

End Specification.

(** The regressor of the default [wF_vec] with [wM = 1], as real numbers. *)
Definition xs_default : list R :=
  map (fun i => ln ((0.8 + INR i * ((1.2 - 0.8) / INR (5 - 1))) / 1))
      (seq 0 5).

(** The rows [(1, x)] of the design matrix. *)
Definition design_rows (xs : list R) : list (R * R) :=
  map (fun x => (1%R, x)) xs.

(** An object whose solution vectors lie on the line [y = 0.4 - 0.1 x]:
    [HM_vec] is all ones and [HF_vec = exp(0.4 - 0.1 x)]. *)
Definition round_trip_model : A.Model :=
  A.mkModel (A.par A.init)
    (A.mkSol (nparray.zeros 5) (nparray.ones 5) (nparray.zeros 5)
             (map (fun x => Fin (exp (0.4 - 0.1 * x))) xs_default)
             NaN NaN).

(** ** Further vocabulary *)

(** A grid value of [solve_discrete]: a multiple of 0.5 between 0 and 24. *)
Definition on_grid (v : float) : Prop :=
  exists k : nat, k <= 48 /\ v = Fin (INR k / 2).

(** What the continuous sweep has kept of a solution vector [v0] after [k]
    iterations that ran to their end: the vector has room for them, its
    length, and its entries from [k] on. *)
Definition vec_kept (k : nat) (v0 v : list float) : Prop :=
  k <= length v0 /\
  length v = length v0 /\
  forall i, k <= i -> nth_error v i = nth_error v0 i.

(** A property of the object kept by every assignment of the class that
    does not change the length of a solution vector. *)
Definition shape_stable (P : A.Model -> Prop) : Prop :=
  (forall v s, P s -> P (A.set_wF v s)) /\
  (forall v s, P s -> P (A.set_alpha v s)) /\
  (forall v s, P s -> P (A.set_sigma v s)) /\
  (forall v s, P s -> length v = length (A.LM_vec (A.sol s)) ->
     P (A.set_LM_vec v s)) /\
  (forall v s, P s -> length v = length (A.HM_vec (A.sol s)) ->
     P (A.set_HM_vec v s)) /\
  (forall v s, P s -> length v = length (A.LF_vec (A.sol s)) ->
     P (A.set_LF_vec v s)) /\
  (forall v s, P s -> length v = length (A.HF_vec (A.sol s)) ->
     P (A.set_HF_vec v s)) /\
  (forall b0 b1 s, P s -> P (A.set_betas b0 b1 s)).

(** The parameters of two objects agree except, possibly, on [wF]. *)
Definition par_up_to_wF (s t : A.Model) : Prop :=
  forall w, A.par (A.set_wF w s) = A.par (A.set_wF w t).

(** The default shape of the object: the parameters no method assigns, and
    the number of entries of the solution vectors. *)
Definition default_shape (s : A.Model) : Prop :=
  A.rho (A.par s) = Fin 2.0 /\
  A.nu (A.par s) = Fin 0.001 /\
  A.epsilon (A.par s) = Fin 1.0 /\
  A.omega (A.par s) = Fin 0.5 /\
  A.wM (A.par s) = Fin 1.0 /\
  A.wF_vec (A.par s) = nparray.linspace 0.8 1.2 5 /\
  A.beta0_target (A.par s) = Fin 0.4 /\
  A.beta1_target (A.par s) = Fin (-0.1) /\
  length (A.LM_vec (A.sol s)) = 5 /\
  length (A.HM_vec (A.sol s)) = 5 /\
  length (A.LF_vec (A.sol s)) = 5 /\
  length (A.HF_vec (A.sol s)) = 5.

(** The parameters of two objects agree except, possibly, on [alpha],
    [sigma] and [wF], and their solution vectors have the same lengths. *)
Definition same_frame (s t : A.Model) : Prop :=
  (forall w a g,
     A.par (A.set_wF w (A.set_sigma g (A.set_alpha a s)))
     = A.par (A.set_wF w (A.set_sigma g (A.set_alpha a t)))) /\
  length (A.LM_vec (A.sol s)) = length (A.LM_vec (A.sol t)) /\
  length (A.HM_vec (A.sol s)) = length (A.HM_vec (A.sol t)) /\
  length (A.LF_vec (A.sol s)) = length (A.LF_vec (A.sol t)) /\
  length (A.HF_vec (A.sol s)) = length (A.HF_vec (A.sol t)).

(** An object with another [rho], or another [epsilon]: no method assigns
    them, the user of the class may. *)
Definition with_rho (r : float) (s : A.Model) : A.Model :=
  let p := A.par s in
  A.mkModel (A.mkPar r (A.nu p) (A.epsilon p) (A.omega p) (A.alpha p)
                     (A.sigma p) (A.wM p) (A.wF p) (A.wF_vec p)
                     (A.beta0_target p) (A.beta1_target p))
            (A.sol s).

Definition with_epsilon (e : float) (s : A.Model) : A.Model :=
  let p := A.par s in
  A.mkModel (A.mkPar (A.rho p) (A.nu p) e (A.omega p) (A.alpha p)
                     (A.sigma p) (A.wM p) (A.wF p) (A.wF_vec p)
                     (A.beta0_target p) (A.beta1_target p))
            (A.sol s).

(** A finite result that the format holds. *)
Definition in_range {ar : Arithmetic} (r : R) : Prop := overflows r = false.

(** The parameters that variant B shares with variant A. *)
Definition forget_eta (p : B.Par) : A.Par :=
  A.mkPar (B.rho p) (B.nu p) (B.epsilon p) (B.omega p) (B.alpha p)
          (B.sigma p) (B.wM p) (B.wF p) (B.wF_vec p)
          (B.beta0_target p) (B.beta1_target p).

Definition utility_at_B {ar : Arithmetic} (par : B.Par)
           (t : float * float * float * float) : result float :=
  let '(LM, HM, LF, HF) := t in B.utility par LM HM LF HF.

Definition opt_of_B (t : float * float * float * float) : B.Opt :=
  let '(LM, HM, LF, HF) := t in B.mkOpt LM HM LF HF.

(** The Choice of variant B read as one of variant A. *)
Definition choice_of_B (c : B.Opt) : A.Opt :=
  A.mkOpt (B.LM c) (B.HM c) (B.LF c) (B.HF c).

(** The parameters of two objects of variant B agree except, possibly, on
    [sigma] and [wF]. *)
Definition par_up_to_sigma_wF (s t : B.Model) : Prop :=
  forall w g, B.par (B.set_wF w (B.set_sigma g s))
              = B.par (B.set_wF w (B.set_sigma g t)).

(** ** Facts about floats *)

Ltac float_cases :=
  repeat match goal with
         | x : float |- _ => destruct x
         end;
  unfold np.less_equal, np.greater, np.less, np.equal, np.fmax, np.minimum,
    np.isnan in *;
  simpl in *;
  repeat match goal with
         | |- context [Rlt_dec ?a ?b] => destruct (Rlt_dec a b)
         | |- context [Req_dec_T ?a ?b] => destruct (Req_dec_T a b)
         | H : context [Rlt_dec ?a ?b] |- _ => destruct (Rlt_dec a b)
         | H : context [Req_dec_T ?a ?b] |- _ => destruct (Req_dec_T a b)
         end;
  simpl in *;
  try solve [ congruence | lra | discriminate | exfalso; lra
            | intuition (try congruence; try lra) ].

Lemma less_equal_not_nan_l (x y : float) :
  np.less_equal x y = true -> x <> NaN.
Proof. float_cases. Qed.

Lemma less_equal_refl (x : float) : x <> NaN -> np.less_equal x x = true.
Proof. float_cases. Qed.

Lemma not_less_equal_less (x y : float) :
  x <> NaN -> y <> NaN -> np.less_equal x y = false -> np.less y x = true.
Proof. float_cases. Qed.

Lemma less_less_equal (x y : float) :
  np.less x y = true -> np.less_equal x y = true.
Proof. float_cases. Qed.

Lemma less_equal_less_trans (x y z : float) :
  np.less_equal x y = true -> np.less y z = true -> np.less x z = true.
Proof. float_cases. Qed.

Lemma less_not_NInf (x y : float) : np.less x y = true -> y <> NInf.
Proof. float_cases. Qed.

Lemma isnan_false (x : float) : np.isnan x = false -> x <> NaN.
Proof. float_cases. Qed.

Lemma isnan_true (x : float) : np.isnan x = true -> x = NaN.
Proof. float_cases. Qed.

(** ** [np.argmax] *)

Lemma nth_app_here {A} (p l : list A) (v d : A) :
  nth (length p) (p ++ v :: l) d = v.
Proof. rewrite app_nth2, Nat.sub_diag by lia. reflexivity. Qed.

Lemma argmax_scan_spec (l p : list float) (mp : float) (best : nat) :
  best < length p ->
  nth best p NaN = mp ->
  Forall (fun v => v <> NaN) p ->
  (forall i, i < length p -> np.less_equal (nth i p NaN) mp = true) ->
  (forall i, i < best -> np.less (nth i p NaN) mp = true) ->
  argmax_of (p ++ l) (nparray.argmax_scan mp best (length p) l).
Proof.
  revert p mp best.
  induction l as [|v t IH]; intros p mp best Hb Hmp Hnan Hle Hlt.
  - simpl. rewrite app_nil_r. left. split; [assumption|].
    subst mp. repeat split; auto.
  - simpl.
    assert (Hshift : (p ++ [v]) ++ t = p ++ v :: t)
      by (rewrite <- app_assoc; reflexivity).
    assert (Hlen : length (p ++ [v]) = S (length p))
      by (rewrite length_app; simpl; lia).
    assert (Hmpn : mp <> NaN).
    { subst mp. rewrite Forall_forall in Hnan. apply Hnan, nth_In, Hb. }
    destruct (np.less_equal v mp) eqn:Hv.
    + rewrite <- Hshift, <- Hlen. apply IH.
      * rewrite Hlen. lia.
      * rewrite app_nth1 by lia. assumption.
      * apply Forall_app. split; [assumption|].
        constructor; [|constructor]. eapply less_equal_not_nan_l; eauto.
      * intros i Hi. rewrite Hlen in Hi.
        destruct (Nat.eq_dec i (length p)) as [->|Hne].
        -- rewrite nth_app_here. assumption.
        -- rewrite app_nth1 by lia. apply Hle. lia.
      * intros i Hi. rewrite app_nth1 by lia. auto.
    + destruct (np.isnan v) eqn:Hn.
      * right. apply isnan_true in Hn. subst v. repeat split.
        -- rewrite length_app. simpl. lia.
        -- apply nth_app_here.
        -- intros i Hi. rewrite app_nth1 by lia.
           rewrite Forall_forall in Hnan. apply Hnan, nth_In, Hi.
      * apply isnan_false in Hn.
        assert (Hgt : np.less mp v = true)
          by (apply not_less_equal_less; assumption).
        rewrite <- Hshift, <- Hlen.
        replace (length p) with (length (p ++ [v]) - 1) at 1 by lia.
        apply IH.
        -- lia.
        -- rewrite Hlen. replace (S (length p) - 1) with (length p) by lia.
           apply nth_app_here.
        -- apply Forall_app. split; [assumption|]. repeat constructor.
           assumption.
        -- intros i Hi. rewrite Hlen in Hi.
           destruct (Nat.eq_dec i (length p)) as [->|Hne].
           ++ rewrite nth_app_here. apply less_equal_refl. assumption.
           ++ rewrite app_nth1 by lia. apply less_less_equal.
              eapply less_equal_less_trans; [apply Hle; lia | assumption].
        -- intros i Hi. rewrite Hlen in Hi.
           rewrite app_nth1 by lia.
           eapply less_equal_less_trans; [apply Hle; lia | assumption].
Qed.

Lemma argmax_spec (u : list float) :
  u <> [] -> exists j, nparray.argmax u = Ok j /\ argmax_of u j.
Proof.
  destruct u as [|v t]; [congruence|]. intros _.
  eexists. split; [reflexivity|].
  destruct (np.isnan v) eqn:Hn.
  - right. apply isnan_true in Hn. subst v. repeat split.
    + simpl. lia.
    + intros i Hi. lia.
  - apply isnan_false in Hn.
    change (v :: t) with ([v] ++ t).
    change 1 with (length [v]).
    apply argmax_scan_spec.
    + simpl. lia.
    + reflexivity.
    + repeat constructor. assumption.
    + intros i Hi. simpl in Hi. assert (i = 0) by lia. subst i. simpl.
      apply less_equal_refl. assumption.
    + intros i Hi. lia.
Qed.

(** The index [np.argmax] returns is 0, or holds something else than
    minus infinity. *)
Lemma argmax_of_not_NInf (u : list float) (j : nat) :
  argmax_of u j -> j = 0 \/ nth j u NaN <> NInf.
Proof.
  intros [[_ (_ & _ & Hlt)] | (_ & Hj & _)].
  - destruct j as [|j]; [left; reflexivity|right].
    eapply less_not_NInf. apply (Hlt 0). lia.
  - right. rewrite Hj. discriminate.
Qed.

(** ** The ravelled meshgrid *)

Lemma concat_flat_map {A B} (f : A -> list (list B)) (l : list A) :
  concat (flat_map f l) = flat_map (fun a => concat (f a)) l.
Proof.
  induction l as [|a l IH]; simpl; [reflexivity|].
  rewrite concat_app, IH. reflexivity.
Qed.

Lemma map_flat_map_comm {A B C} (g : B -> C) (f : A -> list B) (l : list A) :
  map g (flat_map f l) = flat_map (fun a => map g (f a)) l.
Proof.
  induction l as [|a l IH]; simpl; [reflexivity|].
  rewrite map_app, IH. reflexivity.
Qed.

Lemma ravel_grid {A} (pick : A -> A -> A -> A -> A) (x1 x2 x3 x4 : list A) :
  nparray.ravel
    (map (fun b => map (fun a => map (fun c => map (fun d => pick a b c d)
                                               x4) x3) x1) x2)
  = map (fun t => let '(a, b, c, d) := t in pick a b c d) (cells x1 x2 x3 x4).
Proof.
  unfold nparray.ravel, cells.
  rewrite <- flat_map_concat_map, !concat_flat_map, map_flat_map_comm.
  apply flat_map_ext; intros b.
  rewrite <- flat_map_concat_map, concat_flat_map, map_flat_map_comm.
  apply flat_map_ext; intros a.
  rewrite <- flat_map_concat_map, map_flat_map_comm.
  apply flat_map_ext; intros c.
  rewrite map_map. reflexivity.
Qed.

Lemma length_flat_map_const {A B} (f : A -> list B) (l : list A) (n : nat) :
  (forall a, length (f a) = n) -> length (flat_map f l) = length l * n.
Proof.
  intros Hf. induction l as [|a l IH]; simpl; [reflexivity|].
  rewrite length_app, Hf, IH. reflexivity.
Qed.

Lemma length_cells {A} (x1 x2 x3 x4 : list A) :
  length (cells x1 x2 x3 x4)
  = length x2 * (length x1 * (length x3 * length x4)).
Proof.
  unfold cells.
  apply length_flat_map_const; intros b.
  apply length_flat_map_const; intros a.
  apply length_flat_map_const; intros c.
  apply length_map.
Qed.

Lemma nth_flat_map_const {A B} (f : A -> list B) (l : list A) (n i j : nat)
      (da : A) (db : B) :
  (forall a, length (f a) = n) -> i < length l -> j < n ->
  nth (i * n + j) (flat_map f l) db = nth j (f (nth i l da)) db.
Proof.
  intros Hf. revert i. induction l as [|a l IH]; intros i Hi Hj.
  - simpl in Hi. lia.
  - simpl. destruct i as [|i].
    + simpl. rewrite app_nth1 by (rewrite Hf; lia). reflexivity.
    + rewrite app_nth2 by (rewrite Hf; simpl; lia).
      rewrite Hf. replace (S i * n + j - n) with (i * n + j) by (simpl; lia).
      apply IH; [simpl in Hi; lia | assumption].
Qed.

(** Where each combination sits in the ravelled arrays. *)
Lemma nth_cells {A} (x1 x2 x3 x4 : list A) (i j k l : nat) (d : A) :
  i < length x2 -> j < length x1 -> k < length x3 -> l < length x4 ->
  nth (i * (length x1 * (length x3 * length x4))
       + (j * (length x3 * length x4) + (k * length x4 + l)))
      (cells x1 x2 x3 x4) (d, d, d, d)
  = (nth j x1 d, nth i x2 d, nth k x3 d, nth l x4 d).
Proof.
  intros Hi Hj Hk Hl. unfold cells.
  assert (H3 : forall a b c : A,
             length (map (fun e : A => (a, b, c, e)) x4) = length x4)
    by (intros; apply length_map).
  assert (H2 : forall a b : A,
             length (flat_map (fun c => map (fun e : A => (a, b, c, e)) x4) x3)
             = length x3 * length x4)
    by (intros; apply length_flat_map_const; auto).
  assert (H1 : forall b : A,
             length (flat_map (fun a =>
                       flat_map (fun c => map (fun e : A => (a, b, c, e)) x4)
                                x3) x1)
             = length x1 * (length x3 * length x4))
    by (intros; apply length_flat_map_const; auto).
  rewrite nth_flat_map_const with (da := d); auto.
  2:{ assert (j * (length x3 * length x4) + (k * length x4 + l)
              < length x1 * (length x3 * length x4)); [|lia].
      assert (k * length x4 + l < length x3 * length x4) by nia. nia. }
  rewrite nth_flat_map_const with (da := d); auto.
  2:{ nia. }
  rewrite nth_flat_map_const with (da := d); auto.
  rewrite nth_indep with (d' := (fun e => (nth j x1 d, nth i x2 d, nth k x3 d, e)) d)
    by (rewrite length_map; assumption).
  rewrite map_nth. reflexivity.
Qed.

Lemma in_cells {A} (x1 x2 x3 x4 : list A) (a b c d : A) :
  In (a, b, c, d) (cells x1 x2 x3 x4) <->
  In a x1 /\ In b x2 /\ In c x3 /\ In d x4.
Proof.
  unfold cells. rewrite in_flat_map. split.
  - intros (b' & Hb & H). rewrite in_flat_map in H.
    destruct H as (a' & Ha & H). rewrite in_flat_map in H.
    destruct H as (c' & Hc & H). rewrite in_map_iff in H.
    destruct H as (d' & Heq & Hd). inversion Heq; subst. auto.
  - intros (Ha & Hb & Hc & Hd). exists b. split; [assumption|].
    rewrite in_flat_map. exists a. split; [assumption|].
    rewrite in_flat_map. exists c. split; [assumption|].
    rewrite in_map_iff. exists d. auto.
Qed.

(** ** Running the monad *)

Ltac run :=
  unfold bind, ret, lift, gets, modify, raise, py.bind in *; simpl in *.

Lemma for_app {S A} (l1 l2 : list A) (body : A -> M S unit) (s : S) :
  for_ (l1 ++ l2) body s =
  match for_ l1 body s with
  | (Ok _, s') => for_ l2 body s'
  | (Raise e, s') => (Raise e, s')
  end.
Proof.
  revert s. induction l1 as [|a l1 IH]; intros s; simpl.
  - reflexivity.
  - unfold bind. destruct (body a s) as [[[]|e] s']; [apply IH|reflexivity].
Qed.

Lemma getitem_nth {A} (a : list A) (i : nat) (d : A) :
  i < length a -> py.getitem a i = Ok (nth i a d).
Proof.
  intros Hi. unfold py.getitem.
  destruct (nth_error a i) eqn:E.
  - erewrite nth_error_nth; [reflexivity|eassumption].
  - apply nth_error_None in E. lia.
Qed.

Lemma map2_map_map {A B C D} (f : B -> C -> D) (g : A -> B) (h : A -> C)
      (l : list A) :
  map2 f (map g l) (map h l) = map (fun a => f (g a) (h a)) l.
Proof. induction l as [|a l IH]; simpl; [|rewrite IH]; reflexivity. Qed.

Lemma map2_length {A B C} (f : A -> B -> C) (a : list A) (b : list B) :
  length a = length b -> length (map2 f a b) = length a.
Proof.
  revert b. induction a as [|x a IH]; intros [|y b] H; simpl in *; try lia.
  rewrite IH; lia.
Qed.

Lemma map2_nth {A B C} (f : A -> B -> C) (a : list A) (b : list B)
      (i : nat) (da : A) (db : B) (dc : C) :
  length a = length b -> i < length a ->
  nth i (map2 f a b) dc = f (nth i a da) (nth i b db).
Proof.
  revert b i. induction a as [|x a IH]; intros [|y b] i H Hi; simpl in *;
    try lia.
  destruct i as [|i]; [reflexivity|]. apply IH; lia.
Qed.

Lemma nth_map_in_range {A B} (f : A -> B) (l : list A) (i : nat) (d : B)
      (d' : A) :
  i < length l -> nth i (map f l) d = f (nth i l d').
Proof.
  intros Hi. rewrite nth_indep with (d' := f d') by (rewrite length_map; lia).
  apply map_nth.
Qed.

Lemma map2_map_r {A B C D} (f : A -> C -> D) (g : B -> C)
      (a : list A) (b : list B) :
  map2 f a (map g b) = map2 (fun x y => f x (g y)) a b.
Proof.
  revert b. induction a as [|x a IH]; intros [|y b]; simpl; try reflexivity.
  rewrite IH. reflexivity.
Qed.

Lemma map2_ext {A B C} (f g : A -> B -> C) (a : list A) (b : list B) :
  (forall x y, f x y = g x y) -> map2 f a b = map2 g a b.
Proof.
  intros H. revert b. induction a as [|x a IH]; intros [|y b]; simpl;
    try reflexivity.
  rewrite H, IH. reflexivity.
Qed.

Lemma argmax_of_lt (u : list float) (j : nat) : argmax_of u j -> j < length u.
Proof. intros [[_ [H _]] | [H _]]; exact H. Qed.

Lemma firstn_S_nth_error {A} (l : list A) (k : nat) (w : A) :
  nth_error l k = Some w -> firstn (S k) l = firstn k l ++ [w].
Proof.
  revert k. induction l as [|a l IH]; intros [|k] H; simpl in *;
    try discriminate.
  - inversion H. reflexivity.
  - rewrite (IH k H). reflexivity.
Qed.

Lemma setitem_Ok {A} (l l' : list A) (i : nat) (v : A) :
  py.setitem l i v = Ok l' ->
  nth_error l' i = Some v /\
  (forall j, j <> i -> nth_error l' j = nth_error l j) /\
  length l' = length l.
Proof.
  revert i l'. induction l as [|a l IH]; intros [|i] l' H; simpl in H;
    try discriminate.
  - inversion H. subst. repeat split. intros [|j] Hj; [lia|reflexivity].
  - unfold py.bind in H. destruct (py.setitem l i v) as [t|e] eqn:E;
      [|discriminate].
    inversion H. subst. destruct (IH i t E) as (H1 & H2 & H3).
    repeat split; simpl; auto.
    intros [|j] Hj; [reflexivity|]. simpl. apply H2. lia.
Qed.

Lemma setitem_total {A} (l : list A) (i : nat) (v : A) :
  i < length l -> exists l', py.setitem l i v = Ok l'.
Proof.
  revert i. induction l as [|a l IH]; intros [|i] H; simpl in *; try lia.
  - eauto.
  - destruct (IH i) as [t ->]; [lia|]. simpl. eauto.
Qed.

(** ** Finite results: range and overflow *)

Section Rounding.

Context {ar : Arithmetic}.

Local Open Scope float_scope.

Lemma small_zero : (Rabs 0 <= IZR (2 ^ 127))%R.
Proof. rewrite Rabs_R0. apply IZR_le. vm_compute. discriminate. Qed.

(** A result within the range of binary32 is returned as it is. *)
Lemma rnd_small (r : R) : (Rabs r <= IZR (2 ^ 127))%R -> rnd r = Fin r.
Proof. intros H. unfold rnd. rewrite overflows_small by exact H. reflexivity. Qed.

(** A result is returned as it is, or overflows to the infinity of its
    sign. *)
Lemma rnd_cases (r : R) :
  rnd r = Fin r \/ (rnd r = PInf /\ (0 < r)%R) \/ (rnd r = NInf /\ (r < 0)%R).
Proof.
  unfold rnd. destruct (overflows r) eqn:E; [|auto].
  destruct (Rlt_dec 0 r); [auto|]. right. right. split; [reflexivity|].
  destruct (Req_dec r 0) as [->|]; [|lra].
  rewrite overflows_small in E by apply small_zero. discriminate.
Qed.

Lemma rnd_not_nan (r : R) : rnd r <> NaN.
Proof.
  destruct (rnd_cases r) as [H|[[H _]|[H _]]]; rewrite H; discriminate.
Qed.

Lemma rnd_zero : rnd 0 = Fin 0.
Proof. apply rnd_small, small_zero. Qed.

Lemma rnd_Fin (r v : R) : rnd r = Fin v -> v = r.
Proof.
  destruct (rnd_cases r) as [H|[[H _]|[H _]]]; rewrite H; congruence.
Qed.

(** A result no larger in magnitude than one that does not overflow does
    not overflow. *)
Lemma rnd_below (r r' : R) :
  (Rabs r <= Rabs r')%R -> rnd r' = Fin r' -> rnd r = Fin r.
Proof.
  unfold rnd. intros Hle H.
  destruct (overflows r') eqn:E.
  - destruct (Rlt_dec 0 r'); discriminate.
  - rewrite (overflows_mono _ _ Hle E). reflexivity.
Qed.

(** A non-negative result is a non-negative real or plus infinity. *)
Lemma rnd_nonneg (r : R) :
  (0 <= r)%R -> rnd r = Fin r \/ rnd r = PInf.
Proof.
  intros H. destruct (rnd_cases r) as [E|[[E _]|[_ E]]]; auto. lra.
Qed.

Lemma Rsign_pos (a : R) : (0 < a)%R -> np.Rsign a = Gt.
Proof.
  intros H. unfold np.Rsign.
  destruct (total_order_T a 0) as [[?|?]|?]; try reflexivity; lra.
Qed.

Lemma Rsign_neg (a : R) : (a < 0)%R -> np.Rsign a = Lt.
Proof.
  intros H. unfold np.Rsign.
  destruct (total_order_T a 0) as [[?|?]|?]; try reflexivity; lra.
Qed.

Lemma Rsign_zero : np.Rsign 0 = Eq.
Proof.
  unfold np.Rsign.
  destruct (total_order_T 0 0) as [[?|?]|?]; try reflexivity; lra.
Qed.

Lemma add_rnd (a b : R) : Fin a + Fin b = rnd (a + b).
Proof. reflexivity. Qed.

Lemma subtract_rnd (a b : R) : Fin a - Fin b = rnd (a - b).
Proof. reflexivity. Qed.

Lemma multiply_rnd (a b : R) : Fin a * Fin b = rnd (a * b).
Proof. reflexivity. Qed.

Lemma divide_rnd (a b : R) : b <> 0%R -> Fin a / Fin b = rnd (a / b).
Proof.
  intros Hb. unfold np.divide. destruct (Rtotal_order b 0) as [H|[H|H]].
  - rewrite Rsign_neg by assumption. reflexivity.
  - contradiction.
  - rewrite Rsign_pos by lra. reflexivity.
Qed.

Lemma truediv_Fin (x : float) (b : R) :
  b <> 0%R -> py.truediv x (Fin b) = Ok (x / Fin b).
Proof.
  intros Hb. unfold py.truediv, np.equal.
  destruct (Req_dec_T b 0); [contradiction|reflexivity].
Qed.

Lemma truediv_divide (x y : float) :
  (y =? 0%R) = false -> py.truediv x y = Ok (x / y).
Proof. intros E. unfold py.truediv. rewrite E. reflexivity. Qed.

Lemma power_pos_rnd (a b : R) :
  (0 < a)%R -> b <> 0%R -> Fin a ** Fin b = rnd (Rpower a b).
Proof.
  intros Ha Hb. unfold np.power. destruct (Req_dec_T b 0); [contradiction|].
  unfold np.power_fin. rewrite Rsign_pos by assumption. reflexivity.
Qed.

Lemma power_zero_pos (b : R) : (0 < b)%R -> Fin 0 ** Fin b = Fin 0.
Proof.
  intros Hb. unfold np.power. destruct (Req_dec_T b 0); [lra|].
  unfold np.power_fin. rewrite Rsign_zero.
  destruct (Rlt_dec 0 b); [reflexivity|contradiction].
Qed.

Lemma power_PInf_neg (b : R) : (b < 0)%R -> PInf ** Fin b = Fin 0.
Proof.
  intros Hb. unfold np.power. destruct (Req_dec_T b 0); [lra|].
  destruct (Rlt_dec b 0); [reflexivity|lra].
Qed.

Lemma fmax_Fin (a b : R) : np.fmax (Fin a) (Fin b) = Fin (Rmax a b).
Proof.
  unfold np.fmax, np.less, Rmax.
  destruct (Rlt_dec a b), (Rle_dec a b); try reflexivity; try lra.
  f_equal. lra.
Qed.

Lemma minimum_Fin (a b : R) : np.minimum (Fin a) (Fin b) = Fin (Rmin a b).
Proof.
  unfold np.minimum, np.less, Rmin.
  destruct (Rlt_dec b a), (Rle_dec a b); try reflexivity; lra.
Qed.

(** The floored composite good is a positive real or plus infinity,
    whatever the composite good is. *)
Lemma fmax_floor (q : float) (m : R) :
  np.fmax q (Fin m) = PInf \/
  exists v : R, np.fmax q (Fin m) = Fin v /\ (m <= v)%R.
Proof.
  destruct q as [| | |a].
  - right. exists m. split; [reflexivity|lra].
  - right. exists m. split; [reflexivity|lra].
  - left. reflexivity.
  - right. rewrite fmax_Fin. eexists. split; [reflexivity|apply Rmax_r].
Qed.

(** The difference of a float and 1 is zero only for 1. *)
Lemma sub_one_zero (s : float) : (s - 1%R =? 0%R) = true -> (s =? 1%R) = true.
Proof.
  destruct s as [| | |a]; try discriminate.
  rewrite subtract_rnd. intros H.
  destruct (rnd_cases (a - 1)) as [E|[[E _]|[E _]]]; rewrite E in H;
    try discriminate.
  unfold np.equal in *.
  destruct (Req_dec_T (a - 1) 0); [|discriminate].
  destruct (Req_dec_T a 1); [reflexivity|lra].
Qed.

End Rounding.

(** ** Evaluating float operations in exact arithmetic *)

Section ExactEvaluation.

#[local] Existing Instance exact_arithmetic.

Local Open Scope float_scope.

Lemma rnd_exact (r : R) : rnd r = Fin r.
Proof. reflexivity. Qed.

Lemma divide_Fin (a b : R) : b <> 0%R -> Fin a / Fin b = Fin (a / b).
Proof. intros Hb. rewrite divide_rnd by exact Hb. reflexivity. Qed.

Lemma power_pos (a b : R) :
  (0 < a)%R -> b <> 0%R -> Fin a ** Fin b = Fin (Rpower a b).
Proof. intros Ha Hb. rewrite power_pos_rnd by assumption. reflexivity. Qed.

(** A finite factor distributes over a sum, special values included. *)
Lemma multiply_add_distr (n : R) (a b : float) :
  Fin n * (a + b) = Fin n * a + Fin n * b.
Proof.
  destruct a as [| | |a], b as [| | |b]; cbn; try reflexivity;
    unfold np.Rsign; destruct (total_order_T n 0) as [[?|?]|?]; cbn;
    try reflexivity.
  all: f_equal; ring.
Qed.

End ExactEvaluation.

(** ** What a computation keeps *)

Section Preservation.

Context {S : Type}.
Implicit Types P : S -> Prop.

Lemma preserves_ret {T} P (a : T) : preserves P (ret a).
Proof. intros s H. exact H. Qed.

Lemma preserves_raise {T} P (e : exn) : preserves P (@raise S T e).
Proof. intros s H. exact H. Qed.

Lemma preserves_lift {T} P (r : result T) : preserves P (lift r).
Proof. intros s H. exact H. Qed.

Lemma preserves_gets {T} P (f : S -> T) : preserves P (gets f).
Proof. intros s H. exact H. Qed.

Lemma preserves_modify P (f : S -> S) :
  (forall s, P s -> P (f s)) -> preserves P (modify f).
Proof. intros H s Hs. apply H, Hs. Qed.

Lemma preserves_bind {T U} P (c : M S T) (k : T -> M S U) :
  preserves P c -> (forall a, preserves P (k a)) -> preserves P (bind c k).
Proof.
  intros Hc Hk s Hs. unfold bind.
  specialize (Hc s Hs). destruct (c s) as [[a|e] s']; simpl in *.
  - apply Hk, Hc.
  - exact Hc.
Qed.

Lemma preserves_for {T} P (l : list T) (body : T -> M S unit) :
  (forall a, preserves P (body a)) -> preserves P (for_ l body).
Proof.
  intros Hb. induction l as [|a l IH]; simpl.
  - apply preserves_ret.
  - apply preserves_bind; [apply Hb | intros _; exact IH].
Qed.

Lemma read_only_preserves {T} P (c : M S T) : read_only c -> preserves P c.
Proof. intros H s Hs. rewrite H. exact Hs. Qed.

Lemma preserves_read_only {T} (c : M S T) :
  (forall s0, preserves (fun s => s = s0) c) -> read_only c.
Proof. intros H s. apply (H s). reflexivity. Qed.

(** The optimizer touches the object through the objective only. *)
Lemma preserves_minimize {MIN : optimize.Minimize} P
      (f : list float -> M S float) x0 meth bounds constraints tol :
  (forall v, preserves P (f v)) ->
  preserves P (optimize.minimize f x0 meth bounds constraints tol).
Proof.
  intros Hf s Hs.
  assert (Hpar := optimize.minimize_parametric
                    (fun s1 s2 : S => s1 = s2 /\ P s1) f f
                    x0 meth bounds constraints tol).
  destruct (Hpar) with (s1 := s) (s2 := s) as [_ [_ H]];
    [ intros v s1 s2 [-> H2]; repeat split; apply Hf, H2
    | split; [reflexivity|exact Hs]
    | exact H ].
Qed.

(** A successful [bind] went through both of its steps. *)
Lemma bind_Ok {T U} (c : M S T) (k : T -> M S U) (s s' : S) (v : U) :
  bind c k s = (Ok v, s') <->
  exists a s1, c s = (Ok a, s1) /\ k a s1 = (Ok v, s').
Proof.
  unfold bind. split.
  - destruct (c s) as [[a|e] s1]; [eauto|discriminate].
  - intros (a & s1 & -> & H). exact H.
Qed.

End Preservation.

Ltac keep_step :=
  lazymatch goal with
  | |- preserves _ (bind _ _) => apply preserves_bind; [|intros ?]
  | |- preserves _ (ret _) => apply preserves_ret
  | |- preserves _ (raise _) => apply preserves_raise
  | |- preserves _ (lift _) => apply preserves_lift
  | |- preserves _ (gets _) => apply preserves_gets
  | |- preserves _ (modify _) => apply preserves_modify
  | |- preserves _ (for_ _ _) => apply preserves_for; intros ?
  | |- preserves _ (optimize.minimize _ _ _ _ _ _) =>
      apply preserves_minimize; intros ?
  | |- preserves _ (fun s => lift _ s) => intros ? ?; assumption
  | |- preserves _ (if ?b then _ else _) => destruct b
  end.

Ltac keep := repeat keep_step.

Lemma lift_Ok {S T} (r : result T) (s s' : S) (a : T) :
  lift r s = (Ok a, s') <-> r = Ok a /\ s' = s.
Proof.
  unfold lift. split.
  - intros H. inversion H. auto.
  - intros [-> ->]. reflexivity.
Qed.

Lemma modify_Ok {S} (f : S -> S) (s s' : S) (u : unit) :
  modify f s = (Ok u, s') <-> s' = f s.
Proof.
  unfold modify. destruct u. split.
  - intros H. inversion H. reflexivity.
  - intros ->. reflexivity.
Qed.

Lemma gets_Ok {S T} (f : S -> T) (s s' : S) (a : T) :
  gets f s = (Ok a, s') <-> a = f s /\ s' = s.
Proof.
  unfold gets. split.
  - intros H. inversion H. auto.
  - intros [-> ->]. reflexivity.
Qed.

Lemma ret_Ok {S T} (a b : T) (s s' : S) :
  ret a s = (Ok b, s') <-> b = a /\ s' = s.
Proof.
  unfold ret. split.
  - intros H. inversion H. auto.
  - intros [-> ->]. reflexivity.
Qed.

Lemma getitem_Ok_iff {T} (a : list T) (i : nat) (v : T) :
  py.getitem a i = Ok v <-> nth_error a i = Some v.
Proof.
  unfold py.getitem. destruct (nth_error a i); split; congruence.
Qed.

(** A loop over [range(n)] that runs to its end establishes an invariant
    indexed by the number of iterations done. *)
Lemma for_range_invariant {S} (body : nat -> M S unit)
      (Inv : nat -> S -> Prop) (s0 : S) :
  Inv 0 s0 ->
  (forall k s s', Inv k s -> body k s = (Ok tt, s') -> Inv (Datatypes.S k) s') ->
  forall n s, for_ (range n) body s0 = (Ok tt, s) -> Inv n s.
Proof.
  intros H0 Hstep. unfold range. induction n as [|n IH]; intros s Hrun.
  - simpl in Hrun. inversion Hrun. subst. exact H0.
  - rewrite seq_S, for_app in Hrun. simpl plus in Hrun.
    destruct (for_ (seq 0 n) body s0) as [[[]|e] s1]; [|discriminate].
    simpl in Hrun. unfold bind, ret in Hrun.
    destruct (body n s1) as [[[]|e] s2] eqn:Hb; [|discriminate].
    inversion Hrun. subst. eapply Hstep; [apply IH; reflexivity|exact Hb].
Qed.

(** A loop over [range(n)] runs to its end when each iteration does, under
    an invariant. *)
Lemma for_range_total {S} (body : nat -> M S unit) (Inv : S -> Prop)
      (n : nat) (s0 : S) :
  Inv s0 ->
  (forall k s, k < n -> Inv s ->
     exists s', body k s = (Ok tt, s') /\ Inv s') ->
  exists s, for_ (range n) body s0 = (Ok tt, s) /\ Inv s.
Proof.
  intros H0. unfold range. induction n as [|n IH]; intros Hbody.
  - exists s0. split; [reflexivity|exact H0].
  - destruct IH as (s1 & Hrun & H1).
    { intros k s Hk. apply Hbody. lia. }
    destruct (Hbody n s1) as (s2 & Hb & H2); [lia|exact H1|].
    exists s2. split; [|exact H2].
    rewrite seq_S, for_app, Hrun. simpl. unfold bind. rewrite Hb.
    reflexivity.
Qed.

(** ** Least squares on two columns *)

Section LeastSquares.

Local Open Scope R_scope.

Lemma sum_by_nonneg {T} (f : T -> R) (l : list T) :
  (forall t, 0 <= f t) -> 0 <= linalg.sum_by f l.
Proof.
  intros Hf. induction l as [|t l IH]; simpl; [lra|].
  specialize (Hf t). lra.
Qed.

Lemma sum_by_combine_fst {T U} (f : T -> R) (l : list T) (m : list U) :
  length l = length m ->
  linalg.sum_by (fun t => f (fst t)) (combine l m) = linalg.sum_by f l.
Proof.
  revert m. induction l as [|a l IH]; intros [|b m] H; simpl in *;
    try reflexivity; try discriminate.
  rewrite IH by lia. reflexivity.
Qed.

(** The residual sum of squares as a polynomial in the coefficients. *)
Lemma sse_expand (rows : list (R * R)) (y : list R) (c0 c1 : R) :
  let d := combine rows y in
  linalg.sse rows y c0 c1 =
  linalg.sum_by (fun t => snd t * snd t) d
  - 2 * c0 * linalg.sum_by (fun t => fst (fst t) * snd t) d
  - 2 * c1 * linalg.sum_by (fun t => snd (fst t) * snd t) d
  + c0 * c0 * linalg.sum_by (fun t => fst (fst t) * fst (fst t)) d
  + 2 * c0 * c1 * linalg.sum_by (fun t => fst (fst t) * snd (fst t)) d
  + c1 * c1 * linalg.sum_by (fun t => snd (fst t) * snd (fst t)) d.
Proof.
  unfold linalg.sse. simpl. induction (combine rows y) as [|[[a b] yi] d IH];
    simpl.
  - ring.
  - rewrite IH. ring.
Qed.

(** The quadratic form of the Gram matrix is a sum of squares. *)
Lemma gram_form_nonneg (d : list (R * R * R)) (e0 e1 : R) :
  0 <= e0 * e0 * linalg.sum_by (fun t => fst (fst t) * fst (fst t)) d
       + 2 * e0 * e1 * linalg.sum_by (fun t => fst (fst t) * snd (fst t)) d
       + e1 * e1 * linalg.sum_by (fun t => snd (fst t) * snd (fst t)) d.
Proof.
  replace (e0 * e0 * linalg.sum_by (fun t => fst (fst t) * fst (fst t)) d
           + 2 * e0 * e1 * linalg.sum_by (fun t => fst (fst t) * snd (fst t)) d
           + e1 * e1 * linalg.sum_by (fun t => snd (fst t) * snd (fst t)) d)
    with (linalg.sum_by
            (fun t => (e0 * fst (fst t) + e1 * snd (fst t))
                      * (e0 * fst (fst t) + e1 * snd (fst t))) d).
  - apply sum_by_nonneg. intros t. apply Rle_0_sqr.
  - induction d as [|[[a b] yi] d IH]; simpl; [ring|]. rewrite IH. ring.
Qed.

Lemma map_row_pair_float_rows (rows : list (R * R)) :
  map row_pair (linalg.float_rows rows) = rows.
Proof.
  unfold linalg.float_rows.
  induction rows as [|[a b] rows IH]; simpl; [reflexivity|].
  f_equal. exact IH.
Qed.

Lemma map_to_R_Fin (y : list R) : map to_R (map Fin y) = y.
Proof.
  induction y as [|a y IH]; simpl; [reflexivity|].
  f_equal. exact IH.
Qed.

(** The normal equations give a minimiser when the Gram determinant is not
    zero. *)
Lemma lstsq_normal_equations_least_squares (rows : list (R * R)) (y : list R) :
  length rows = length y ->
  linalg.gram_det rows <> 0 ->
  exists b0 b1 : R,
    lstsq_normal_equations (linalg.float_rows rows) (map Fin y)
    = [Fin b0; Fin b1] /\
    forall c0 c1 : R, linalg.sse rows y b0 b1 <= linalg.sse rows y c0 c1.
Proof.
  intros Hlen Hdet. unfold lstsq_normal_equations.
  rewrite map_row_pair_float_rows, map_to_R_Fin.
  eexists. eexists. split; [reflexivity|].
  intros c0 c1. rewrite !sse_expand. cbv zeta.
  unfold linalg.gram_det in Hdet.
  rewrite <- (sum_by_combine_fst (fun r => fst r * fst r) rows y Hlen) in *.
  rewrite <- (sum_by_combine_fst (fun r => fst r * snd r) rows y Hlen) in *.
  rewrite <- (sum_by_combine_fst (fun r => snd r * snd r) rows y Hlen) in *.
  set (d := combine rows y) in *.
  set (Saa := linalg.sum_by (fun t => fst (fst t) * fst (fst t)) d) in *.
  set (Sab := linalg.sum_by (fun t => fst (fst t) * snd (fst t)) d) in *.
  set (Sbb := linalg.sum_by (fun t => snd (fst t) * snd (fst t)) d) in *.
  set (Say := linalg.sum_by (fun t => fst (fst t) * snd t) d).
  set (Sby := linalg.sum_by (fun t => snd (fst t) * snd t) d).
  set (Syy := linalg.sum_by (fun t => snd t * snd t) d).
  set (b0 := (Sbb * Say - Sab * Sby) / (Saa * Sbb - Sab * Sab)).
  set (b1 := (Saa * Sby - Sab * Say) / (Saa * Sbb - Sab * Sab)).
  assert (N0 : b0 * Saa + b1 * Sab = Say) by (unfold b0, b1; field; exact Hdet).
  assert (N1 : b0 * Sab + b1 * Sbb = Sby) by (unfold b0, b1; field; exact Hdet).
  pose proof (gram_form_nonneg d (c0 - b0) (c1 - b1)) as Hq.
  fold Saa Sab Sbb in Hq.
  rewrite <- N0, <- N1. nra.
Qed.

End LeastSquares.

(** ** The reference implementations meet the contracts *)

Lemma minimize_once_parametric
      (S1 S2 : Type) (rel : S1 -> S2 -> Prop)
      (f1 : list float -> M S1 float) (f2 : list float -> M S2 float)
      (x0 : list float) (meth : optimize.method)
      (bounds : list (float * float))
      (constraints : list optimize.constraint) (tol : option float) :
  (forall v s1 s2, rel s1 s2 ->
     fst (f1 v s1) = fst (f2 v s2) /\ rel (snd (f1 v s1)) (snd (f2 v s2))) ->
  forall s1 s2, rel s1 s2 ->
    fst (minimize_once f1 x0 meth bounds constraints tol s1) =
    fst (minimize_once f2 x0 meth bounds constraints tol s2) /\
    rel (snd (minimize_once f1 x0 meth bounds constraints tol s1))
        (snd (minimize_once f2 x0 meth bounds constraints tol s2)).
Proof.
  intros Hf s1 s2 Hrel. unfold minimize_once, bind, ret.
  destruct (Hf x0 s1 s2 Hrel) as [Hv Hs].
  destruct (f1 x0 s1) as [[a1|e1] t1], (f2 x0 s2) as [[a2|e2] t2];
    simpl in *; try discriminate; split; congruence || assumption.
Qed.

Definition reference_minimize : optimize.Minimize :=
  {| optimize.minimize := minimize_once;
     optimize.minimize_parametric := minimize_once_parametric |}.

Definition reference_lstsq : linalg.Lstsq :=
  {| linalg.lstsq := lstsq_normal_equations;
     linalg.lstsq_least_squares := lstsq_normal_equations_least_squares |}.

(** The range of binary64 is an [Arithmetic]. *)
Lemma binary64_overflows_small (r : R) :
  (Rabs r <= IZR (2 ^ 127))%R -> binary64_overflows r = false.
Proof.
  intros H. unfold binary64_overflows.
  destruct (Rlt_dec max_float (Rabs r)) as [Hlt|]; [|reflexivity].
  exfalso. unfold max_float in Hlt.
  assert (IZR (2 ^ 127) <= IZR (2 ^ 1024 - 2 ^ 971))%R
    by (apply IZR_le; vm_compute; discriminate).
  lra.
Qed.

Lemma binary64_overflows_mono (r r' : R) :
  (Rabs r <= Rabs r')%R ->
  binary64_overflows r' = false -> binary64_overflows r = false.
Proof.
  unfold binary64_overflows. intros H.
  destruct (Rlt_dec max_float (Rabs r')), (Rlt_dec max_float (Rabs r));
    try reflexivity; try discriminate.
  intros _. lra.
Qed.

Definition binary64_range : Arithmetic :=
  {| overflows := binary64_overflows;
     overflows_small := binary64_overflows_small;
     overflows_mono := binary64_overflows_mono |}.

(** ** [calc_utility] *)

Section CalcUtility.

Context {ar : Arithmetic}.

Local Open Scope float_scope.

(** The home-production block never raises: its divisions are guarded by
    the two tests on [sigma].  It hands back [HM] and [HF] as they are in
    the first two branches and floored in the last. *)
Lemma home_production_total (par : A.Par) (HM HF : float) :
  exists H,
    A.home_production par HM HF
    = Ok (H, floored_hours (A.sigma par) HM, floored_hours (A.sigma par) HF).
Proof.
  unfold A.home_production, floored_hours.
  destruct (A.sigma par =? 0%R) eqn:E0; [eauto|].
  destruct (A.sigma par =? 1%R) eqn:E1; [eauto|].
  unfold py.truediv. rewrite E0.
  destruct (A.sigma par - 1%R =? 0%R) eqn:E2.
  - apply sub_one_zero in E2. congruence.
  - simpl. eauto.
Qed.

Lemma floored_hours_Fin (sigma : float) (h : R) :
  floored_hours sigma (Fin h) = hours_spec sigma h.
Proof.
  unfold floored_hours, hours_spec.
  destruct (sigma =? 0%R); [reflexivity|].
  destruct (sigma =? 1%R); [reflexivity|]. apply fmax_Fin.
Qed.

(** Floored or not, hours of [0, 24] stay in [0, 24]. *)
Lemma hours_spec_range (sigma : float) (h : R) :
  (0 <= h <= 24)%R ->
  exists h' : R, hours_spec sigma h = Fin h' /\ (h <= h' <= 24)%R.
Proof.
  intros Hh. unfold hours_spec.
  destruct (sigma =? 0%R); [exists h; split; [reflexivity|lra]|].
  destruct (sigma =? 1%R); [exists h; split; [reflexivity|lra]|].
  exists (Rmax h 1e-7). split; [reflexivity|].
  split; [apply Rmax_l|]. apply Rmax_lub; lra.
Qed.

Lemma disutility_total (par : A.Par) (LM HM LF HF : float) :
  (A.epsilon par =? 0%R) = false ->
  exists d, A.disutility par LM HM LF HF = Ok d.
Proof.
  intros E. unfold A.disutility, py.truediv. rewrite E. simpl. eauto.
Qed.

Lemma disutility_raises (par : A.Par) (LM HM LF HF : float) :
  (A.epsilon par =? 0%R) = true ->
  A.disutility par LM HM LF HF = Raise ZeroDivisionError.
Proof.
  intros E. unfold A.disutility, py.truediv. rewrite E. reflexivity.
Qed.

(** The value of [calc_utility]: consumption utility minus the disutility of
    the hours the home-production block hands back. *)
Lemma utility_value (par : A.Par) (LM HM LF HF : float) :
  exists H,
    A.home_production par HM HF
    = Ok (H, floored_hours (A.sigma par) HM, floored_hours (A.sigma par) HF) /\
    A.utility par LM HM LF HF
    = py.bind (A.disutility par LM (floored_hours (A.sigma par) HM)
                            LF (floored_hours (A.sigma par) HF))
        (fun d =>
           Ok (A.consumption_utility par (A.wM par * LM + A.wF par * LF) H
               - d)).
Proof.
  destruct (home_production_total par HM HF) as [H EH].
  exists H. split; [exact EH|]. unfold A.utility. rewrite EH. reflexivity.
Qed.

Lemma utility_total (par : A.Par) (LM HM LF HF : float) :
  (A.epsilon par =? 0%R) = false ->
  exists u, A.utility par LM HM LF HF = Ok u.
Proof.
  intros E. destruct (utility_value par LM HM LF HF) as (H & _ & ->).
  destruct (disutility_total par LM (floored_hours (A.sigma par) HM)
              LF (floored_hours (A.sigma par) HF) E) as [d ->].
  simpl. eauto.
Qed.

Lemma utility_raises (par : A.Par) (LM HM LF HF : float) :
  (A.epsilon par =? 0%R) = true ->
  A.utility par LM HM LF HF = Raise ZeroDivisionError.
Proof.
  intros E. destruct (utility_value par LM HM LF HF) as (H & _ & ->).
  rewrite disutility_raises by exact E. reflexivity.
Qed.

(** One call: the value depends on the parameters only, the object is left
    as it was. *)
Lemma calc_utility_run (LM HM LF HF : float) (self : A.Model) :
  A.calc_utility LM HM LF HF self
  = (A.utility (A.par self) LM HM LF HF, self).
Proof.
  unfold A.calc_utility, A.utility. run.
  destruct (A.home_production (A.par self) HM HF) as [[[H HM'] HF']|e];
    [|reflexivity].
  destruct (A.disutility (A.par self) LM HM' LF HF'); reflexivity.
Qed.

Lemma calc_utility_B_run (LM HM LF HF : float) (self : B.Model) :
  B.calc_utility LM HM LF HF self
  = (B.utility (B.par self) LM HM LF HF, self).
Proof.
  unfold B.calc_utility, B.utility. run.
  destruct (B.home_production (B.par self) HM HF) as [[[H HM'] HF']|e];
    [|reflexivity].
  destruct (B.disutility (B.par self) LM HM' LF HF'); reflexivity.
Qed.

(** The call on four arrays returns the utilities of their entries. *)
Lemma calc_utility_array_utilities (par : A.Par)
      (cs : list (float * float * float * float)) (us : list float) :
  Forall2 (fun t u => utility_at par t = Ok u) cs us ->
  forall self, A.par self = par ->
    A.calc_utility_array
      (map (fun t => let '(a, b, c, d) := t in a) cs)
      (map (fun t => let '(a, b, c, d) := t in b) cs)
      (map (fun t => let '(a, b, c, d) := t in c) cs)
      (map (fun t => let '(a, b, c, d) := t in d) cs) self
    = (Ok us, self).
Proof.
  intros Hall self Hpar.
  induction Hall as [|[[[a b] c] d] u cs us Hu _ IH]; [reflexivity|].
  simpl. unfold bind at 1. rewrite calc_utility_run, Hpar.
  unfold utility_at in Hu. rewrite Hu.
  unfold bind at 1. rewrite IH. reflexivity.
Qed.

(** The call on the ravelled arrays: the utilities are a function of the
    parameters. *)
Lemma calc_utility_array_run (par : A.Par)
      (cs : list (float * float * float * float)) :
  (A.epsilon par =? 0%R) = false ->
  exists us,
    Forall2 (fun t u => utility_at par t = Ok u) cs us /\
    forall self, A.par self = par ->
      A.calc_utility_array
        (map (fun t => let '(a, b, c, d) := t in a) cs)
        (map (fun t => let '(a, b, c, d) := t in b) cs)
        (map (fun t => let '(a, b, c, d) := t in c) cs)
        (map (fun t => let '(a, b, c, d) := t in d) cs) self
      = (Ok us, self).
Proof.
  intros E. induction cs as [|[[[a b] c] d] cs (us & Hall & Hrun)].
  - exists []. split; [constructor|reflexivity].
  - destruct (utility_total par a b c d E) as [u Hu].
    exists (u :: us). split; [constructor; assumption|].
    intros self Hpar. simpl. unfold bind at 1.
    rewrite calc_utility_run, Hpar, Hu.
    unfold bind at 1. rewrite (Hrun self Hpar). reflexivity.
Qed.

(** *** The default preferences

    With the default [rho], [epsilon] and [nu], which no method assigns, no
    intermediate result comes near the end of the range. *)

Lemma rnd_range (r : R) :
  (-1000000000000 <= r <= 1000000000000)%R -> rnd r = Fin r.
Proof.
  intros H. apply rnd_small.
  apply Rle_trans with (r2 := 1000000000000%R).
  - apply Rabs_le. lra.
  - apply IZR_le. vm_compute. discriminate.
Qed.

(** The consumption utility with [rho = 2]: the floor keeps it between
    [-1e8] and [0], whatever [C] and [H] are. *)
Lemma consumption_utility_default (par : A.Par) (C H : float) :
  A.rho par = Fin 2.0 ->
  exists v : R,
    A.consumption_utility par C H = Fin v /\
    (-100000000 <= v <= 0)%R.
Proof.
  intros Hrho. unfold A.consumption_utility. rewrite Hrho.
  rewrite subtract_rnd.
  rewrite (@rnd_range (1 - 2.0)%R) by lra.
  destruct (fmax_floor (C ** A.omega par * H ** (1%R - A.omega par)) 1e-8)
    as [-> | (v & -> & Hv)].
  - rewrite power_PInf_neg by lra. rewrite divide_rnd by lra.
    rewrite rnd_range by lra. eexists. split; [reflexivity|lra].
  - assert (Hpos : (0 < v)%R) by lra.
    rewrite power_pos_rnd by lra.
    assert (Hpow : Rpower v (1 - 2.0) = (/ v)%R).
    { replace (1 - 2.0)%R with (- (1))%R by lra.
      rewrite Rpower_Ropp, Rpower_1 by exact Hpos. reflexivity. }
    rewrite Hpow.
    assert (Hinv : (0 < / v <= 100000000)%R).
    { split; [apply Rinv_0_lt_compat; exact Hpos|].
      replace 100000000%R with (/ 1e-8)%R by lra.
      apply Rinv_le_contravar; lra. }
    rewrite rnd_range by lra. rewrite divide_rnd by lra.
    rewrite rnd_range by (split; unfold Rdiv; nra).
    eexists. split; [reflexivity|]. unfold Rdiv. nra.
Qed.

(** [t ** 2] for a real [t] of [0, 50]. *)
Lemma power_two_small (t e : R) :
  (0 <= t <= 50)%R -> e = 2%R -> Fin t ** Fin e = Fin (t * t).
Proof.
  intros Ht ->. destruct (Req_dec t 0) as [->|Hne].
  - rewrite power_zero_pos by lra. f_equal. ring.
  - rewrite power_pos_rnd by lra.
    replace 2%R with (INR 2) by (simpl; lra).
    rewrite Rpower_pow by lra. simpl pow.
    rewrite rnd_range by nra. f_equal. ring.
Qed.

(** The disutility with [epsilon = 1] and [nu = 0.001] at hours of
    [0, 24 + 1e-7]. *)
Lemma disutility_default (par : A.Par) (LM HM LF HF : R) :
  A.epsilon par = Fin 1.0 -> A.nu par = Fin 0.001 ->
  (0 <= LM <= 24)%R -> (0 <= HM <= 24)%R ->
  (0 <= LF <= 24)%R -> (0 <= HF <= 24)%R ->
  exists d : R,
    A.disutility par (Fin LM) (Fin HM) (Fin LF) (Fin HF) = Ok (Fin d) /\
    (0 <= d <= 10)%R.
Proof.
  intros He Hn HLM HHM HLF HHF. unfold A.disutility.
  rewrite He, Hn, truediv_Fin by lra. rewrite divide_rnd by lra.
  rewrite (@rnd_range (1 / 1.0)%R) by lra. unfold py.bind.
  rewrite !add_rnd.
  rewrite (@rnd_range (1 + 1 / 1.0)%R), (@rnd_range (LM + HM)%R),
    (@rnd_range (LF + HF)%R) by lra.
  rewrite !power_two_small by lra.
  rewrite !divide_rnd by lra.
  rewrite (@rnd_range ((LM + HM) * (LM + HM) / (1 + 1 / 1.0))%R)
    by (split; unfold Rdiv; nra).
  rewrite (@rnd_range ((LF + HF) * (LF + HF) / (1 + 1 / 1.0))%R)
    by (split; unfold Rdiv; nra).
  rewrite add_rnd. rewrite rnd_range by (split; unfold Rdiv; nra).
  rewrite multiply_rnd. rewrite rnd_range by (split; unfold Rdiv; nra).
  eexists. split; [reflexivity|]. split; unfold Rdiv; nra.
Qed.

(** With the default [rho], [epsilon] and [nu], and whatever the other
    parameters are, the utility of a Choice with components in [0, 24] is a
    real number. *)
Lemma utility_default_finite (par : A.Par) (LM HM LF HF : R) :
  A.rho par = Fin 2.0 ->
  A.epsilon par = Fin 1.0 -> A.nu par = Fin 0.001 ->
  (0 <= LM <= 24)%R -> (0 <= HM <= 24)%R ->
  (0 <= LF <= 24)%R -> (0 <= HF <= 24)%R ->
  exists u : R, A.utility par (Fin LM) (Fin HM) (Fin LF) (Fin HF) = Ok (Fin u).
Proof.
  intros Hrho He Hn HLM HHM HLF HHF.
  destruct (utility_value par (Fin LM) (Fin HM) (Fin LF) (Fin HF))
    as (H & _ & ->).
  rewrite !floored_hours_Fin.
  destruct (hours_spec_range (A.sigma par) HHM) as (hm & -> & Hhm).
  destruct (hours_spec_range (A.sigma par) HHF) as (hf & -> & Hhf).
  destruct (@disutility_default par LM hm LF hf He Hn) as (d & -> & Hd);
    try lra.
  destruct (@consumption_utility_default par
              (A.wM par * Fin LM + A.wF par * Fin LF) H Hrho)
    as (v & Hv & Hvr).
  cbn [py.bind]. rewrite Hv, subtract_rnd, rnd_range by lra. eauto.
Qed.

End CalcUtility.

(** ** [solve_discrete] *)

Section SolveDiscrete.

Context {ar : Arithmetic}.

Lemma length_grid : length grid = 49.
Proof. unfold grid, nparray.linspace. rewrite length_map, length_seq. reflexivity. Qed.

Lemma nth_grid (i : nat) :
  i < 49 -> nth i grid NaN = Fin (INR i / 2).
Proof.
  intros Hi. unfold grid, nparray.linspace.
  rewrite nth_map_in_range with (d' := 0%nat)
    by (rewrite length_seq; assumption).
  rewrite seq_nth by assumption.
  f_equal. replace (INR (49 - 1)) with 48%R by (simpl; lra).
  simpl (0 + i)%nat. lra.
Qed.

Lemma in_grid (v : float) :
  In v grid -> exists r : R, v = Fin r /\ (0 <= r <= 24)%R.
Proof.
  intros Hin. destruct (In_nth _ _ NaN Hin) as (i & Hi & <-).
  rewrite length_grid in Hi. rewrite nth_grid by assumption.
  eexists. split; [reflexivity|].
  assert (0 <= INR i)%R by apply pos_INR.
  assert (INR i <= 48)%R.
  { replace 48%R with (INR 48) by (simpl; lra). apply le_INR. lia. }
  lra.
Qed.

Lemma length_grid_cells : length grid_cells = 49 * (49 * (49 * 49)).
Proof. unfold grid_cells. rewrite length_cells, length_grid. reflexivity. Qed.

(** [solve_discrete] runs to its end whenever [1/epsilon] does not raise:
    it returns the combination at the index [np.argmax] finds in the masked
    utilities, and both are functions of the parameters. *)
Lemma solve_discrete_run (par : A.Par) :
  (A.epsilon par =? 0%R)%fl = false ->
  exists us j,
    Forall2 (fun t u => utility_at par t = Ok u) grid_cells us /\
    argmax_of (map2 masked us grid_cells) j /\
    forall do_print self, A.par self = par ->
      A.solve_discrete do_print self
      = (Ok (opt_of (nth j grid_cells (NaN, NaN, NaN, NaN))), self).
Proof.
  intros E.
  destruct (calc_utility_array_run par grid_cells E) as (us & Hall & Hrun).
  assert (Hlen : length (map2 masked us grid_cells) = length grid_cells).
  { rewrite map2_length; apply Forall2_length in Hall; lia. }
  destruct (@argmax_spec (map2 masked us grid_cells)) as (j & Hj & Hspec).
  { intros H. rewrite H in Hlen. rewrite length_grid_cells in Hlen.
    simpl length in Hlen. lia. }
  assert (Hlt : j < length grid_cells)
    by (rewrite <- Hlen; apply argmax_of_lt; assumption).
  exists us, j. split; [assumption|]. split; [assumption|].
  intros do_print self Hpar. specialize (Hrun self Hpar).
  unfold A.solve_discrete, nparray.meshgrid.
  cbv beta iota zeta.
  change (nparray.linspace 0 24 49) with grid.
  rewrite !ravel_grid. fold grid_cells.
  clear Hall Hspec Hlen. revert Hrun Hj Hlt.
  generalize grid_cells. intros cs Hrun Hj Hlt.
  unfold bind at 1. rewrite Hrun.
  rewrite !map2_map_map, !map_map, map2_map_map.
  unfold nparray.mask_assign. rewrite map2_map_r.
  rewrite map2_ext with (g := masked)
    by (intros u [[[a b] c] d]; reflexivity).
  unfold bind at 1, lift at 1. rewrite Hj.
  repeat (unfold bind at 1, lift at 1;
          rewrite getitem_nth with (d := NaN) by (rewrite length_map; exact Hlt);
          rewrite nth_map_in_range with (d' := (NaN, NaN, NaN, NaN)) by exact Hlt).
  unfold ret.
  destruct (nth j cs (NaN, NaN, NaN, NaN)) as [[[a b] c] d].
  reflexivity.
Qed.

(** The utilities [solve_discrete] ranks are those [calc_utility] returns on
    the ravelled arrays. *)
Lemma solve_discrete_utilities (par : A.Par) (us : list float) :
  Forall2 (fun t u => utility_at par t = Ok u) grid_cells us ->
  forall self, A.par self = par ->
    let '(LM, HM, LF, HF) := nparray.meshgrid grid grid grid grid in
    A.calc_utility_array (nparray.ravel LM) (nparray.ravel HM)
                         (nparray.ravel LF) (nparray.ravel HF) self
    = (Ok us, self).
Proof.
  intros Hall self Hpar. unfold nparray.meshgrid.
  rewrite !ravel_grid. fold grid_cells.
  revert Hall. generalize grid_cells. intros cs Hall.
  apply calc_utility_array_utilities with (par := par); assumption.
Qed.

(** The first combination is [(0, 0, 0, 0)]. *)
Lemma nth_grid_cells_0 :
  nth 0 grid_cells (NaN, NaN, NaN, NaN) = (Fin 0, Fin 0, Fin 0, Fin 0).
Proof.
  unfold grid_cells.
  change 0%nat with (0 * (length grid * (length grid * length grid))
                     + (0 * (length grid * length grid)
                        + (0 * length grid + 0)))%nat at 1.
  rewrite nth_cells by (rewrite length_grid; lia).
  rewrite nth_grid by lia. simpl INR.
  replace (0 / 2)%R with 0%R by lra. reflexivity.
Qed.

Lemma not_greater_less_equal (x y : float) :
  x <> NaN -> y <> NaN -> np.greater x y = false -> np.less_equal x y = true.
Proof. float_cases. Qed.

(** A combination of grid points that the mask lets through respects both
    time budgets. *)
Lemma unmasked_feasible (t : float * float * float * float) :
  In t grid_cells -> infeasible t = false -> feasible (opt_of t).
Proof.
  destruct t as [[[a b] c] d]. intros Hin Hmask.
  apply in_cells in Hin. destruct Hin as (Ha & Hb & Hc & Hd).
  apply in_grid in Ha, Hb, Hc, Hd.
  destruct Ha as (ra & -> & _), Hb as (rb & -> & _),
           Hc as (rc & -> & _), Hd as (rd & -> & _).
  unfold infeasible in Hmask. apply orb_false_elim in Hmask.
  destruct Hmask as [HM HF]. unfold feasible.
  cbn [opt_of A.LM A.HM A.LF A.HF]. rewrite add_rnd in *.
  split; apply not_greater_less_equal; try assumption;
    try apply rnd_not_nan; discriminate.
Qed.

Lemma masked_not_NInf (u : float) (t : float * float * float * float) :
  masked u t <> NInf -> infeasible t = false.
Proof. unfold masked. destruct (infeasible t); congruence. Qed.

End SolveDiscrete.

(** ** What the methods of variant A keep *)

Section MethodsA.

Context {ar : Arithmetic}
        {scipy_minimize : optimize.Minimize} {numpy_lstsq : linalg.Lstsq}.

Lemma calc_utility_read_only (LM HM LF HF : float) :
  read_only (A.calc_utility LM HM LF HF).
Proof. intros s. rewrite calc_utility_run. reflexivity. Qed.

Lemma calc_utility_array_read_only (LM HM LF HF : list float) :
  read_only (A.calc_utility_array LM HM LF HF).
Proof.
  revert HM LF HF. induction LM as [|a LM IH]; intros [|b HM] [|c LF] [|d HF];
    try (intros s; reflexivity).
  apply preserves_read_only. intros s0. simpl.
  apply preserves_bind; [apply read_only_preserves, calc_utility_read_only|].
  intros u. apply preserves_bind; [apply read_only_preserves, IH|].
  intros us. apply preserves_ret.
Qed.

Lemma solve_discrete_read_only (do_print : bool) :
  read_only (A.solve_discrete do_print).
Proof.
  apply preserves_read_only. intros s0.
  unfold A.solve_discrete, nparray.meshgrid. cbv beta iota zeta.
  apply preserves_bind;
    [apply read_only_preserves, calc_utility_array_read_only|].
  intros u. keep.
Qed.

Lemma solve_cont_read_only (do_print : bool) :
  read_only (A.solve_cont do_print).
Proof.
  apply preserves_read_only. intros s0. unfold A.solve_cont.
  apply preserves_bind; [|intros res; apply preserves_ret].
  apply preserves_minimize. intros v.
  repeat (apply preserves_bind; [apply preserves_lift|intros ?]).
  apply preserves_bind; [apply read_only_preserves, calc_utility_read_only|].
  intros u. apply preserves_ret.
Qed.

Lemma solve_wF_vec_stable (P : A.Model -> Prop) (discrete : bool) :
  stable P -> preserves P (A.solve_wF_vec discrete).
Proof.
  intros (HwF & _ & _ & HLM & HHM & HLF & HHF & _).
  unfold A.solve_wF_vec. keep; auto.
  - apply read_only_preserves, solve_discrete_read_only.
  - apply read_only_preserves, solve_cont_read_only.
Qed.

Lemma run_regression_stable (P : A.Model -> Prop) :
  stable P -> preserves P A.run_regression.
Proof.
  intros (_ & _ & _ & _ & _ & _ & _ & Hb).
  unfold A.run_regression.
  apply preserves_bind; [apply preserves_gets|]. intros par.
  apply preserves_bind; [apply preserves_gets|]. intros sol.
  destruct (linalg.lstsq _ _) as [|b0 [|b1 [|b2 l]]];
    try apply preserves_raise.
  apply preserves_modify. auto.
Qed.

Lemma est_stable (P : A.Model -> Prop) (x : list float) :
  stable P -> preserves P (A.est x).
Proof.
  intros HP. pose proof HP as (_ & Ha & Hs & _).
  unfold A.est.
  apply preserves_bind; [apply preserves_lift|]. intros x0.
  apply preserves_bind; [apply preserves_modify; auto|]. intros _.
  apply preserves_bind; [apply preserves_lift|]. intros x1.
  apply preserves_bind; [apply preserves_modify; auto|]. intros _.
  apply preserves_bind; [apply solve_wF_vec_stable, HP|]. intros _.
  apply preserves_bind; [apply run_regression_stable, HP|]. intros _.
  keep.
Qed.

Lemma estimate_stable (P : A.Model -> Prop) alpha sigma do_print :
  stable P -> preserves P (A.estimate alpha sigma do_print).
Proof.
  intros HP. unfold A.estimate.
  apply preserves_bind; [|intros res; apply preserves_ret].
  apply preserves_minimize. intros v. apply est_stable, HP.
Qed.

Lemma call_stable (P : A.Model -> Prop) (self self' : A.Model) :
  stable P -> call self self' -> P self -> P self'.
Proof.
  intros HP Hcall Hs. destruct Hcall.
  - rewrite calc_utility_read_only. exact Hs.
  - rewrite solve_discrete_read_only. exact Hs.
  - rewrite solve_cont_read_only. exact Hs.
  - apply solve_wF_vec_stable; assumption.
  - apply run_regression_stable; assumption.
  - apply estimate_stable; assumption.
  - apply est_stable; assumption.
Qed.

Lemma reachable_stable (P : A.Model -> Prop) (self : A.Model) :
  stable P -> P A.init -> reachable self -> P self.
Proof.
  intros HP Hinit Hr. induction Hr as [|self self' _ IH Hcall].
  - exact Hinit.
  - eapply call_stable; eassumption.
Qed.

(** No method assigns [rho], [nu] or [epsilon]: they keep their default
    values. *)
Lemma reachable_defaults (self : A.Model) :
  reachable self ->
  A.rho (A.par self) = Fin 2.0 /\
  A.nu (A.par self) = Fin 0.001 /\
  A.epsilon (A.par self) = Fin 1.0.
Proof.
  apply reachable_stable
    with (P := fun s => A.rho (A.par s) = Fin 2.0 /\
                        A.nu (A.par s) = Fin 0.001 /\
                        A.epsilon (A.par s) = Fin 1.0).
  - unfold stable.
    repeat match goal with |- _ /\ _ => split end;
      intros; match goal with H : _ /\ _ |- _ => exact H end.
  - repeat split.
Qed.

End MethodsA.

(** ** The discrete solver: feasibility and the argmax *)

Section DiscreteClaims.

Context {ar : Arithmetic}
        {scipy_minimize : optimize.Minimize} {numpy_lstsq : linalg.Lstsq}.

Lemma epsilon_one_nonzero (e : float) :
  e = Fin 1.0 -> (e =? 0%R)%fl = false.
Proof. intros ->. unfold np.equal. destruct (Req_dec_T 1.0 0); [lra|reflexivity]. Qed.

Lemma zero_cell_in_grid :
  In (Fin 0, Fin 0, Fin 0, Fin 0) grid_cells.
Proof.
  rewrite <- nth_grid_cells_0. apply nth_In.
  rewrite length_grid_cells. lia.
Qed.

Lemma zero_cell_unmasked : infeasible (Fin 0, Fin 0, Fin 0, Fin 0) = false.
Proof.
  unfold infeasible. rewrite !add_rnd, !rnd_range by lra. clear.
  float_cases.
Qed.

(** The combination at the index [np.argmax] returns on the masked
    utilities is feasible, whatever the utilities are: index 0 is the
    feasible combination [(0, 0, 0, 0)], and any other index is returned only
    for a value above an earlier one, which a masked entry never is. *)
Lemma argmax_masked_feasible (us : list float) (j : nat) :
  length us = length grid_cells ->
  argmax_of (map2 masked us grid_cells) j ->
  feasible (opt_of (nth j grid_cells (NaN, NaN, NaN, NaN))).
Proof.
  intros Hlen Hspec.
  assert (Hlt : j < length grid_cells).
  { apply argmax_of_lt in Hspec. rewrite map2_length in Hspec; lia. }
  apply unmasked_feasible; [apply nth_In, Hlt|].
  destruct (argmax_of_not_NInf Hspec) as [-> | Hne].
  - rewrite nth_grid_cells_0. apply zero_cell_unmasked.
  - rewrite map2_nth with (da := NaN) (db := (NaN, NaN, NaN, NaN)) in Hne
      by lia.
    eapply masked_not_NInf, Hne.
Qed.

(** When [1/epsilon] raises, so does [solve_discrete]. *)
Lemma solve_discrete_raises (do_print : bool) (self : A.Model) :
  (A.epsilon (A.par self) =? 0%R)%fl = true ->
  A.solve_discrete do_print self = (Raise ZeroDivisionError, self).
Proof.
  intros E.
  unfold A.solve_discrete, nparray.meshgrid. cbv beta iota zeta.
  change (nparray.linspace 0 24 49) with grid.
  rewrite !ravel_grid. fold grid_cells.
  pose proof length_grid_cells as Hlen. revert Hlen.
  generalize grid_cells. intros [|[[[a b] c] d] cs] Hlen.
  - simpl length in Hlen. lia.
  - cbn [map A.calc_utility_array]. unfold bind at 1. unfold bind at 1.
    rewrite calc_utility_run.
    rewrite utility_raises by exact E. reflexivity.
Qed.

(** Whatever the parameters, a Choice that [solve_discrete] returns is
    feasible. *)
Lemma solve_discrete_returns_feasible (do_print : bool) (self self' : A.Model)
      (c : A.Opt) :
  A.solve_discrete do_print self = (Ok c, self') -> feasible c.
Proof.
  intros Hret. destruct (A.epsilon (A.par self) =? 0%R)%fl eqn:E.
  - rewrite solve_discrete_raises in Hret by exact E. discriminate.
  - destruct (solve_discrete_run (A.par self) E)
      as (us & j & Hall & Hspec & Hrun).
    assert (Hfeas : feasible (opt_of (nth j grid_cells (NaN, NaN, NaN, NaN)))).
    { apply argmax_masked_feasible with (us := us); [|assumption].
      symmetry. apply (Forall2_length Hall). }
    rewrite (Hrun do_print self eq_refl) in Hret.
    revert Hfeas Hret.
    generalize (opt_of (nth j grid_cells (NaN, NaN, NaN, NaN))).
    intros c0 Hfeas Hret. congruence.
Qed.

(** C1.  For every object reachable from the default construction by calls of
    the methods of the class, [solve_discrete] returns, and the Choice it
    returns satisfies [LM + HM <= 24] and [LF + HF <= 24].  On such an object
    the grid holds a feasible combination, [(0, 0, 0, 0)], whose utility is a
    real number, so above minus infinity. *)
Theorem C1_solve_discrete_feasible (do_print : bool) (self : A.Model) :
  reachable self ->
  (exists c : A.Opt,
     A.solve_discrete do_print self = (Ok c, self) /\ feasible c) /\
  (In (Fin 0, Fin 0, Fin 0, Fin 0) grid_cells /\
   infeasible (Fin 0, Fin 0, Fin 0, Fin 0) = false /\
   exists u0 : R,
     utility_at (A.par self) (Fin 0, Fin 0, Fin 0, Fin 0) = Ok (Fin u0)).
Proof.
  intros Hreach.
  destruct (reachable_defaults Hreach) as (Hrho & Hnu & Heps).
  pose proof (epsilon_one_nonzero Heps) as E.
  split.
  - destruct (solve_discrete_run (A.par self) E) as (us & j & _ & _ & Hrun).
    eexists. split; [apply Hrun; reflexivity|].
    apply solve_discrete_returns_feasible
      with (do_print := do_print) (self := self) (self' := self).
    apply Hrun. reflexivity.
  - split; [apply zero_cell_in_grid|]. split; [apply zero_cell_unmasked|].
    unfold utility_at.
    apply utility_default_finite; try assumption; lra.
Qed.

Lemma Forall2_Forall_r {T U} (R : T -> U -> Prop) (Q : U -> Prop)
      (l : list T) (us : list U) :
  Forall2 R l us -> (forall t u, In t l -> R t u -> Q u) -> Forall Q us.
Proof.
  intros H. induction H as [|t u l us Htu _ IH]; intros HQ; constructor.
  - apply (HQ t u); [left; reflexivity|exact Htu].
  - apply IH. intros t' u' Hin. apply HQ. right. exact Hin.
Qed.

(** With the default [rho], [epsilon] and [nu], every utility on the grid
    is a real number. *)
Lemma grid_utilities_default (par : A.Par) (us : list float) :
  A.rho par = Fin 2.0 ->
  A.epsilon par = Fin 1.0 -> A.nu par = Fin 0.001 ->
  Forall2 (fun t u => utility_at par t = Ok u) grid_cells us ->
  Forall (fun u => exists v : R, u = Fin v) us.
Proof.
  intros Hrho He Hn Hall.
  apply Forall2_Forall_r with (1 := Hall). intros [[[a b] c] d] u Hin Hu.
  apply in_cells in Hin. destruct Hin as (Ha & Hb & Hc & Hd).
  apply in_grid in Ha, Hb, Hc, Hd.
  destruct Ha as (ra & -> & Hra), Hb as (rb & -> & Hrb),
           Hc as (rc & -> & Hrc), Hd as (rd & -> & Hrd).
  unfold utility_at in Hu.
  destruct (@utility_default_finite _ par ra rb rc rd Hrho He Hn)
    as [v Hv]; try assumption.
  exists v. congruence.
Qed.

Lemma finite_not_nan (us : list float) :
  Forall (fun u => exists v : R, u = Fin v) us ->
  Forall (fun u => u <> NaN) us.
Proof.
  apply Forall_impl. intros u [v ->]. discriminate.
Qed.

Lemma masked_not_nan (us : list float)
      (cs : list (float * float * float * float)) :
  Forall (fun u => u <> NaN) us ->
  Forall (fun v => v <> NaN) (map2 masked us cs).
Proof.
  intros H. revert cs. induction H as [|u us Hu _ IH]; intros [|t cs];
    simpl; constructor.
  - unfold masked. destruct (infeasible t); [discriminate|exact Hu].
  - apply IH.
Qed.

Lemma argmax_of_first_max (u : list float) (j : nat) :
  Forall (fun v => v <> NaN) u -> argmax_of u j -> first_max u j.
Proof.
  intros Hnan [[_ H] | (Hlt & Hj & _)]; [exact H|].
  rewrite Forall_forall in Hnan. exfalso.
  apply (Hnan (nth j u NaN)); [apply nth_In, Hlt|exact Hj].
Qed.


End DiscreteClaims.

Section DiscreteWitnesses.

#[local] Existing Instance binary64_range.
#[local] Existing Instance reference_minimize.
#[local] Existing Instance reference_lstsq.

Lemma C1_witness :
  (exists c : A.Opt,
     A.solve_discrete false A.init = (Ok c, A.init) /\ feasible c) /\
  (In (Fin 0, Fin 0, Fin 0, Fin 0) grid_cells /\
   infeasible (Fin 0, Fin 0, Fin 0, Fin 0) = false /\
   exists u0 : R,
     utility_at (A.par A.init) (Fin 0, Fin 0, Fin 0, Fin 0) = Ok (Fin u0)).
Proof.
  exact (C1_solve_discrete_feasible false reachable_init).
Defined.


End DiscreteWitnesses.

(** ** The utility function *)

Section ExactVariants.

#[local] Existing Instance exact_arithmetic.

Local Open Scope float_scope.

(** In exact arithmetic, with [eta] equal to a real [nu], the two variants
    compute one utility. *)
Lemma utility_B_with_eta_nu (pA : A.Par) (n : R) (LM HM LF HF : float) :
  A.nu pA = Fin n ->
  B.utility (with_eta pA (A.nu pA)) LM HM LF HF = A.utility pA LM HM LF HF.
Proof.
  intros Hn. unfold B.utility, A.utility.
  change (B.home_production (with_eta pA (A.nu pA)) HM HF)
    with (A.home_production pA HM HF).
  destruct (A.home_production pA HM HF) as [[[H hM] hF]|e]; [|reflexivity].
  cbn [py.bind]. unfold B.disutility, A.disutility.
  change (B.epsilon (with_eta pA (A.nu pA))) with (A.epsilon pA).
  destruct (py.truediv 1%R (A.epsilon pA)) as [inv|e]; [|reflexivity].
  cbn [py.bind].
  change (B.nu (with_eta pA (A.nu pA))) with (A.nu pA).
  change (B.eta (with_eta pA (A.nu pA))) with (A.nu pA).
  rewrite Hn, multiply_add_distr. reflexivity.
Qed.

End ExactVariants.

Section UtilityClaims.

Context {ar : Arithmetic}.

Local Open Scope float_scope.

Lemma home_production_spec (par : A.Par) (HM HF : R) :
  A.home_production par (Fin HM) (Fin HF)
  = Ok (H_spec (A.sigma par) (A.alpha par) HM HF,
        hours_spec (A.sigma par) HM, hours_spec (A.sigma par) HF).
Proof.
  unfold A.home_production, H_spec, hours_spec.
  destruct (A.sigma par =? 0%R) eqn:E0; [rewrite minimum_Fin; reflexivity|].
  destruct (A.sigma par =? 1%R) eqn:E1; [reflexivity|].
  assert (E2 : (A.sigma par - 1%R =? 0%R) = false).
  { destruct (A.sigma par - 1%R =? 0%R) eqn:E2; [|reflexivity].
    apply sub_one_zero in E2. congruence. }
  rewrite !fmax_Fin. cbv zeta.
  rewrite !truediv_divide by assumption. reflexivity.
Qed.

(** C2.  For all real [HM] and [HF] (those of [0, 24] among them) and all
    parameters, the home production [calc_utility] computes is the
    three-branch rule of the specification: the minimum for [sigma = 0], the
    Cobb-Douglas product for [sigma = 1], and otherwise the CES aggregate of
    [HM] and [HF] floored at [1e-7].  This is the [H] that enters the value
    [calc_utility] returns; in the last branch the floor stays on [HM] and
    [HF], so that the disutility is that of the floored hours.  For
    [sigma = 0], [HM = 3], [HF = 7] the home production is 3 whatever [alpha]
    and the other parameters are. *)
Theorem C2_home_production_three_branches
        (par : A.Par) (LM HM LF HF : R) (self : A.Model) :
  A.home_production par (Fin HM) (Fin HF)
  = Ok (H_spec (A.sigma par) (A.alpha par) HM HF,
        hours_spec (A.sigma par) HM, hours_spec (A.sigma par) HF) /\
  A.calc_utility (Fin LM) (Fin HM) (Fin LF) (Fin HF) self
  = (py.bind (A.disutility (A.par self)
                (Fin LM) (hours_spec (A.sigma (A.par self)) HM)
                (Fin LF) (hours_spec (A.sigma (A.par self)) HF))
       (fun d =>
          Ok (A.consumption_utility (A.par self)
                (A.wM (A.par self) * Fin LM + A.wF (A.par self) * Fin LF)
                (H_spec (A.sigma (A.par self)) (A.alpha (A.par self)) HM HF)
              - d)),
     self) /\
  A.home_production
    (A.mkPar (A.rho par) (A.nu par) (A.epsilon par) (A.omega par)
             (A.alpha par) (Fin 0) (A.wM par) (A.wF par) (A.wF_vec par)
             (A.beta0_target par) (A.beta1_target par))
    (Fin 3) (Fin 7)
  = Ok (Fin 3, Fin 3, Fin 7).
Proof.
  split; [apply home_production_spec|]. split.
  - rewrite calc_utility_run. unfold A.utility.
    rewrite home_production_spec. reflexivity.
  - rewrite home_production_spec. unfold H_spec, hours_spec. simpl A.sigma.
    replace (Fin 0 =? 0%R) with true
      by (unfold np.equal; destruct (Req_dec_T 0 0); [reflexivity|lra]).
    do 3 f_equal. unfold Rmin. destruct (Rle_dec 3 7); [reflexivity|lra].
Qed.

(** C9.  A call of [calc_utility] leaves the object (parameters and
    solution vectors) as it was, a second call with the same arguments returns
    what the first returned, and the value returned is the same on every
    object that has the same parameters. *)
Theorem C9_calc_utility_pure (LM HM LF HF : float) (self : A.Model) :
  snd (A.calc_utility LM HM LF HF self) = self /\
  fst (A.calc_utility LM HM LF HF (snd (A.calc_utility LM HM LF HF self)))
  = fst (A.calc_utility LM HM LF HF self) /\
  forall self' : A.Model,
    A.par self' = A.par self ->
    fst (A.calc_utility LM HM LF HF self')
    = fst (A.calc_utility LM HM LF HF self).
Proof.
  rewrite !calc_utility_run. simpl. repeat split.
  intros self' Hpar. rewrite calc_utility_run, Hpar. reflexivity.
Qed.

(** *** The floor on the composite good *)

Lemma in_range_rnd (r : R) : in_range r -> rnd r = Fin r.
Proof. unfold in_range, rnd. intros ->. reflexivity. Qed.

Lemma overflows_rnd (r : R) :
  (0 < r)%R -> overflows r = true -> rnd r = PInf.
Proof.
  unfold rnd. intros Hr ->. destruct (Rlt_dec 0 r); [reflexivity|lra].
Qed.

Lemma in_range_below (r r' : R) :
  (Rabs r <= Rabs r')%R -> in_range r' -> in_range r.
Proof. unfold in_range. apply overflows_mono. Qed.

(** For a negative exponent the power is largest at the floor. *)
Lemma Rpower_floor (v b : R) :
  (1e-8 <= v)%R -> (b < 0)%R ->
  (0 < Rpower v b <= Rpower 1e-8 b)%R.
Proof.
  intros Hv Hb. split; [apply exp_pos|].
  unfold Rpower. destruct Hv as [Hv| <-]; [|lra].
  left. apply exp_increasing.
  assert (ln 1e-8 < ln v)%R by (apply ln_increasing; lra).
  nra.
Qed.

(** With a real [rho > 1], the consumption utility is a real number for
    every [C] and [H] as soon as the term at the floor is in range. *)
Lemma core_spec_finite (omega C H : float) (r : R) :
  (1 < r)%R ->
  in_range (1 - r) ->
  in_range (Rpower 1e-8 (1 - r)) ->
  in_range (Rpower 1e-8 (1 - r) / (1 - r)) ->
  exists v : R, core_spec omega (Fin r) C H = Fin v.
Proof.
  intros Hr H1 H2 H3. unfold core_spec. cbv zeta.
  rewrite subtract_rnd, (in_range_rnd H1).
  destruct (fmax_floor (C ** omega * H ** (1%R - omega)) 1e-8)
    as [-> | (v & -> & Hv)].
  - rewrite power_PInf_neg by lra. rewrite divide_rnd by lra.
    replace (0 / (1 - r))%R with 0%R by (field; lra).
    rewrite rnd_zero. eauto.
  - destruct (@Rpower_floor v (1 - r) Hv) as [Hp0 Hp1]; [lra|].
    assert (Hq0 : (0 < Rpower 1e-8 (1 - r))%R) by apply exp_pos.
    rewrite power_pos_rnd by lra.
    assert (R1 : in_range (Rpower v (1 - r))).
    { apply in_range_below with (2 := H2).
      rewrite !Rabs_pos_eq by lra. exact Hp1. }
    rewrite (in_range_rnd R1). rewrite divide_rnd by lra.
    assert (R2 : in_range (Rpower v (1 - r) / (1 - r))).
    { apply in_range_below with (2 := H3).
      unfold Rdiv. rewrite !Rabs_mult.
      apply Rmult_le_compat_r; [apply Rabs_pos|].
      rewrite !Rabs_pos_eq by lra. exact Hp1. }
    rewrite (in_range_rnd R2). eauto.
Qed.

(** When the power at the floor overflows, the consumption utility at the
    floor is minus infinity. *)
Lemma core_spec_overflow (omega C H : float) (r : R) :
  (1 < r)%R ->
  in_range (1 - r) ->
  overflows (Rpower 1e-8 (1 - r)) = true ->
  np.fmax (C ** omega * H ** (1%R - omega)) 1e-8%R = Fin 1e-8 ->
  core_spec omega (Fin r) C H = NInf.
Proof.
  intros Hr H1 H2 HQ. unfold core_spec. cbv zeta.
  rewrite subtract_rnd, (in_range_rnd H1), HQ.
  rewrite power_pos_rnd by lra.
  rewrite overflows_rnd by (apply exp_pos || exact H2).
  unfold np.divide, np.sign. rewrite Rsign_neg by lra. reflexivity.
Qed.


(** *** The disutility of work *)

(** The disutility with [epsilon = 1] and a real [nu] of moderate size, at
    moderate hours. *)
Lemma disutility_value (par : A.Par) (n LM HM LF HF : R) :
  A.epsilon par = Fin 1.0 -> A.nu par = Fin n ->
  (-1000 <= n <= 1000)%R ->
  (0 <= LM <= 24)%R -> (0 <= HM <= 24)%R ->
  (0 <= LF <= 24)%R -> (0 <= HF <= 24)%R ->
  A.disutility par (Fin LM) (Fin HM) (Fin LF) (Fin HF)
  = Ok (Fin (n * ((LM + HM) * (LM + HM) / (1 + 1 / 1.0)
                  + (LF + HF) * (LF + HF) / (1 + 1 / 1.0)))) /\
  disutility_A_spec (A.nu par) (A.epsilon par) (Fin LM + Fin HM)
                    (Fin LF + Fin HF)
  = Fin (n * ((LM + HM) * (LM + HM) / (1 + 1 / 1.0)
              + (LF + HF) * (LF + HF) / (1 + 1 / 1.0))).
Proof.
  intros He Hn Hnr HLM HHM HLF HHF.
  assert (Hspec : disutility_A_spec (A.nu par) (A.epsilon par)
                    (Fin LM + Fin HM) (Fin LF + Fin HF)
                  = Fin (n * ((LM + HM) * (LM + HM) / (1 + 1 / 1.0)
                              + (LF + HF) * (LF + HF) / (1 + 1 / 1.0)))).
  { unfold disutility_A_spec, e_spec. cbv zeta. rewrite He, Hn.
    rewrite divide_rnd by lra.
    rewrite (@rnd_range _ (1 / 1.0)%R) by lra.
    rewrite !add_rnd.
    rewrite (@rnd_range _ (1 + 1 / 1.0)%R), (@rnd_range _ (LM + HM)%R),
      (@rnd_range _ (LF + HF)%R) by lra.
    rewrite !power_two_small by lra.
    rewrite !divide_rnd by lra.
    rewrite (@rnd_range _ ((LM + HM) * (LM + HM) / (1 + 1 / 1.0))%R)
      by (split; unfold Rdiv; nra).
    rewrite (@rnd_range _ ((LF + HF) * (LF + HF) / (1 + 1 / 1.0))%R)
      by (split; unfold Rdiv; nra).
    rewrite add_rnd.
    assert (HS : (0 <= (LM + HM) * (LM + HM) / (1 + 1 / 1.0)
                       + (LF + HF) * (LF + HF) / (1 + 1 / 1.0) <= 5000)%R)
      by (split; unfold Rdiv; nra).
    revert HS.
    generalize ((LM + HM) * (LM + HM) / (1 + 1 / 1.0)
                + (LF + HF) * (LF + HF) / (1 + 1 / 1.0))%R.
    intros S HS. rewrite rnd_range by lra.
    rewrite multiply_rnd. rewrite rnd_range by (split; nra).
    reflexivity. }
  split; [|exact Hspec].
  rewrite <- Hspec. unfold A.disutility, disutility_A_spec, e_spec.
  rewrite truediv_divide; [reflexivity|].
  rewrite He. unfold np.equal. destruct (Req_dec_T 1.0 0); [lra|reflexivity].
Qed.

Lemma floored_hours_first_branches (sigma h : float) :
  (sigma =? 0%R) = true \/ (sigma =? 1%R) = true ->
  floored_hours sigma h = h.
Proof.
  unfold floored_hours. intros [E|E].
  - rewrite E. reflexivity.
  - rewrite E. destruct (sigma =? 0%R); reflexivity.
Qed.

Lemma floored_hours_above (sigma : float) (h : R) :
  (1e-7 <= h)%R -> floored_hours sigma (Fin h) = Fin h.
Proof.
  intros Hh. rewrite floored_hours_Fin. unfold hours_spec.
  destruct (sigma =? 0%R); [reflexivity|].
  destruct (sigma =? 1%R); [reflexivity|].
  f_equal. apply Rmax_left. exact Hh.
Qed.


End UtilityClaims.

Section UtilityWitnesses.

#[local] Existing Instance binary64_range.

Local Open Scope float_scope.

Lemma in_range_moderate (r : R) :
  (-1000000000000 <= r <= 1000000000000)%R -> in_range r.
Proof.
  intros H. apply overflows_small.
  apply Rle_trans with (r2 := 1000000000000%R).
  - apply Rabs_le. lra.
  - apply IZR_le. vm_compute. discriminate.
Qed.

Lemma Rpower_floor_minus_one : Rpower 1e-8 (1 - 2) = 100000000%R.
Proof.
  replace (1 - 2)%R with (- (1))%R by lra.
  rewrite Rpower_Ropp, Rpower_1 by lra. lra.
Qed.

(** [(1e-8)^(1-40) = 1e312] is beyond the largest binary64 number. *)
Lemma Rpower_floor_overflows : (max_float < Rpower 1e-8 (1 - 40))%R.
Proof.
  replace (1 - 40)%R with (- INR 39)%R
    by (rewrite INR_IZR_INZ; simpl; lra).
  rewrite Rpower_Ropp, Rpower_pow by lra.
  replace 1e-8%R with (/ IZR 100000000)%R by lra.
  rewrite pow_inv, Rinv_inv, pow_IZR.
  unfold max_float. apply IZR_lt. vm_compute. reflexivity.
Qed.

Lemma equal_half_zero : (Fin 0.5 =? 0%R) = false.
Proof. unfold np.equal. destruct (Req_dec_T 0.5 0); [lra|reflexivity]. Qed.

Lemma equal_half_one : (Fin 0.5 =? 1%R) = false.
Proof. unfold np.equal. destruct (Req_dec_T 0.5 1); [lra|reflexivity]. Qed.

Lemma equal_one_zero : (Fin 1.0 =? 0%R) = false.
Proof. unfold np.equal. destruct (Req_dec_T 1.0 0); [lra|reflexivity]. Qed.

Lemma equal_one_one : (Fin 1.0 =? 1%R) = true.
Proof. unfold np.equal. destruct (Req_dec_T 1.0 1); [reflexivity|lra]. Qed.

(** The composite good of the default object at the Choice [(0, 0, 0, 0)]
    is below the floor. *)
Lemma zero_choice_at_floor (r : float) :
  let p := A.par (with_rho r A.init) in
  exists H : float,
    A.home_production p (Fin 0) (Fin 0) = Ok (H, Fin 0, Fin 0) /\
    np.fmax ((A.wM p * Fin 0 + A.wF p * Fin 0) ** A.omega p
             * H ** (1%R - A.omega p)) 1e-8%R
    = Fin 1e-8.
Proof.
  cbv zeta. rewrite home_production_spec. eexists. split.
  - unfold hours_spec. cbn [A.par with_rho A.init A.sigma].
    rewrite equal_one_zero, equal_one_one. reflexivity.
  - unfold H_spec. cbn [A.par with_rho A.init A.sigma A.alpha A.omega A.wM A.wF].
    rewrite equal_one_zero, equal_one_one.
    rewrite !multiply_rnd, !subtract_rnd.
    rewrite (@rnd_range _ (1.0 * 0)%R), (@rnd_range _ (1 - 0.5)%R) by lra.
    rewrite add_rnd, rnd_range by lra.
    replace (1.0 * 0 + 1.0 * 0)%R with 0%R by lra.
    rewrite !power_zero_pos by lra.
    rewrite multiply_rnd, rnd_range by lra.
    replace (0 * 0)%R with 0%R by lra.
    rewrite power_zero_pos by lra.
    rewrite multiply_rnd, rnd_range by lra.
    rewrite fmax_Fin. f_equal. apply Rmax_right. lra.
Qed.





End UtilityWitnesses.

(** ** Calibration: [est] and [estimate] *)

Section CalibrationClaims.

Context {ar : Arithmetic}
        {scipy_minimize : optimize.Minimize} {numpy_lstsq : linalg.Lstsq}.

(** [run_regression] succeeds exactly when [lstsq] hands back two
    coefficients, which it stores. *)
Lemma run_regression_Ok (self self' : A.Model) :
  A.run_regression self = (Ok tt, self') <->
  exists b0 b1 : float,
    linalg.lstsq (A.design_matrix (A.regressor (A.par self)))
                 (A.regressand (A.sol self)) = [b0; b1] /\
    self' = A.set_betas b0 b1 self.
Proof.
  unfold A.run_regression. unfold bind at 1, gets at 1.
  unfold bind at 1, gets at 1.
  destruct (linalg.lstsq _ _) as [|b0 [|b1 [|b2 l]]]; unfold raise, modify;
    split; try (intros H; discriminate H);
    try (intros (c0 & c1 & H & _); discriminate H).
  - intros H. inversion H. eauto.
  - intros (c0 & c1 & H & ->). inversion H. reflexivity.
Qed.

Lemma run_regression_B_Ok (self self' : B.Model) :
  B.run_regression self = (Ok tt, self') <->
  exists b0 b1 : float,
    linalg.lstsq (B.design_matrix (B.regressor (B.par self)))
                 (B.regressand (B.sol self)) = [b0; b1] /\
    self' = B.set_betas b0 b1 self.
Proof.
  unfold B.run_regression. unfold bind at 1, gets at 1.
  unfold bind at 1, gets at 1.
  destruct (linalg.lstsq _ _) as [|b0 [|b1 [|b2 l]]]; unfold raise, modify;
    split; try (intros H; discriminate H);
    try (intros (c0 & c1 & H & _); discriminate H).
  - intros H. inversion H. eauto.
  - intros (c0 & c1 & H & ->). inversion H. reflexivity.
Qed.

Lemma unit_result_Ok {S} (c : M S unit) (s s' : S) (u : unit) :
  c s = (Ok u, s') -> c s = (Ok tt, s').
Proof. destruct u. exact (fun H => H). Qed.

(** C3.  A trial of variant A returns [v] in the object [self'] exactly when
    [x[0]] and [x[1]] exist and were written to [alpha] and [sigma], the
    continuous wage sweep then ran to its end on that object, the regression
    then ran and stored the coefficients [lstsq] gave on the swept object, and
    [v] is [(beta0_target - beta0)^2 + (beta1_target - beta1)^2] on those
    coefficients.  A trial of variant B is the same with [x[0]] written to
    [sigma] only.  The search of variant B is the optimizer run on that
    objective from the initial guess [0.1] with the bound [(0.01, 0.99)]. *)
Theorem C3_calibration_trial (x : list float) (v : float) :
  (forall self self' : A.Model,
     A.est x self = (Ok v, self') <->
     exists (a s : float) (swept : A.Model) (b0 b1 : float),
       nth_error x 0 = Some a /\ nth_error x 1 = Some s /\
       A.solve_wF_vec false (A.set_sigma s (A.set_alpha a self))
       = (Ok tt, swept) /\
       linalg.lstsq (A.design_matrix (A.regressor (A.par swept)))
                    (A.regressand (A.sol swept)) = [b0; b1] /\
       self' = A.set_betas b0 b1 swept /\
       v = ((A.beta0_target (A.par swept) - b0) ** 2%R
            + (A.beta1_target (A.par swept) - b1) ** 2%R)%fl /\
       v = objective_A self') /\
  (forall self self' : B.Model,
     B.est x self = (Ok v, self') <->
     exists (s : float) (swept : B.Model) (b0 b1 : float),
       nth_error x 0 = Some s /\
       B.solve_wF_vec false (B.set_sigma s self) = (Ok tt, swept) /\
       linalg.lstsq (B.design_matrix (B.regressor (B.par swept)))
                    (B.regressand (B.sol swept)) = [b0; b1] /\
       self' = B.set_betas b0 b1 swept /\
       v = ((B.beta0_target (B.par swept) - b0) ** 2%R
            + (B.beta1_target (B.par swept) - b1) ** 2%R)%fl /\
       v = objective_B self') /\
  (forall (sigma : option float) (do_print : bool),
     B.estimate sigma do_print
     = bind (optimize.minimize (fun trial => B.est trial) [Fin 0.1]
               optimize.Nelder_Mead [(Fin 0.01, Fin 0.99)] [] None)
            (fun res => ret (optimize.x res))).
Proof.
  split; [|split].
  - intros self self'. unfold A.est. split.
    + intros H.
      apply bind_Ok in H. destruct H as (a & s1 & H1 & H).
      apply lift_Ok in H1. destruct H1 as [Ha ->].
      apply bind_Ok in H. destruct H as (u1 & s2 & H2 & H).
      apply modify_Ok in H2. subst s2.
      apply bind_Ok in H. destruct H as (s & s3 & H3 & H).
      apply lift_Ok in H3. destruct H3 as [Hs ->].
      apply bind_Ok in H. destruct H as (u2 & s4 & H4 & H).
      apply modify_Ok in H4. subst s4.
      apply bind_Ok in H. destruct H as (u3 & swept & Hsweep & H).
      apply unit_result_Ok in Hsweep.
      apply bind_Ok in H. destruct H as (u4 & s6 & Hreg & H).
      apply unit_result_Ok in Hreg.
      apply run_regression_Ok in Hreg. destruct Hreg as (b0 & b1 & Hls & ->).
      unfold bind, gets, ret in H. inversion H. subst.
      exists a, s, swept, b0, b1.
      apply getitem_Ok_iff in Ha, Hs. repeat split; assumption.
    + intros (a & s & swept & b0 & b1 & Ha & Hs & Hsweep & Hls & -> & Hv & _).
      apply getitem_Ok_iff in Ha, Hs.
      unfold bind at 1, lift at 1. rewrite Ha.
      unfold bind at 1, modify at 1.
      unfold bind at 1, lift at 1. rewrite Hs.
      unfold bind at 1, modify at 1.
      unfold bind at 1. rewrite Hsweep.
      unfold bind at 1.
      replace (A.run_regression swept) with (Ok tt, A.set_betas b0 b1 swept)
        by (symmetry; apply run_regression_Ok; eauto).
      unfold bind, gets, ret. rewrite Hv. reflexivity.
  - intros self self'. unfold B.est. split.
    + intros H.
      apply bind_Ok in H. destruct H as (s & s1 & H1 & H).
      apply lift_Ok in H1. destruct H1 as [Hs ->].
      apply bind_Ok in H. destruct H as (u1 & s2 & H2 & H).
      apply modify_Ok in H2. subst s2.
      apply bind_Ok in H. destruct H as (u3 & swept & Hsweep & H).
      apply unit_result_Ok in Hsweep.
      apply bind_Ok in H. destruct H as (u4 & s6 & Hreg & H).
      apply unit_result_Ok in Hreg.
      apply run_regression_B_Ok in Hreg.
      destruct Hreg as (b0 & b1 & Hls & ->).
      unfold bind, gets, ret in H. inversion H. subst.
      exists s, swept, b0, b1.
      apply getitem_Ok_iff in Hs. repeat split; assumption.
    + intros (s & swept & b0 & b1 & Hs & Hsweep & Hls & -> & Hv & _).
      apply getitem_Ok_iff in Hs.
      unfold bind at 1, lift at 1. rewrite Hs.
      unfold bind at 1, modify at 1.
      unfold bind at 1. rewrite Hsweep.
      unfold bind at 1.
      replace (B.run_regression swept) with (Ok tt, B.set_betas b0 b1 swept)
        by (symmetry; apply run_regression_B_Ok; eauto).
      unfold bind, gets, ret. rewrite Hv. reflexivity.
  - intros sigma do_print. reflexivity.
Qed.

(** C10.  The arguments of [estimate] play no part: in variant A the search
    is the optimizer run on [est] from [(0.5, 0.1)] with the bounds
    [(0.01, 0.99)] twice, in variant B from [(0.1)] with that bound once,
    whatever [alpha], [sigma] and [do_print] are; two calls on one object
    that differ in these arguments only return the same and leave the same
    object. *)
Theorem C10_estimate_ignores_arguments
        (alpha sigma alpha' sigma' : option float) (do_print do_print' : bool)
        (selfA : A.Model) (selfB : B.Model) :
  A.estimate alpha sigma do_print
  = bind (optimize.minimize (fun trial => A.est trial) [Fin 0.5; Fin 0.1]
            optimize.Nelder_Mead
            [(Fin 0.01, Fin 0.99); (Fin 0.01, Fin 0.99)] [] None)
         (fun res => ret (optimize.x res)) /\
  A.estimate alpha sigma do_print selfA
  = A.estimate alpha' sigma' do_print' selfA /\
  B.estimate sigma do_print
  = bind (optimize.minimize (fun trial => B.est trial) [Fin 0.1]
            optimize.Nelder_Mead [(Fin 0.01, Fin 0.99)] [] None)
         (fun res => ret (optimize.x res)) /\
  B.estimate sigma do_print selfB = B.estimate sigma' do_print' selfB.
Proof. repeat split. Qed.

End CalibrationClaims.

(** ** The wage sweep *)

Section SweepClaims.

Context {ar : Arithmetic}
        {scipy_minimize : optimize.Minimize} {numpy_lstsq : linalg.Lstsq}.

(** What [solve_cont] returns depends on the parameters only. *)
Lemma solve_cont_par (do_print : bool) (s1 s2 : A.Model) :
  A.par s1 = A.par s2 ->
  fst (A.solve_cont do_print s1) = fst (A.solve_cont do_print s2).
Proof.
  intros Hpar. unfold A.solve_cont.
  match goal with
  | |- fst (bind (optimize.minimize ?f ?x0 ?m ?bs ?cs ?t) ?k s1) = _ =>
      pose proof (optimize.minimize_parametric
                    (fun m1 m2 : A.Model => A.par m1 = A.par m2)
                    f f x0 m bs cs t) as Hmin
  end.
  destruct (Hmin) with (s1 := s1) (s2 := s2) as [Hres _]; [|assumption|].
  - intros v a b Hab. unfold bind, lift.
    destruct (py.getitem v 0); [|auto].
    destruct (py.getitem v 1); [|auto].
    destruct (py.getitem v 2); [|auto].
    destruct (py.getitem v 3); [|auto].
    rewrite !calc_utility_run, Hab.
    destruct (A.utility (A.par b) _ _ _ _); auto.
  - unfold bind.
    destruct (optimize.minimize _ _ _ _ _ _ s1) as [[r1|e1] t1],
             (optimize.minimize _ _ _ _ _ _ s2) as [[r2|e2] t2];
      simpl in *; congruence.
Qed.

(** The sweep is a loop of such iterations. *)
Lemma solve_wF_vec_loop (discrete : bool) (Inv : nat -> A.Model -> Prop)
      (self self' : A.Model) :
  Inv 0 self ->
  (forall k s s', Inv k s ->
     (if discrete then discrete_step k s s' else continuous_step k s s') ->
     Inv (S k) s') ->
  A.solve_wF_vec discrete self = (Ok tt, self') ->
  Inv (length (A.wF_vec (A.par self))) self'.
Proof.
  intros H0 Hstep Hrun. unfold A.solve_wF_vec in Hrun.
  apply bind_Ok in Hrun. destruct Hrun as (size & s0 & Hsize & Hrun).
  apply gets_Ok in Hsize. destruct Hsize as [-> ->].
  revert Hrun. apply for_range_invariant; [exact H0|].
  intros k s s' HI Hbody. apply (Hstep k s s' HI). clear Hstep H0 HI.
  apply bind_Ok in Hbody. destruct Hbody as (w & s1 & Hw & Hbody).
  apply lift_Ok in Hw. destruct Hw as [Hw ->].
  apply getitem_Ok_iff in Hw.
  apply bind_Ok in Hbody. destruct Hbody as (u & s2 & Hm & Hbody).
  apply modify_Ok in Hm. subst s2.
  destruct discrete.
  - apply bind_Ok in Hbody. destruct Hbody as (res & s3 & Hsolve & Hret).
    apply ret_Ok in Hret. destruct Hret as [_ ->].
    pose proof (solve_discrete_read_only false (A.set_wF w s)) as Hro.
    rewrite Hsolve in Hro. simpl in Hro. subst s3.
    exists w. split; [assumption|reflexivity].
  - apply bind_Ok in Hbody. destruct Hbody as (res & s3 & Hsolve & Hbody).
    pose proof (solve_cont_read_only false (A.set_wF w s)) as Hro.
    rewrite Hsolve in Hro. simpl in Hro. subst s3.
    apply bind_Ok in Hbody. destruct Hbody as (r0 & t & Hr0 & Hbody).
    apply lift_Ok in Hr0. destruct Hr0 as [Hr0 ->].
    apply bind_Ok in Hbody. destruct Hbody as (v0 & t & Hv0 & Hbody).
    apply lift_Ok in Hv0. destruct Hv0 as [Hv0 ->].
    apply bind_Ok in Hbody. destruct Hbody as (u0 & t & Hm & Hbody).
    apply modify_Ok in Hm. subst t.
    apply bind_Ok in Hbody. destruct Hbody as (r1 & t & Hr1 & Hbody).
    apply lift_Ok in Hr1. destruct Hr1 as [Hr1 ->].
    apply bind_Ok in Hbody. destruct Hbody as (v1 & t & Hv1 & Hbody).
    apply lift_Ok in Hv1. destruct Hv1 as [Hv1 ->].
    apply bind_Ok in Hbody. destruct Hbody as (u1 & t & Hm & Hbody).
    apply modify_Ok in Hm. subst t.
    apply bind_Ok in Hbody. destruct Hbody as (r2 & t & Hr2 & Hbody).
    apply lift_Ok in Hr2. destruct Hr2 as [Hr2 ->].
    apply bind_Ok in Hbody. destruct Hbody as (v2 & t & Hv2 & Hbody).
    apply lift_Ok in Hv2. destruct Hv2 as [Hv2 ->].
    apply bind_Ok in Hbody. destruct Hbody as (u2 & t & Hm & Hbody).
    apply modify_Ok in Hm. subst t.
    apply bind_Ok in Hbody. destruct Hbody as (r3 & t & Hr3 & Hbody).
    apply lift_Ok in Hr3. destruct Hr3 as [Hr3 ->].
    apply bind_Ok in Hbody. destruct Hbody as (v3 & t & Hv3 & Hbody).
    apply lift_Ok in Hv3. destruct Hv3 as [Hv3 ->].
    apply modify_Ok in Hbody. subst s'.
    apply getitem_Ok_iff in Hr0, Hr1, Hr2, Hr3.
    exists w, res, r0, r1, r2, r3, v0, v1, v2, v3.
    rewrite Hsolve. simpl in *. repeat split; assumption.
Qed.

Lemma sweep_invariant_wF_vec discrete self k s :
  sweep_invariant discrete self k s ->
  A.wF_vec (A.par s) = A.wF_vec (A.par self).
Proof.
  intros (H & _). exact (f_equal A.wF_vec (H NaN)).
Qed.

Lemma sweep_invariant_step (discrete : bool) (self : A.Model) (k : nat)
      (s s' : A.Model) :
  sweep_invariant discrete self k s ->
  (if discrete then discrete_step k s s' else continuous_step k s s') ->
  sweep_invariant discrete self (S k) s'.
Proof.
  intros HI Hstep.
  pose proof (sweep_invariant_wF_vec HI) as Hvec.
  destruct HI as (Hpar & HwF & Hsol & Hent).
  destruct discrete.
  - destruct Hstep as (w & Hw & ->). rewrite Hvec in Hw.
    split; [intros w'; apply (Hpar w')|]. split; [|split].
    + rewrite (firstn_S_nth_error _ _ Hw), last_last. reflexivity.
    + intros _. apply Hsol. reflexivity.
    + discriminate.
  - destruct Hstep as (w & res & r0 & r1 & r2 & r3 & v0 & v1 & v2 & v3 &
                       Hw & Hres & H0 & H1 & H2 & H3 &
                       S0 & S1 & S2 & S3 & ->).
    rewrite Hvec in Hw.
    apply setitem_Ok in S0, S1, S2, S3.
    destruct S0 as (N0 & F0 & _), S1 as (N1 & F1 & _),
             S2 as (N2 & F2 & _), S3 as (N3 & F3 & _).
    split; [intros w'; apply (Hpar w')|]. split; [|split].
    + rewrite (firstn_S_nth_error _ _ Hw), last_last. reflexivity.
    + discriminate.
    + intros _ it w' Hit Hw'.
      destruct (Nat.eq_dec it k) as [->|Hne].
      * assert (w' = w) by congruence. subst w'.
        exists res, r0, r1, r2, r3. simpl.
        rewrite <- Hres. split; [|repeat split; assumption].
        apply solve_cont_par. symmetry. apply Hpar.
      * destruct (Hent eq_refl it w') as
          (res' & q0 & q1 & q2 & q3 & Hres' & Hq & E0 & E1 & E2 & E3);
          [lia|assumption|].
        exists res', q0, q1, q2, q3. simpl.
        rewrite F0, F1, F2, F3 by assumption.
        repeat split; try assumption; apply Hq.
Qed.

Lemma last_default_wF_vec (d : float) :
  last (nparray.linspace 0.8 1.2 5) d = Fin 1.2.
Proof.
  unfold nparray.linspace. simpl. f_equal. lra.
Qed.

(** C6.  When [solve_wF_vec] has run to its end: [wF] is the last element of
    [wF_vec] (1.2 for the default vector), in both modes; in discrete mode
    the solution, and so each of the four solution vectors, is what it was
    before the sweep; in continuous mode entry [it] of each of the four
    vectors holds the matching component of what [solve_cont] returns for
    [wF = wF_vec[it]]. *)
Theorem C6_solve_wF_vec_effects (discrete : bool) (self self' : A.Model) :
  A.solve_wF_vec discrete self = (Ok tt, self') ->
  A.wF (A.par self')
  = last (A.wF_vec (A.par self)) (A.wF (A.par self)) /\
  (A.wF_vec (A.par self) = nparray.linspace 0.8 1.2 5 ->
   A.wF (A.par self') = Fin 1.2) /\
  (discrete = true ->
   A.sol self' = A.sol self /\
   A.LM_vec (A.sol self') = A.LM_vec (A.sol self) /\
   A.HM_vec (A.sol self') = A.HM_vec (A.sol self) /\
   A.LF_vec (A.sol self') = A.LF_vec (A.sol self) /\
   A.HF_vec (A.sol self') = A.HF_vec (A.sol self)) /\
  (discrete = false ->
   forall it w, nth_error (A.wF_vec (A.par self)) it = Some w ->
     swept_entry self it w self').
Proof.
  intros Hrun.
  assert (HI : sweep_invariant discrete self
                 (length (A.wF_vec (A.par self))) self').
  { revert Hrun. apply solve_wF_vec_loop.
    - split; [reflexivity|]. split; [reflexivity|]. split; [reflexivity|].
      intros _ it w Hit. lia.
    - intros k s s'. apply sweep_invariant_step. }
  destruct HI as (_ & HwF & Hsol & Hent). rewrite firstn_all in HwF.
  split; [exact HwF|]. split; [|split].
  - intros Hvec. rewrite HwF, Hvec. apply last_default_wF_vec.
  - intros Hd. rewrite (Hsol Hd). repeat split.
  - intros Hd it w Hw. apply (Hent Hd it w); [|exact Hw].
    apply nth_error_Some. congruence.
Qed.

(** The discrete sweep runs to its end whenever [1/epsilon] does not
    raise. *)
Lemma solve_wF_vec_discrete_total (self : A.Model) :
  (A.epsilon (A.par self) =? 0%R)%fl = false ->
  exists self', A.solve_wF_vec true self = (Ok tt, self').
Proof.
  intros E. unfold A.solve_wF_vec. unfold bind at 1, gets at 1.
  destruct (@for_range_total _
              (fun it : nat =>
                 bind (fun self0 : A.Model =>
                         lift (py.getitem (A.wF_vec (A.par self0)) it) self0)
                   (fun w =>
                      bind (modify (A.set_wF w))
                        (fun _ =>
                           bind (A.solve_discrete false)
                                (fun _ => ret tt))))
              (fun s => (A.epsilon (A.par s) =? 0%R)%fl = false /\
                        A.wF_vec (A.par s) = A.wF_vec (A.par self))
              (length (A.wF_vec (A.par self))) self)
    as (s & Hrun & _).
  - split; [exact E|reflexivity].
  - intros k s Hk [Es Hvec].
    exists (A.set_wF (nth k (A.wF_vec (A.par self)) NaN) s).
    split; [|split; assumption].
    unfold bind at 1, lift at 1.
    rewrite Hvec, getitem_nth with (d := NaN) by assumption.
    unfold bind at 1, modify at 1.
    destruct (@solve_discrete_run _
                (A.par (A.set_wF (nth k (A.wF_vec (A.par self)) NaN) s)) Es)
      as (us & j & _ & _ & Hsolve).
    unfold bind. rewrite Hsolve by reflexivity. reflexivity.
  - exists s. exact Hrun.
Qed.

End SweepClaims.

Section SweepReference.

Context {ar : Arithmetic}.

#[local] Existing Instance reference_minimize.
#[local] Existing Instance reference_lstsq.

(** With the reference optimizer [solve_cont] returns its initial guess. *)
Lemma solve_cont_reference (do_print : bool) (self : A.Model) :
  (A.epsilon (A.par self) =? 0%R)%fl = false ->
  A.solve_cont do_print self
  = (Ok [Fin 4; Fin 4; Fin 4; Fin 4], self).
Proof.
  intros E. unfold A.solve_cont. simpl optimize.minimize.
  unfold minimize_once. simpl repeat.
  unfold bind, lift, py.getitem. cbn [nth_error].
  rewrite calc_utility_run.
  destruct (utility_total (A.par self) (Fin 4) (Fin 4) (Fin 4) (Fin 4) E)
    as [u ->].
  reflexivity.
Qed.

(** With it the continuous sweep runs to its end on an object whose
    solution vectors are as long as [wF_vec]. *)
Lemma solve_wF_vec_continuous_reference (self : A.Model) :
  (A.epsilon (A.par self) =? 0%R)%fl = false ->
  length (A.LM_vec (A.sol self)) = length (A.wF_vec (A.par self)) ->
  length (A.HM_vec (A.sol self)) = length (A.wF_vec (A.par self)) ->
  length (A.LF_vec (A.sol self)) = length (A.wF_vec (A.par self)) ->
  length (A.HF_vec (A.sol self)) = length (A.wF_vec (A.par self)) ->
  exists self', A.solve_wF_vec false self = (Ok tt, self').
Proof.
  intros E L0 L1 L2 L3. unfold A.solve_wF_vec.
  unfold bind at 1, gets at 1.
  match goal with
  | |- exists s', for_ _ ?body _ = _ =>
      destruct (@for_range_total _ body
        (fun s => (A.epsilon (A.par s) =? 0%R)%fl = false /\
                  A.wF_vec (A.par s) = A.wF_vec (A.par self) /\
                  length (A.LM_vec (A.sol s)) = length (A.wF_vec (A.par self)) /\
                  length (A.HM_vec (A.sol s)) = length (A.wF_vec (A.par self)) /\
                  length (A.LF_vec (A.sol s)) = length (A.wF_vec (A.par self)) /\
                  length (A.HF_vec (A.sol s)) = length (A.wF_vec (A.par self)))
        (length (A.wF_vec (A.par self))) self)
        as (s & Hrun & _)
  end.
  - repeat split; assumption.
  - intros k s Hk (Es & Hvec & M0 & M1 & M2 & M3).
    destruct (@setitem_total _ (A.LM_vec (A.sol s)) k (Fin 4)) as [v0 S0];
      [lia|].
    destruct (@setitem_total _ (A.HM_vec (A.sol s)) k (Fin 4)) as [v1 S1];
      [lia|].
    destruct (@setitem_total _ (A.LF_vec (A.sol s)) k (Fin 4)) as [v2 S2];
      [lia|].
    destruct (@setitem_total _ (A.HF_vec (A.sol s)) k (Fin 4)) as [v3 S3];
      [lia|].
    pose proof (setitem_Ok _ _ _ S0) as (_ & _ & N0).
    pose proof (setitem_Ok _ _ _ S1) as (_ & _ & N1).
    pose proof (setitem_Ok _ _ _ S2) as (_ & _ & N2).
    pose proof (setitem_Ok _ _ _ S3) as (_ & _ & N3).
    exists (A.set_HF_vec v3 (A.set_LF_vec v2 (A.set_HM_vec v1
              (A.set_LM_vec v0
                 (A.set_wF (nth k (A.wF_vec (A.par self)) NaN) s))))).
    split; [|simpl; repeat split; congruence].
    unfold bind at 1, lift at 1.
    rewrite Hvec, getitem_nth with (d := NaN) by assumption.
    unfold bind at 1, modify at 1.
    unfold bind at 1. rewrite solve_cont_reference by exact Es.
    unfold bind, lift, modify. simpl.
    rewrite S0. simpl. rewrite S1. simpl. rewrite S2. simpl. rewrite S3.
    reflexivity.
  - exists s. exact Hrun.
Qed.

End SweepReference.

Section SweepWitnesses.

#[local] Existing Instance binary64_range.
#[local] Existing Instance reference_minimize.
#[local] Existing Instance reference_lstsq.

Lemma C6_witness :
  (exists self',
     A.solve_wF_vec true A.init = (Ok tt, self') /\
     A.wF (A.par self') = Fin 1.2 /\
     A.sol self' = A.sol A.init) /\
  (exists self',
     A.solve_wF_vec false A.init = (Ok tt, self') /\
     A.wF (A.par self') = Fin 1.2 /\
     forall it w, nth_error (A.wF_vec (A.par A.init)) it = Some w ->
       swept_entry A.init it w self').
Proof.
  split.
  - destruct (@solve_wF_vec_discrete_total _ _ A.init) as [self' Hrun].
    + apply epsilon_one_nonzero. reflexivity.
    + exists self'. split; [exact Hrun|].
      destruct (@C6_solve_wF_vec_effects _ _ true A.init self' Hrun)
        as (_ & H1 & H2 & _).
      split; [apply H1; reflexivity|apply H2; reflexivity].
  - destruct (@solve_wF_vec_continuous_reference _ A.init) as [self' Hrun];
      try reflexivity.
    + apply epsilon_one_nonzero. reflexivity.
    + exists self'. split; [exact Hrun|].
      destruct (@C6_solve_wF_vec_effects _ _ false A.init self' Hrun)
        as (_ & H1 & _ & H3).
      split; [apply H1; reflexivity|apply H3; reflexivity].
Defined.

End SweepWitnesses.

(** ** The regression *)

Section RegressionClaims.

Context {numpy_lstsq : linalg.Lstsq}.

#[local] Existing Instance exact_arithmetic.

Lemma T_single {A} (x : list A) : nparray.T [x] = map (fun v => [v]) x.
Proof. reflexivity. Qed.

(** The design matrix is a column of ones followed by the column [x]. *)
Lemma design_matrix_rows (x : list float) :
  A.design_matrix x = map (fun xi => [Fin 1; xi]) x.
Proof.
  unfold A.design_matrix, nparray.vstack, nparray.ones.
  change (nparray.T [repeat (Fin 1) (length x); x])
    with (map2 cons (repeat (Fin 1) (length x)) (nparray.T [x])).
  rewrite T_single.
  induction x as [|a x IH]; simpl; [reflexivity|].
  rewrite IH. reflexivity.
Qed.

Lemma design_matrix_float_rows (xs : list R) :
  A.design_matrix (map Fin xs) = linalg.float_rows (design_rows xs).
Proof.
  rewrite design_matrix_rows. unfold linalg.float_rows, design_rows.
  rewrite !map_map. reflexivity.
Qed.

(** On finite data of full column rank [run_regression] stores a least
    squares solution. *)
Lemma run_regression_least_squares (self : A.Model) (xs ys : list R) :
  A.regressor (A.par self) = map Fin xs ->
  A.regressand (A.sol self) = map Fin ys ->
  length xs = length ys ->
  linalg.gram_det (design_rows xs) <> 0%R ->
  exists b0 b1 : R,
    A.run_regression self
    = (Ok tt, A.set_betas (Fin b0) (Fin b1) self) /\
    forall c0 c1 : R,
      (linalg.sse (design_rows xs) ys b0 b1
       <= linalg.sse (design_rows xs) ys c0 c1)%R.
Proof.
  intros Hx Hy Hlen Hdet.
  destruct (@linalg.lstsq_least_squares _ (design_rows xs) ys)
    as (b0 & b1 & Hls & Hmin); [|assumption|].
  { unfold design_rows. rewrite length_map. exact Hlen. }
  exists b0, b1. split; [|exact Hmin].
  unfold A.run_regression. unfold bind at 1, gets at 1.
  unfold bind at 1, gets at 1.
  rewrite Hx, Hy, design_matrix_float_rows, Hls. reflexivity.
Qed.

(** Five points of which the first and the last differ: the design matrix
    has full column rank, and data lying on a line has that line as its only
    least squares fit. *)
Lemma five_points_gram_det (x0 x1 x2 x3 x4 : R) :
  x0 <> x4 -> linalg.gram_det (design_rows [x0; x1; x2; x3; x4]) <> 0%R.
Proof.
  intros Hne. unfold linalg.gram_det, design_rows, linalg.sum_by. simpl.
  assert (0 < (x0 - x4) * (x0 - x4))%R by nra.
  pose proof (Rle_0_sqr (x0 - x1)). pose proof (Rle_0_sqr (x0 - x2)).
  pose proof (Rle_0_sqr (x0 - x3)). pose proof (Rle_0_sqr (x1 - x2)).
  pose proof (Rle_0_sqr (x1 - x3)). pose proof (Rle_0_sqr (x1 - x4)).
  pose proof (Rle_0_sqr (x2 - x3)). pose proof (Rle_0_sqr (x2 - x4)).
  pose proof (Rle_0_sqr (x3 - x4)). unfold Rsqr in *.
  nra.
Qed.

Lemma five_points_on_a_line (x0 x1 x2 x3 x4 a b b0 b1 : R) :
  x0 <> x4 ->
  (linalg.sse (design_rows [x0; x1; x2; x3; x4])
              (map (fun x => a + b * x) [x0; x1; x2; x3; x4]) b0 b1
   <= linalg.sse (design_rows [x0; x1; x2; x3; x4])
                 (map (fun x => a + b * x) [x0; x1; x2; x3; x4]) a b)%R ->
  b0 = a /\ b1 = b.
Proof.
  intros Hne. unfold linalg.sse, design_rows, linalg.sum_by. simpl.
  intros Hle.
  set (t0 := (a + b * x0 - (b0 * 1 + b1 * x0))%R) in *.
  set (t1 := (a + b * x1 - (b0 * 1 + b1 * x1))%R) in *.
  set (t2 := (a + b * x2 - (b0 * 1 + b1 * x2))%R) in *.
  set (t3 := (a + b * x3 - (b0 * 1 + b1 * x3))%R) in *.
  set (t4 := (a + b * x4 - (b0 * 1 + b1 * x4))%R) in *.
  assert (H0 : t0 = 0%R) by nra.
  assert (H4 : t4 = 0%R) by nra.
  unfold t0, t4 in H0, H4.
  assert (Hb : b1 = b) by nra.
  split; [nra|exact Hb].
Qed.

Lemma log_pos (a : R) : (0 < a)%R -> np.log (Fin a) = Fin (ln a).
Proof. intros Ha. simpl. rewrite Rsign_pos by assumption. reflexivity. Qed.

(** The regressor of the default wage vector. *)
Lemma regressor_default (par : A.Par) :
  A.wM par = Fin 1 ->
  A.wF_vec par = nparray.linspace 0.8 1.2 5 ->
  A.regressor par = map Fin xs_default.
Proof.
  intros HwM Hvec. unfold A.regressor, xs_default, nparray.linspace in *.
  rewrite HwM, Hvec, !map_map. apply map_ext. intros i.
  rewrite divide_Fin by lra. apply log_pos.
  assert (0 <= INR i)%R by apply pos_INR.
  replace (INR (5 - 1)) with 4%R by (simpl; lra).
  nra.
Qed.

Lemma xs_default_ends :
  exists x0 x1 x2 x3 x4 : R,
    xs_default = [x0; x1; x2; x3; x4] /\ x0 <> x4.
Proof.
  unfold xs_default. simpl seq. cbn [map].
  do 5 eexists. split; [reflexivity|].
  apply Rlt_not_eq. apply ln_increasing; simpl INR; lra.
Qed.

(** C4.  [run_regression] regresses [y = log(HF_vec / HM_vec)] on
    [x = log(wF_vec / wM)] with the design matrix whose rows are [(1, x_i)]:
    on finite data of full column rank the coefficients it stores minimise
    the sum of squared residuals [sum (y_i - (beta0 + beta1 * x_i))^2].
    Round trip: with [wM = 1], the default [wF_vec] and solution vectors for
    which [y = 0.4 - 0.1 * x] holds exactly, it stores [beta0 = 0.4] and
    [beta1 = -0.1] (exactly, in exact arithmetic). *)
Theorem C4_regression_least_squares_round_trip (self : A.Model) :
  (forall x : list float,
     A.regressor (A.par self)
     = map np.log (map (fun w => w / A.wM (A.par self))%fl
                       (A.wF_vec (A.par self))) /\
     A.regressand (A.sol self)
     = map np.log (map2 np.divide (A.HF_vec (A.sol self))
                                  (A.HM_vec (A.sol self))) /\
     A.design_matrix x = map (fun xi => [Fin 1; xi]) x) /\
  (forall xs ys : list R,
     A.regressor (A.par self) = map Fin xs ->
     A.regressand (A.sol self) = map Fin ys ->
     length xs = length ys ->
     linalg.gram_det (design_rows xs) <> 0%R ->
     exists b0 b1 : R,
       A.run_regression self
       = (Ok tt, A.set_betas (Fin b0) (Fin b1) self) /\
       forall c0 c1 : R,
         (linalg.sse (design_rows xs) ys b0 b1
          <= linalg.sse (design_rows xs) ys c0 c1)%R) /\
  (A.wM (A.par self) = Fin 1 ->
   A.wF_vec (A.par self) = nparray.linspace 0.8 1.2 5 ->
   A.regressand (A.sol self)
   = map (fun x => Fin 0.4 - Fin 0.1 * x)%fl (A.regressor (A.par self)) ->
   A.run_regression self
   = (Ok tt, A.set_betas (Fin 0.4) (Fin (-0.1)) self)).
Proof.
  split; [intros x; repeat split; apply design_matrix_rows|].
  split; [apply run_regression_least_squares|].
  intros HwM Hvec Hy.
  pose proof (regressor_default _ HwM Hvec) as Hx.
  rewrite Hx, map_map in Hy.
  destruct xs_default_ends as (x0 & x1 & x2 & x3 & x4 & Hxs & Hne).
  rewrite Hxs in Hx, Hy.
  assert (Hy' : A.regressand (A.sol self)
                = map Fin (map (fun x => 0.4 + (-0.1) * x)%R
                               [x0; x1; x2; x3; x4])).
  { rewrite Hy. cbn. repeat f_equal; lra. }
  destruct (@run_regression_least_squares self [x0; x1; x2; x3; x4]
              (map (fun x => 0.4 + (-0.1) * x)%R [x0; x1; x2; x3; x4])
              Hx Hy' eq_refl
              (@five_points_gram_det x0 x1 x2 x3 x4 Hne))
    as (b0 & b1 & Hrun & Hmin).
  destruct (@five_points_on_a_line x0 x1 x2 x3 x4 0.4%R (-0.1)%R b0 b1 Hne
              (Hmin 0.4 (-0.1))%R)
    as [-> ->].
  exact Hrun.
Qed.

End RegressionClaims.

Section RegressionWitnesses.

#[local] Existing Instance exact_arithmetic.
#[local] Existing Instance reference_lstsq.

Lemma C4_witness :
  A.run_regression round_trip_model
  = (Ok tt, A.set_betas (Fin 0.4) (Fin (-0.1)) round_trip_model).
Proof.
  apply (proj2 (proj2 (@C4_regression_least_squares_round_trip
                         reference_lstsq round_trip_model))).
  - simpl. f_equal. lra.
  - reflexivity.
  - rewrite (@regressor_default (A.par round_trip_model));
      [|simpl; f_equal; lra|reflexivity].
    unfold A.regressand, round_trip_model, nparray.ones.
    cbn [A.sol A.HF_vec A.HM_vec].
    destruct xs_default_ends as (x0 & x1 & x2 & x3 & x4 & -> & _).
    cbn [map map2 repeat]. rewrite !divide_Fin by lra.
    assert (Hlog : forall e : R, np.log (Fin (exp e / 1)) = Fin e).
    { intros e. rewrite log_pos.
      - f_equal. replace (exp e / 1)%R with (exp e) by field. apply ln_exp.
      - pose proof (exp_pos e). replace (exp e / 1)%R with (exp e) by field.
        assumption. }
    rewrite !Hlog. cbn. repeat f_equal; lra.
Defined.

End RegressionWitnesses.

(** ** Symmetries of the float operations *)

Section FloatSymmetry.

Context {ar : Arithmetic}.

Local Open Scope float_scope.

Lemma np_add_comm (x y : float) : x + y = y + x.
Proof.
  destruct x as [| | |a], y as [| | |b]; try reflexivity.
  rewrite !add_rnd, Rplus_comm. reflexivity.
Qed.

Lemma inf_of_signs_comm (s t : comparison) :
  np.inf_of_signs s t = np.inf_of_signs t s.
Proof. destruct s, t; reflexivity. Qed.

Lemma np_multiply_comm (x y : float) : x * y = y * x.
Proof.
  destruct x as [| | |a], y as [| | |b]; try reflexivity;
    try (unfold np.multiply, np.sign; apply inf_of_signs_comm).
  rewrite !multiply_rnd, Rmult_comm. reflexivity.
Qed.

Lemma np_minimum_comm (x y : float) : np.minimum x y = np.minimum y x.
Proof.
  destruct x as [| | |a], y as [| | |b]; simpl; try reflexivity.
  destruct (Rlt_dec b a), (Rlt_dec a b); try reflexivity; try lra.
  f_equal. lra.
Qed.

Lemma one_minus_half : Fin 1 - Fin 0.5 = Fin 0.5.
Proof.
  rewrite subtract_rnd, rnd_range by lra. f_equal. lra.
Qed.

End FloatSymmetry.

(** ** More on the discrete solver *)

Section DiscreteSolver.

Context {ar : Arithmetic}.

Lemma in_grid_on_grid (v : float) : In v grid -> on_grid v.
Proof.
  intros Hin. destruct (In_nth _ _ NaN Hin) as (i & Hi & <-).
  rewrite length_grid in Hi. exists i. split; [lia|].
  apply nth_grid. exact Hi.
Qed.

Lemma in_grid_cells_on_grid (t : float * float * float * float) :
  In t grid_cells ->
  on_grid (A.LM (opt_of t)) /\ on_grid (A.HM (opt_of t)) /\
  on_grid (A.LF (opt_of t)) /\ on_grid (A.HF (opt_of t)).
Proof.
  destruct t as [[[a b] c] d]. intros Hin.
  apply in_cells in Hin. destruct Hin as (Ha & Hb & Hc & Hd).
  simpl. repeat split; apply in_grid_on_grid; assumption.
Qed.

(** X1.  Whatever the parameters, [solve_discrete] has one of two outcomes,
    and leaves the object as it was in both: with [epsilon == 0] it raises
    [ZeroDivisionError]; otherwise it returns a Choice whose four components
    are grid values (multiples of 0.5 in [0, 24]) and which respects both time
    budgets.  It never raises an [IndexError] or a [ValueError]: the array
    [np.argmax] sees is not empty and its index is in range. *)
Theorem X1_solve_discrete_outcomes (do_print : bool) (self : A.Model) :
  ((A.epsilon (A.par self) =? 0%R)%fl = true /\
   A.solve_discrete do_print self = (Raise ZeroDivisionError, self)) \/
  ((A.epsilon (A.par self) =? 0%R)%fl = false /\
   exists c : A.Opt,
     A.solve_discrete do_print self = (Ok c, self) /\
     feasible c /\
     on_grid (A.LM c) /\ on_grid (A.HM c) /\
     on_grid (A.LF c) /\ on_grid (A.HF c)).
Proof.
  destruct (A.epsilon (A.par self) =? 0%R)%fl eqn:E.
  - left. split; [reflexivity|]. apply solve_discrete_raises. exact E.
  - right. split; [reflexivity|].
    destruct (solve_discrete_run (A.par self) E)
      as (us & j & Hall & Hspec & Hrun).
    exists (opt_of (nth j grid_cells (NaN, NaN, NaN, NaN))).
    split; [apply Hrun; reflexivity|].
    assert (Hlen : length us = length grid_cells)
      by (symmetry; apply (Forall2_length Hall)).
    split; [apply argmax_masked_feasible with (us := us); assumption|].
    apply in_grid_cells_on_grid. apply nth_In.
    apply argmax_of_lt in Hspec. rewrite map2_length in Hspec; lia.
Qed.

(** The index [np.argmax] returns on the masked utilities is not masked. *)
Lemma argmax_masked_unmasked (us : list float) (j : nat) :
  length us = length grid_cells ->
  argmax_of (map2 masked us grid_cells) j ->
  infeasible (nth j grid_cells (NaN, NaN, NaN, NaN)) = false.
Proof.
  intros Hlen Hspec.
  assert (Hlt : j < length grid_cells).
  { apply argmax_of_lt in Hspec. rewrite map2_length in Hspec; lia. }
  destruct (argmax_of_not_NInf Hspec) as [-> | Hne].
  - rewrite nth_grid_cells_0. apply zero_cell_unmasked.
  - rewrite map2_nth with (da := NaN) (db := (NaN, NaN, NaN, NaN)) in Hne
      by lia.
    eapply masked_not_NInf, Hne.
Qed.

Lemma Forall2_nth {T U} (R : T -> U -> Prop) (l : list T) (us : list U)
      (i : nat) (dt : T) (du : U) :
  Forall2 R l us -> i < length l -> R (nth i l dt) (nth i us du).
Proof.
  intros H. revert i. induction H as [|t u l us Htu _ IH]; intros i Hi;
    simpl in Hi; [lia|].
  destruct i as [|i]; simpl; [exact Htu|]. apply IH. lia.
Qed.

(** When the utilities on the grid hold no NaN, the index [np.argmax]
    returns on the masked utilities is that of a combination the mask lets
    through, no such combination has a larger utility, and every one before
    it has a smaller one. *)
Lemma masked_argmax_optimal (us : list float) (j : nat) :
  length us = length grid_cells ->
  Forall (fun u => u <> NaN) us ->
  argmax_of (map2 masked us grid_cells) j ->
  forall i, i < length grid_cells ->
    infeasible (nth i grid_cells (NaN, NaN, NaN, NaN)) = false ->
    np.less_equal (nth i us NaN) (nth j us NaN) = true /\
    (i < j -> np.less (nth i us NaN) (nth j us NaN) = true).
Proof.
  intros Hlen Hnan Hspec.
  assert (Hmax : first_max (map2 masked us grid_cells) j).
  { apply argmax_of_first_max; [|assumption]. apply masked_not_nan, Hnan. }
  assert (Hj : j < length grid_cells).
  { apply argmax_of_lt in Hspec. rewrite map2_length in Hspec; lia. }
  assert (Hun : infeasible (nth j grid_cells (NaN, NaN, NaN, NaN)) = false)
    by (apply argmax_masked_unmasked with (us := us); [lia|assumption]).
  assert (Hval : forall i, i < length grid_cells ->
            infeasible (nth i grid_cells (NaN, NaN, NaN, NaN)) = false ->
            nth i (map2 masked us grid_cells) NaN = nth i us NaN).
  { intros i Hi Hm.
    rewrite map2_nth with (da := NaN) (db := (NaN, NaN, NaN, NaN)) by lia.
    unfold masked. rewrite Hm. reflexivity. }
  intros i Hi Hm.
  destruct Hmax as (_ & Hle & Hlt).
  split.
  - specialize (Hle i). rewrite map2_length in Hle by lia.
    specialize (Hle ltac:(lia)).
    rewrite (Hval i Hi Hm), (Hval j Hj Hun) in Hle. exact Hle.
  - intros Hij. specialize (Hlt i Hij).
    rewrite (Hval i Hi Hm), (Hval j Hj Hun) in Hlt. exact Hlt.
Qed.


End DiscreteSolver.

Section DiscreteSolverWitnesses.

#[local] Existing Instance binary64_range.


End DiscreteSolverWitnesses.

(** ** More on [calc_utility] *)

Section CalcUtilityMore.

Context {ar : Arithmetic}.

Local Open Scope float_scope.

Lemma home_production_B_total (par : B.Par) (HM HF : float) :
  exists H,
    B.home_production par HM HF
    = Ok (H, floored_hours (B.sigma par) HM, floored_hours (B.sigma par) HF).
Proof. exact (home_production_total (forget_eta par) HM HF). Qed.

Lemma utility_B_total (par : B.Par) (LM HM LF HF : float) :
  (B.epsilon par =? 0%R) = false ->
  exists u, B.utility par LM HM LF HF = Ok u.
Proof.
  intros E. unfold B.utility.
  destruct (home_production_B_total par HM HF) as [H ->].
  unfold B.disutility, py.truediv. rewrite E. simpl. eauto.
Qed.

Lemma utility_B_raises (par : B.Par) (LM HM LF HF : float) :
  (B.epsilon par =? 0%R) = true ->
  B.utility par LM HM LF HF = Raise ZeroDivisionError.
Proof.
  intros E. unfold B.utility.
  destruct (home_production_B_total par HM HF) as [H ->].
  unfold B.disutility, py.truediv. rewrite E. reflexivity.
Qed.

(** X3.  On NumPy operands (arrays and NumPy scalars, which is what
    [solve_discrete] and the objectives of [solve_cont] pass), [calc_utility]
    raises for one reason only in both variants: the division [1/epsilon] of
    two Python floats raises [ZeroDivisionError] when [epsilon == 0], and a
    value is returned for every other setting of the parameters and all such
    arguments (negative hours, NaN and the infinities included).  The
    divisions by [sigma] and by [sigma - 1] never raise, being guarded by the
    tests on [sigma]; the remaining operations are NumPy's, which return an
    infinity or NaN where Python's would raise. *)
Theorem X3_calc_utility_raises_only_for_zero_epsilon
        (LM HM LF HF : float) (selfA : A.Model) (selfB : B.Model) :
  (if A.epsilon (A.par selfA) =? 0%R
   then A.calc_utility LM HM LF HF selfA = (Raise ZeroDivisionError, selfA)
   else exists u : float, A.calc_utility LM HM LF HF selfA = (Ok u, selfA)) /\
  (if B.epsilon (B.par selfB) =? 0%R
   then B.calc_utility LM HM LF HF selfB = (Raise ZeroDivisionError, selfB)
   else exists u : float, B.calc_utility LM HM LF HF selfB = (Ok u, selfB)).
Proof.
  split.
  - rewrite calc_utility_run.
    destruct (A.epsilon (A.par selfA) =? 0%R) eqn:E.
    + rewrite utility_raises by exact E. reflexivity.
    + destruct (utility_total (A.par selfA) LM HM LF HF E) as [u ->]. eauto.
  - rewrite calc_utility_B_run.
    destruct (B.epsilon (B.par selfB) =? 0%R) eqn:E.
    + rewrite utility_B_raises by exact E. reflexivity.
    + destruct (utility_B_total (B.par selfB) LM HM LF HF E) as [u ->]. eauto.
Qed.

(** With [alpha = 0.5] home production is the same for [(HM, HF)] and
    [(HF, HM)], and the hours handed back are exchanged. *)
Lemma home_production_symmetric (par : A.Par) (HM HF : float) :
  A.alpha par = Fin 0.5 ->
  exists H,
    A.home_production par HM HF
    = Ok (H, floored_hours (A.sigma par) HM, floored_hours (A.sigma par) HF) /\
    A.home_production par HF HM
    = Ok (H, floored_hours (A.sigma par) HF, floored_hours (A.sigma par) HM).
Proof.
  intros Ha. unfold A.home_production, floored_hours.
  rewrite Ha, one_minus_half.
  destruct (A.sigma par =? 0%R) eqn:E0.
  { eexists. split; [reflexivity|]. rewrite np_minimum_comm. reflexivity. }
  destruct (A.sigma par =? 1%R) eqn:E1.
  { eexists. split; [reflexivity|]. rewrite np_multiply_comm. reflexivity. }
  unfold py.truediv. rewrite E0.
  destruct (A.sigma par - 1%R =? 0%R) eqn:E2.
  - apply sub_one_zero in E2. congruence.
  - cbn [py.bind]. eexists. split; [reflexivity|].
    rewrite np_add_comm. reflexivity.
Qed.

(** X4.  Variant A treats the two members alike: with [alpha = 0.5] and
    equal wages, exchanging the hours of the male and the female member
    leaves the value of [calc_utility] unchanged, for all arguments and all
    other parameters. *)
Theorem X4_calc_utility_symmetric
        (LM HM LF HF : float) (self : A.Model) :
  A.alpha (A.par self) = Fin 0.5 ->
  A.wM (A.par self) = A.wF (A.par self) ->
  A.calc_utility LF HF LM HM self = A.calc_utility LM HM LF HF self.
Proof.
  intros Ha Hw. rewrite !calc_utility_run. f_equal. unfold A.utility.
  destruct (home_production_symmetric _ HM HF Ha) as (H & -> & ->).
  cbn [py.bind]. unfold A.disutility.
  destruct (py.truediv 1%R (A.epsilon (A.par self))) as [inv|x];
    [|reflexivity].
  cbn [py.bind]. rewrite Hw.
  rewrite (np_add_comm (A.wF (A.par self) * LF) (A.wF (A.par self) * LM)).
  rewrite (np_add_comm
             ((LF + floored_hours (A.sigma (A.par self)) HF) ** (1%R + inv)
              / (1%R + inv))).
  reflexivity.
Qed.

End CalcUtilityMore.

Section CalcUtilityWitnesses.

#[local] Existing Instance binary64_range.

Lemma X4_witness :
  A.calc_utility (Fin 6) (Fin 5) (Fin 8) (Fin 4) A.init
  = A.calc_utility (Fin 8) (Fin 4) (Fin 6) (Fin 5) A.init.
Proof.
  apply (@X4_calc_utility_symmetric _ (Fin 8) (Fin 4) (Fin 6) (Fin 5) A.init);
    reflexivity.
Defined.

End CalcUtilityWitnesses.

(** ** More on [solve_cont] and the wage sweep *)

(** A loop over [range(n)] runs to its end when each iteration does, under
    an invariant indexed by the number of iterations done. *)
Lemma for_range_total_indexed {St} (body : nat -> M St unit)
      (Inv : nat -> St -> Prop) (n : nat) (s0 : St) :
  Inv 0 s0 ->
  (forall k s, k < n -> Inv k s ->
     exists s', body k s = (Ok tt, s') /\ Inv (S k) s') ->
  exists s, for_ (range n) body s0 = (Ok tt, s) /\ Inv n s.
Proof.
  intros H0. unfold range. induction n as [|n IH]; intros Hbody.
  - exists s0. split; [reflexivity|exact H0].
  - destruct IH as (s1 & Hrun & H1).
    { intros k s Hk. apply Hbody. lia. }
    destruct (Hbody n s1) as (s2 & Hb & H2); [lia|exact H1|].
    exists s2. split; [|exact H2].
    rewrite seq_S, for_app, Hrun. simpl. unfold bind. rewrite Hb.
    reflexivity.
Qed.

Lemma last_default {T} (l : list T) (d d' : T) :
  l <> [] -> last l d = last l d'.
Proof.
  induction l as [|a [|b l] IH]; intros Hne; [contradiction|reflexivity|].
  change (last (b :: l) d = last (b :: l) d'). apply IH. discriminate.
Qed.

Lemma setitem_same {T} (l : list T) (i : nat) (v : T) :
  nth_error l i = Some v -> py.setitem l i v = Ok l.
Proof.
  revert i. induction l as [|a l IH]; intros [|i] H; simpl in H;
    try discriminate.
  - inversion H. reflexivity.
  - simpl. rewrite (IH i H). reflexivity.
Qed.

Lemma vec_kept_start (v : list float) : vec_kept 0 v v.
Proof. repeat split. lia. Qed.

Lemma vec_kept_step (k : nat) (v0 v v' : list float) (r : float) :
  vec_kept k v0 v -> py.setitem v k r = Ok v' -> vec_kept (S k) v0 v'.
Proof.
  intros (Hk & Hlen & Hnth) Hset.
  apply setitem_Ok in Hset. destruct Hset as (Hr & Hother & Hlen').
  assert (k < length v').
  { apply nth_error_Some. rewrite Hr. discriminate. }
  split; [lia|]. split; [lia|].
  intros i Hi. rewrite Hother by lia. apply Hnth. lia.
Qed.

Lemma set_wF_same (s : A.Model) : A.set_wF (A.wF (A.par s)) s = s.
Proof. destruct s as [[] ?]. reflexivity. Qed.

Lemma set_LM_vec_same (s : A.Model) :
  A.set_LM_vec (A.LM_vec (A.sol s)) s = s.
Proof. destruct s as [? []]. reflexivity. Qed.

Lemma set_HM_vec_same (s : A.Model) :
  A.set_HM_vec (A.HM_vec (A.sol s)) s = s.
Proof. destruct s as [? []]. reflexivity. Qed.

Lemma set_LF_vec_same (s : A.Model) :
  A.set_LF_vec (A.LF_vec (A.sol s)) s = s.
Proof. destruct s as [? []]. reflexivity. Qed.

Lemma set_HF_vec_same (s : A.Model) :
  A.set_HF_vec (A.HF_vec (A.sol s)) s = s.
Proof. destruct s as [? []]. reflexivity. Qed.

Section SweepMore.

Context {ar : Arithmetic}
        {scipy_minimize : optimize.Minimize} {numpy_lstsq : linalg.Lstsq}.

(** X5.  [solve_cont] leaves the object as it was, whatever the optimizer
    does with the objective, and what it returns or raises is a function of
    the parameters alone: the solution namespace and [do_print] play no
    part. *)
Theorem X5_solve_cont_pure (do_print do_print' : bool)
        (self other : A.Model) :
  A.par other = A.par self ->
  snd (A.solve_cont do_print self) = self /\
  snd (A.solve_cont do_print' other) = other /\
  fst (A.solve_cont do_print' other) = fst (A.solve_cont do_print self).
Proof.
  intros Hpar. split; [apply solve_cont_read_only|].
  split; [apply solve_cont_read_only|].
  exact (@solve_cont_par _ _ do_print other self Hpar).
Qed.

Lemma solve_cont_run (do_print : bool) (s : A.Model) :
  A.solve_cont do_print s = (fst (A.solve_cont do_print s), s).
Proof.
  rewrite <- (solve_cont_read_only do_print s) at 3.
  apply surjective_pairing.
Qed.

(** The discrete sweep when [1/epsilon] does not raise. *)
Lemma solve_wF_vec_discrete_run (self : A.Model) :
  (A.epsilon (A.par self) =? 0%R)%fl = false ->
  A.solve_wF_vec true self
  = (Ok tt,
     A.set_wF (last (A.wF_vec (A.par self)) (A.wF (A.par self))) self).
Proof.
  intros E. unfold A.solve_wF_vec. unfold bind at 1, gets at 1.
  match goal with
  | |- for_ _ ?body _ = _ =>
      destruct (@for_range_total_indexed _ body
        (fun k s =>
           s = A.set_wF (last (firstn k (A.wF_vec (A.par self)))
                              (A.wF (A.par self))) self)
        (length (A.wF_vec (A.par self))) self)
        as (s & Hrun & HI)
  end.
  - symmetry. apply set_wF_same.
  - intros k s Hk ->.
    assert (Hw : nth_error (A.wF_vec (A.par self)) k
                 = Some (nth k (A.wF_vec (A.par self)) NaN))
      by (apply nth_error_nth'; exact Hk).
    exists (A.set_wF (nth k (A.wF_vec (A.par self)) NaN) self).
    split.
    + unfold bind at 1, lift at 1.
      change (A.wF_vec (A.par (A.set_wF ?v self)))
        with (A.wF_vec (A.par self)).
      rewrite getitem_nth with (d := NaN) by assumption.
      unfold bind at 1, modify at 1.
      destruct (@solve_discrete_run _
                  (A.par (A.set_wF (nth k (A.wF_vec (A.par self)) NaN) self))
                  E)
        as (us & j & _ & _ & Hsolve).
      unfold bind. rewrite Hsolve by reflexivity. reflexivity.
    + rewrite (firstn_S_nth_error _ _ Hw), last_last. reflexivity.
  - rewrite Hrun, HI, firstn_all. reflexivity.
Qed.

Lemma solve_wF_vec_discrete_raises (self : A.Model) (w : float)
      (rest : list float) :
  (A.epsilon (A.par self) =? 0%R)%fl = true ->
  A.wF_vec (A.par self) = w :: rest ->
  A.solve_wF_vec true self = (Raise ZeroDivisionError, A.set_wF w self).
Proof.
  intros E Hvec. unfold A.solve_wF_vec. unfold bind at 1, gets at 1.
  rewrite Hvec. cbn [length]. unfold range. cbn [seq for_].
  unfold bind at 1. unfold bind at 1, lift at 1. rewrite Hvec.
  cbn [py.getitem nth_error]. unfold bind at 1, modify at 1.
  unfold bind at 1. rewrite solve_discrete_raises by exact E. reflexivity.
Qed.

Lemma solve_wF_vec_empty (discrete : bool) (self : A.Model) :
  A.wF_vec (A.par self) = [] ->
  A.solve_wF_vec discrete self = (Ok tt, self).
Proof.
  intros Hvec. unfold A.solve_wF_vec. unfold bind at 1, gets at 1.
  rewrite Hvec. reflexivity.
Qed.

(** X6.  In discrete mode [solve_wF_vec] amounts to one assignment: when
    [epsilon] is not zero it always runs to its end, and the object it leaves
    is the one it was given with [wF] set to the last entry of [wF_vec] (the
    49^4 utilities computed for each wage leave no other trace).  With an empty
    [wF_vec] it does nothing; with [epsilon == 0] and a non-empty [wF_vec] it
    raises [ZeroDivisionError] in its first iteration, after [wF] was set to
    the first entry. *)
Theorem X6_solve_wF_vec_discrete_is_one_assignment (self : A.Model) :
  ((A.epsilon (A.par self) =? 0%R)%fl = false ->
   A.solve_wF_vec true self
   = (Ok tt,
      A.set_wF (last (A.wF_vec (A.par self)) (A.wF (A.par self))) self)) /\
  (A.wF_vec (A.par self) = [] ->
   A.solve_wF_vec true self = (Ok tt, self)) /\
  (forall w rest,
     (A.epsilon (A.par self) =? 0%R)%fl = true ->
     A.wF_vec (A.par self) = w :: rest ->
     A.solve_wF_vec true self
     = (Raise ZeroDivisionError, A.set_wF w self)).
Proof.
  split; [apply solve_wF_vec_discrete_run|].
  split; [apply solve_wF_vec_empty|].
  intros w rest. apply solve_wF_vec_discrete_raises.
Qed.

(** X7.  The continuous sweep runs to its end only on an object whose four
    solution vectors have at least as many entries as [wF_vec]; it then
    leaves the length of each vector, the entries beyond those it wrote,
    [beta0], [beta1] and every parameter but [wF] as they were. *)
Theorem X7_solve_wF_vec_continuous_shape (self self' : A.Model) :
  A.solve_wF_vec false self = (Ok tt, self') ->
  vec_kept (length (A.wF_vec (A.par self)))
           (A.LM_vec (A.sol self)) (A.LM_vec (A.sol self')) /\
  vec_kept (length (A.wF_vec (A.par self)))
           (A.HM_vec (A.sol self)) (A.HM_vec (A.sol self')) /\
  vec_kept (length (A.wF_vec (A.par self)))
           (A.LF_vec (A.sol self)) (A.LF_vec (A.sol self')) /\
  vec_kept (length (A.wF_vec (A.par self)))
           (A.HF_vec (A.sol self)) (A.HF_vec (A.sol self')) /\
  A.beta0 (A.sol self') = A.beta0 (A.sol self) /\
  A.beta1 (A.sol self') = A.beta1 (A.sol self) /\
  A.par self' = A.par (A.set_wF (A.wF (A.par self')) self).
Proof.
  apply solve_wF_vec_loop
    with (Inv := fun k s =>
      vec_kept k (A.LM_vec (A.sol self)) (A.LM_vec (A.sol s)) /\
      vec_kept k (A.HM_vec (A.sol self)) (A.HM_vec (A.sol s)) /\
      vec_kept k (A.LF_vec (A.sol self)) (A.LF_vec (A.sol s)) /\
      vec_kept k (A.HF_vec (A.sol self)) (A.HF_vec (A.sol s)) /\
      A.beta0 (A.sol s) = A.beta0 (A.sol self) /\
      A.beta1 (A.sol s) = A.beta1 (A.sol self) /\
      A.par s = A.par (A.set_wF (A.wF (A.par s)) self)).
  - repeat (split; [apply vec_kept_start|]).
    split; [reflexivity|]. split; [reflexivity|].
    rewrite set_wF_same. reflexivity.
  - intros k s s' (K0 & K1 & K2 & K3 & B0 & B1 & Hpar)
           (w & res & r0 & r1 & r2 & r3 & v0 & v1 & v2 & v3 &
            _ & _ & _ & _ & _ & _ & S0 & S1 & S2 & S3 & ->).
    cbn [A.set_HF_vec A.set_LF_vec A.set_HM_vec A.set_LM_vec A.set_wF
         A.sol A.par A.LM_vec A.HM_vec A.LF_vec A.HF_vec A.beta0 A.beta1
         A.wF].
    split; [eapply vec_kept_step; eassumption|].
    split; [eapply vec_kept_step; eassumption|].
    split; [eapply vec_kept_step; eassumption|].
    split; [eapply vec_kept_step; eassumption|].
    split; [exact B0|]. split; [exact B1|].
    rewrite Hpar. reflexivity.
Qed.

(** X8.  A sweep that ran to its end can be repeated without effect:
    [solve_wF_vec] run again on the object it left runs to its end and
    leaves that object as it is, in both modes. *)
Theorem X8_solve_wF_vec_idempotent (discrete : bool)
        (self self' : A.Model) :
  A.solve_wF_vec discrete self = (Ok tt, self') ->
  A.solve_wF_vec discrete self' = (Ok tt, self').
Proof.
  intros Hrun. destruct discrete.
  - destruct (A.epsilon (A.par self) =? 0%R)%fl eqn:E.
    + destruct (A.wF_vec (A.par self)) as [|w rest] eqn:Hvec.
      * rewrite solve_wF_vec_empty in Hrun by exact Hvec.
        inversion Hrun. subst self'. apply solve_wF_vec_empty, Hvec.
      * rewrite (solve_wF_vec_discrete_raises self E Hvec) in Hrun.
        discriminate.
    + rewrite solve_wF_vec_discrete_run in Hrun by exact E.
      inversion Hrun as [Hself]. clear Hrun.
      rewrite solve_wF_vec_discrete_run by exact E.
      f_equal. cbn [A.set_wF A.par A.sol A.wF A.wF_vec].
      destruct (A.wF_vec (A.par self)) as [|w rest] eqn:Hvec.
      * reflexivity.
      * rewrite (@last_default _ (w :: rest)
                   (last (w :: rest) (A.wF (A.par self)))
                   (A.wF (A.par self))) by discriminate.
        reflexivity.
  - assert (HI : sweep_invariant false self
                   (length (A.wF_vec (A.par self))) self').
    { revert Hrun. apply solve_wF_vec_loop.
      - split; [reflexivity|]. split; [reflexivity|]. split; [reflexivity|].
        intros _ it w Hit. lia.
      - intros k s s' HI Hstep.
        exact (@sweep_invariant_step _ _ false self k s s' HI Hstep). }
    pose proof (sweep_invariant_wF_vec HI) as Hvec.
    destruct HI as (Hpar & HwF & _ & Hent). rewrite firstn_all in HwF.
    specialize (Hent eq_refl).
    unfold A.solve_wF_vec. unfold bind at 1, gets at 1. rewrite Hvec.
    match goal with
    | |- for_ _ ?body _ = _ =>
        destruct (@for_range_total_indexed _ body
          (fun k s =>
             s = A.set_wF (last (firstn k (A.wF_vec (A.par self)))
                                (A.wF (A.par self'))) self')
          (length (A.wF_vec (A.par self))) self')
          as (s & Hrun2 & HI2)
    end.
    + symmetry. apply set_wF_same.
    + intros k s Hk ->.
      assert (Hw : nth_error (A.wF_vec (A.par self)) k
                   = Some (nth k (A.wF_vec (A.par self)) NaN))
        by (apply nth_error_nth'; exact Hk).
      set (w := nth k (A.wF_vec (A.par self)) NaN) in *.
      destruct (Hent k w Hk Hw)
        as (res & r0 & r1 & r2 & r3 & Hres & (H0 & H1 & H2 & H3) &
            E0 & E1 & E2 & E3).
      exists (A.set_wF w self'). split.
      * unfold bind at 1, lift at 1.
        change (A.wF_vec (A.par (A.set_wF ?v self')))
          with (A.wF_vec (A.par self')).
        rewrite Hvec, getitem_nth with (d := NaN) by assumption.
        fold w. unfold bind at 1, modify at 1.
        change (A.set_wF w (A.set_wF ?v self')) with (A.set_wF w self').
        unfold bind at 1. rewrite solve_cont_run.
        rewrite (@solve_cont_par _ _ false _ _ (Hpar w)), Hres.
        apply getitem_Ok_iff in H0, H1, H2, H3.
        unfold bind at 1, lift at 1. rewrite H0.
        unfold bind at 1, lift at 1.
        change (A.LM_vec (A.sol (A.set_wF w self')))
          with (A.LM_vec (A.sol self')).
        rewrite (setitem_same _ _ E0).
        unfold bind at 1, modify at 1.
        change (A.set_LM_vec (A.LM_vec (A.sol self')) (A.set_wF w self'))
          with (A.set_LM_vec (A.LM_vec (A.sol (A.set_wF w self')))
                             (A.set_wF w self')).
        rewrite set_LM_vec_same.
        unfold bind at 1, lift at 1. rewrite H1.
        unfold bind at 1, lift at 1.
        change (A.HM_vec (A.sol (A.set_wF w self')))
          with (A.HM_vec (A.sol self')).
        rewrite (setitem_same _ _ E1).
        unfold bind at 1, modify at 1.
        change (A.set_HM_vec (A.HM_vec (A.sol self')) (A.set_wF w self'))
          with (A.set_HM_vec (A.HM_vec (A.sol (A.set_wF w self')))
                             (A.set_wF w self')).
        rewrite set_HM_vec_same.
        unfold bind at 1, lift at 1. rewrite H2.
        unfold bind at 1, lift at 1.
        change (A.LF_vec (A.sol (A.set_wF w self')))
          with (A.LF_vec (A.sol self')).
        rewrite (setitem_same _ _ E2).
        unfold bind at 1, modify at 1.
        change (A.set_LF_vec (A.LF_vec (A.sol self')) (A.set_wF w self'))
          with (A.set_LF_vec (A.LF_vec (A.sol (A.set_wF w self')))
                             (A.set_wF w self')).
        rewrite set_LF_vec_same.
        unfold bind at 1, lift at 1. rewrite H3.
        unfold bind at 1, lift at 1.
        change (A.HF_vec (A.sol (A.set_wF w self')))
          with (A.HF_vec (A.sol self')).
        rewrite (setitem_same _ _ E3).
        unfold modify.
        change (A.set_HF_vec (A.HF_vec (A.sol self')) (A.set_wF w self'))
          with (A.set_HF_vec (A.HF_vec (A.sol (A.set_wF w self')))
                             (A.set_wF w self')).
        rewrite set_HF_vec_same. reflexivity.
      * rewrite (firstn_S_nth_error _ _ Hw), last_last. reflexivity.
    + rewrite Hrun2, HI2, firstn_all. f_equal.
      destruct (A.wF_vec (A.par self)) as [|w rest] eqn:Hv.
      * apply set_wF_same.
      * rewrite (@last_default _ (w :: rest) (A.wF (A.par self'))
                   (A.wF (A.par self))) by discriminate.
        rewrite <- HwF. apply set_wF_same.
Qed.

End SweepMore.

Section SweepMoreWitnesses.

#[local] Existing Instance binary64_range.
#[local] Existing Instance reference_minimize.
#[local] Existing Instance reference_lstsq.

Lemma X5_witness :
  snd (A.solve_cont true A.init) = A.init /\
  snd (A.solve_cont false round_trip_model) = round_trip_model /\
  fst (A.solve_cont false round_trip_model)
  = fst (A.solve_cont true A.init).
Proof.
  apply (@X5_solve_cont_pure _ _ true false A.init round_trip_model).
  reflexivity.
Defined.

Lemma X7_witness :
  exists self',
    A.solve_wF_vec false A.init = (Ok tt, self') /\
    length (A.LM_vec (A.sol self')) = 5 /\
    A.par self' = A.par (A.set_wF (A.wF (A.par self')) A.init).
Proof.
  destruct (@solve_wF_vec_continuous_reference _ A.init) as [self' Hrun];
    try reflexivity.
  - apply epsilon_one_nonzero. reflexivity.
  - exists self'. split; [exact Hrun|].
    destruct (@X7_solve_wF_vec_continuous_shape _ _ A.init self' Hrun)
      as ((_ & Hlen & _) & _ & _ & _ & _ & _ & Hpar).
    split; [exact Hlen|exact Hpar].
Defined.

Lemma X8_witness :
  exists self',
    A.solve_wF_vec false A.init = (Ok tt, self') /\
    A.solve_wF_vec false self' = (Ok tt, self').
Proof.
  destruct (@solve_wF_vec_continuous_reference _ A.init) as [self' Hrun];
    try reflexivity.
  - apply epsilon_one_nonzero. reflexivity.
  - exists self'. split; [exact Hrun|].
    apply (@X8_solve_wF_vec_idempotent _ _ false A.init self' Hrun).
Defined.

End SweepMoreWitnesses.

(** ** More on the regression and the calibration *)

Section FloatSquares.

Context {ar : Arithmetic}.

Local Open Scope float_scope.

Lemma Int_part_two : Int_part 2 = 2%Z.
Proof.
  unfold Int_part. rewrite <- (tech_up 2 3); [reflexivity| |]; simpl; lra.
Qed.

(** [x ** 2] is [x * x], special values included. *)
Lemma power_two (x : float) : x ** 2%R = x * x.
Proof.
  destruct x as [| | |a].
  - unfold np.power. destruct (Req_dec_T 2 0); [lra|reflexivity].
  - unfold np.power. destruct (Req_dec_T 2 0); [lra|].
    destruct (Rlt_dec 2 0); [lra|].
    unfold np.is_odd_integer. rewrite Int_part_two.
    rewrite andb_false_r. reflexivity.
  - unfold np.power. destruct (Req_dec_T 2 0); [lra|].
    destruct (Rlt_dec 2 0); [lra|reflexivity].
  - rewrite multiply_rnd.
    destruct (Rtotal_order a 0) as [Hlt|[->|Hgt]].
    + unfold np.power. destruct (Req_dec_T 2 0); [lra|].
      unfold np.power_fin. rewrite Rsign_neg by exact Hlt.
      unfold np.is_integer. rewrite Int_part_two.
      destruct (Req_dec_T (IZR 2) 2); [|lra].
      f_equal. simpl. ring.
    + rewrite power_zero_pos by lra.
      replace (0 * 0)%R with 0%R by ring. symmetry. apply rnd_zero.
    + rewrite power_pos_rnd by lra. f_equal.
      replace 2%R with (INR 2) by (simpl; lra).
      rewrite Rpower_pow by lra. simpl. ring.
Qed.

Lemma square_zero : Fin 0 * Fin 0 = Fin 0.
Proof.
  rewrite multiply_rnd. replace (0 * 0)%R with 0%R by ring. apply rnd_zero.
Qed.

(** A square is NaN, plus infinity or a non-negative real. *)
Lemma square_cases (x : float) :
  x * x = NaN \/ x * x = PInf \/
  exists r : R, x = Fin r /\ x * x = Fin (r * r).
Proof.
  destruct x as [| | |a]; [left; reflexivity|right; left; reflexivity..|].
  rewrite multiply_rnd.
  destruct (@rnd_nonneg _ (a * a)%R) as [H|H]; [apply Rle_0_sqr| |];
    rewrite H; eauto.
Qed.

Lemma subtract_zero (t b : float) :
  t - b = Fin 0 <-> exists r : R, t = Fin r /\ b = Fin r.
Proof.
  split.
  - destruct t as [| | |t], b as [| | |b]; try discriminate.
    rewrite subtract_rnd. intros H.
    destruct (rnd_cases (t - b)) as [E|[[E _]|[E _]]]; rewrite E in H;
      try discriminate.
    exists t. split; [reflexivity|]. f_equal.
    assert (t - b = 0)%R by congruence. lra.
  - intros (r & -> & ->). rewrite subtract_rnd.
    replace (r - r)%R with 0%R by ring. apply rnd_zero.
Qed.

(** A sum of two squares is never negative, and is zero only when both
    squared numbers are the real zero. *)
Lemma sum_of_squares (x y : float) :
  np.less (x * x + y * y) (Fin 0) = false /\
  (x * x + y * y = Fin 0 <-> x = Fin 0 /\ y = Fin 0).
Proof.
  destruct (square_cases x) as [Hx|[Hx|(a & -> & Hx)]],
           (square_cases y) as [Hy|[Hy|(b & -> & Hy)]];
    rewrite Hx, Hy; cbn [np.add];
    try (split; [reflexivity|split; [discriminate|]]).
  - intros [H _]. rewrite H, square_zero in Hx. discriminate.
  - intros [H _]. rewrite H, square_zero in Hx. discriminate.
  - intros [H _]. rewrite H, square_zero in Hx. discriminate.
  - intros [H _]. rewrite H, square_zero in Hx. discriminate.
  - intros [H _]. rewrite H, square_zero in Hx. discriminate.
  - intros [H _]. rewrite H, square_zero in Hx. discriminate.
  - intros [_ H]. rewrite H, square_zero in Hy. discriminate.
  - intros [_ H]. rewrite H, square_zero in Hy. discriminate.
  - assert (0 <= a * a)%R by apply Rle_0_sqr.
    assert (0 <= b * b)%R by apply Rle_0_sqr.
    destruct (@rnd_nonneg _ (a * a + b * b)%R) as [E|E]; [lra| |];
      rewrite E.
    + split.
      * unfold np.less. destruct (Rlt_dec (a * a + b * b) 0); [lra|reflexivity].
      * split.
        -- intros H1.
           assert (H2 : (a * a + b * b)%R = 0%R) by congruence.
           assert (a * a = 0)%R by lra. assert (b * b = 0)%R by lra.
           split; f_equal; apply Rsqr_0_uniq; unfold Rsqr; assumption.
        -- intros [Ha Hb].
           assert (a = 0%R) by congruence. assert (b = 0%R) by congruence.
           subst a b. f_equal. ring.
    + split; [reflexivity|]. split; [discriminate|].
      intros [Ha Hb].
      assert (a = 0%R) by congruence. assert (b = 0%R) by congruence.
      subst a b. exfalso.
      replace (0 * 0 + 0 * 0)%R with 0%R in E by ring.
      rewrite rnd_zero in E. discriminate.
Qed.

End FloatSquares.

Section CalibrationMore.

Context {ar : Arithmetic}
        {scipy_minimize : optimize.Minimize} {numpy_lstsq : linalg.Lstsq}.

Local Open Scope float_scope.

(** The sweep that ran to its end, by its invariant. *)
Lemma solve_wF_vec_invariant (discrete : bool) (self self' : A.Model) :
  A.solve_wF_vec discrete self = (Ok tt, self') ->
  sweep_invariant discrete self (length (A.wF_vec (A.par self))) self'.
Proof.
  apply solve_wF_vec_loop.
  - split; [reflexivity|]. split; [reflexivity|]. split; [reflexivity|].
    intros _ it w Hit. lia.
  - intros k s s'. apply sweep_invariant_step.
Qed.

(** A trial that returned went through each of its steps. *)
Lemma est_returns (x : list float) (v : float) (self self' : A.Model) :
  A.est x self = (Ok v, self') ->
  exists (a s : float) (swept : A.Model) (b0 b1 : float),
    nth_error x 0 = Some a /\ nth_error x 1 = Some s /\
    A.solve_wF_vec false (A.set_sigma s (A.set_alpha a self))
    = (Ok tt, swept) /\
    self' = A.set_betas b0 b1 swept /\
    v = objective_A self'.
Proof.
  intros H. unfold A.est in H.
  apply bind_Ok in H. destruct H as (a & s1 & H1 & H).
  apply lift_Ok in H1. destruct H1 as [Ha ->].
  apply bind_Ok in H. destruct H as (u1 & s2 & H2 & H).
  apply modify_Ok in H2. subst s2.
  apply bind_Ok in H. destruct H as (s & s3 & H3 & H).
  apply lift_Ok in H3. destruct H3 as [Hs ->].
  apply bind_Ok in H. destruct H as (u2 & s4 & H4 & H).
  apply modify_Ok in H4. subst s4.
  apply bind_Ok in H. destruct H as (u3 & swept & Hsweep & H).
  destruct u3.
  apply bind_Ok in H. destruct H as (u4 & s6 & Hreg & H).
  destruct u4.
  apply run_regression_Ok in Hreg. destruct Hreg as (b0 & b1 & Hls & ->).
  unfold bind, gets, ret in H. inversion H. subst.
  exists a, s, swept, b0, b1.
  apply getitem_Ok_iff in Ha, Hs. repeat split; assumption.
Qed.

Lemma solve_wF_vec_keeps (P : A.Model -> Prop) (discrete : bool) :
  (forall v s, P s -> P (A.set_wF v s)) ->
  (forall v s, P s -> P (A.set_LM_vec v s)) ->
  (forall v s, P s -> P (A.set_HM_vec v s)) ->
  (forall v s, P s -> P (A.set_LF_vec v s)) ->
  (forall v s, P s -> P (A.set_HF_vec v s)) ->
  preserves P (A.solve_wF_vec discrete).
Proof.
  intros HwF HLM HHM HLF HHF.
  unfold A.solve_wF_vec. keep; auto.
  - apply read_only_preserves, solve_discrete_read_only.
  - apply read_only_preserves, solve_cont_read_only.
Qed.

Lemma run_regression_keeps (P : A.Model -> Prop) :
  (forall b0 b1 s, P s -> P (A.set_betas b0 b1 s)) ->
  preserves P A.run_regression.
Proof.
  intros Hb. unfold A.run_regression.
  apply preserves_bind; [apply preserves_gets|]. intros par.
  apply preserves_bind; [apply preserves_gets|]. intros sol.
  destruct (linalg.lstsq _ _) as [|b0 [|b1 [|b2 l]]];
    try apply preserves_raise.
  apply preserves_modify. auto.
Qed.

(** X10.  How a trial uses its argument.  [est] reads [x[0]] and [x[1]]
    only.  On an empty [x] it raises [IndexError] and the object is as
    before; on an [x] of one entry it raises [IndexError] after [alpha] was
    overwritten with that entry.  On a longer [x] the entries after the
    second play no part, and whatever happens next (the sweep or the
    regression may raise) the object is left with [alpha = x[0]],
    [sigma = x[1]] and every other parameter but [wF] as before; if the trial
    returns, [wF] is the last entry of [wF_vec]. *)
Theorem X10_est_argument (self : A.Model) :
  A.est [] self = (Raise IndexError, self) /\
  (forall a, A.est [a] self = (Raise IndexError, A.set_alpha a self)) /\
  (forall a s rest,
     A.est (a :: s :: rest) self = A.est [a; s] self /\
     par_up_to_wF (snd (A.est (a :: s :: rest) self))
                  (A.set_sigma s (A.set_alpha a self)) /\
     (forall v, fst (A.est (a :: s :: rest) self) = Ok v ->
        A.wF (A.par (snd (A.est (a :: s :: rest) self)))
        = last (A.wF_vec (A.par self)) (A.wF (A.par self)))).
Proof.
  split; [reflexivity|]. split; [reflexivity|].
  intros a s rest. split; [reflexivity|]. split.
  - unfold A.est. unfold bind at 1, lift at 1. cbn [py.getitem nth_error].
    unfold bind at 1, modify at 1.
    unfold bind at 1, lift at 1. cbn [py.getitem nth_error].
    unfold bind at 1, modify at 1.
    match goal with
    | |- par_up_to_wF (snd (?c ?st)) ?t =>
        cut (preserves (fun s1 => par_up_to_wF s1 t) c);
        [intros Hp; apply (Hp st); intros w; reflexivity|]
    end.
    apply preserves_bind;
      [apply solve_wF_vec_keeps; intros v s0 H w; apply (H w)|].
    intros _.
    apply preserves_bind;
      [apply run_regression_keeps; intros b0 b1 s0 H w; apply (H w)|].
    intros _. keep.
  - intros v Hv.
    destruct (A.est (a :: s :: rest) self) as [r self'] eqn:Hrun.
    simpl in Hv. subst r. simpl snd.
    apply est_returns in Hrun.
    destruct Hrun as (a' & s' & swept & b0 & b1 & Ha & Hs & Hsweep & -> & _).
    simpl in Ha, Hs. inversion Ha. inversion Hs. subst a' s'.
    apply solve_wF_vec_invariant in Hsweep.
    destruct Hsweep as (_ & HwF & _). rewrite firstn_all in HwF.
    exact HwF.
Qed.

(** X11.  The value a trial returns is a squared distance: it is the sum of
    the squares of [beta0_target - beta0] and [beta1_target - beta1] on the
    object the trial leaves; it is never negative (it is NaN as soon as a
    coefficient is); and it is zero exactly when both coefficients are real
    numbers equal to their targets. *)
Theorem X11_est_objective_is_squared_distance
        (x : list float) (v : float) (self self' : A.Model) :
  A.est x self = (Ok v, self') ->
  let d0 := A.beta0_target (A.par self') - A.beta0 (A.sol self') in
  let d1 := A.beta1_target (A.par self') - A.beta1 (A.sol self') in
  v = d0 * d0 + d1 * d1 /\
  np.less v (Fin 0) = false /\
  (np.isnan (A.beta0 (A.sol self')) = true -> v = NaN) /\
  (v = Fin 0 <->
   exists b0 b1 : R,
     A.beta0_target (A.par self') = Fin b0 /\
     A.beta0 (A.sol self') = Fin b0 /\
     A.beta1_target (A.par self') = Fin b1 /\
     A.beta1 (A.sol self') = Fin b1).
Proof.
  intros Hrun d0 d1. apply est_returns in Hrun.
  destruct Hrun as (_ & _ & _ & _ & _ & _ & _ & _ & _ & Hv).
  assert (Hsq : v = d0 * d0 + d1 * d1).
  { rewrite Hv. unfold objective_A. rewrite !power_two. reflexivity. }
  split; [exact Hsq|]. rewrite Hsq.
  destruct (sum_of_squares d0 d1) as [Hneg Hzero].
  split; [exact Hneg|]. split.
  - intros Hnan. apply isnan_true in Hnan. unfold d0. rewrite Hnan.
    destruct (A.beta0_target (A.par self')); reflexivity.
  - rewrite Hzero. unfold d0, d1. rewrite !subtract_zero. split.
    + intros [(b0 & H0 & H0') (b1 & H1 & H1')]. exists b0, b1. auto.
    + intros (b0 & b1 & H0 & H0' & H1 & H1'). split; eauto.
Qed.

(** X12.  [run_regression] assigns [beta0] and [beta1] and nothing else,
    or raises [ValueError] and assigns nothing.  What it does is a function
    of [wF_vec], [wM], [HF_vec] and [HM_vec]: two objects that agree on
    these are given the same coefficients.  Run again on the object it left,
    it does the same and leaves that object as it is. *)
Theorem X12_run_regression_reads_and_writes (s1 s2 : A.Model) :
  A.wF_vec (A.par s1) = A.wF_vec (A.par s2) ->
  A.wM (A.par s1) = A.wM (A.par s2) ->
  A.HF_vec (A.sol s1) = A.HF_vec (A.sol s2) ->
  A.HM_vec (A.sol s1) = A.HM_vec (A.sol s2) ->
  (A.run_regression s1 = (Raise ValueError, s1) /\
   A.run_regression s2 = (Raise ValueError, s2) \/
   exists b0 b1 : float,
     A.run_regression s1 = (Ok tt, A.set_betas b0 b1 s1) /\
     A.run_regression s2 = (Ok tt, A.set_betas b0 b1 s2)) /\
  A.run_regression (snd (A.run_regression s1))
  = (fst (A.run_regression s1), snd (A.run_regression s1)).
Proof.
  intros Hvec HwM HHF HHM.
  assert (Hx : A.regressor (A.par s1) = A.regressor (A.par s2))
    by (unfold A.regressor; rewrite Hvec, HwM; reflexivity).
  assert (Hy : A.regressand (A.sol s1) = A.regressand (A.sol s2))
    by (unfold A.regressand; rewrite HHF, HHM; reflexivity).
  unfold A.run_regression. unfold bind, gets. rewrite <- Hx, <- Hy.
  destruct (linalg.lstsq (A.design_matrix (A.regressor (A.par s1)))
                         (A.regressand (A.sol s1)))
    as [|b0 [|b1 [|b2 l]]] eqn:E; unfold raise, modify; cbn [fst snd].
  - rewrite E. split; [left; split; reflexivity|reflexivity].
  - rewrite E. split; [left; split; reflexivity|reflexivity].
  - change (A.regressor (A.par (A.set_betas b0 b1 s1)))
      with (A.regressor (A.par s1)).
    change (A.regressand (A.sol (A.set_betas b0 b1 s1)))
      with (A.regressand (A.sol s1)).
    rewrite E. split; [right; exists b0, b1; split; reflexivity|reflexivity].
  - rewrite E. split; [left; split; reflexivity|reflexivity].
Qed.

Lemma stable_shape_stable (P : A.Model -> Prop) :
  stable P -> shape_stable P.
Proof.
  intros (H1 & H2 & H3 & H4 & H5 & H6 & H7 & H8).
  repeat split; auto.
Qed.

Lemma preserves_setitem_then {T} (P : A.Model -> Prop)
      (get : A.Model -> list float)
      (set : list float -> A.Model -> A.Model)
      (it : nat) (r : float) (k : M A.Model T) :
  (forall v s, P s -> length v = length (get s) -> P (set v s)) ->
  preserves P k ->
  preserves P
    (bind (fun self => lift (py.setitem (get self) it r) self)
          (fun v => bind (modify (set v)) (fun _ => k))).
Proof.
  intros Hset Hk s Hs. unfold bind at 1, lift.
  destruct (py.setitem (get s) it r) as [v|e] eqn:E; [|exact Hs].
  unfold bind, modify. apply Hk, Hset; [exact Hs|].
  apply setitem_Ok in E. apply E.
Qed.

Lemma preserves_setitem_last (P : A.Model -> Prop)
      (get : A.Model -> list float)
      (set : list float -> A.Model -> A.Model)
      (it : nat) (r : float) :
  (forall v s, P s -> length v = length (get s) -> P (set v s)) ->
  preserves P
    (bind (fun self => lift (py.setitem (get self) it r) self)
          (fun v => modify (set v))).
Proof.
  intros Hset s Hs. unfold bind, lift.
  destruct (py.setitem (get s) it r) as [v|e] eqn:E; [|exact Hs].
  unfold modify. apply Hset; [exact Hs|].
  apply setitem_Ok in E. apply E.
Qed.

Lemma solve_wF_vec_shape (P : A.Model -> Prop) (discrete : bool) :
  shape_stable P -> preserves P (A.solve_wF_vec discrete).
Proof.
  intros (HwF & _ & _ & HLM & HHM & HLF & HHF & _).
  unfold A.solve_wF_vec.
  apply preserves_bind; [apply preserves_gets|]. intros size.
  apply preserves_for. intros it.
  apply preserves_bind; [intros ? ?; assumption|]. intros w.
  apply preserves_bind; [apply preserves_modify; auto|]. intros _.
  destruct discrete.
  - apply preserves_bind;
      [apply read_only_preserves, solve_discrete_read_only|].
    intros res. apply preserves_ret.
  - apply preserves_bind;
      [apply read_only_preserves, solve_cont_read_only|].
    intros res.
    apply preserves_bind; [apply preserves_lift|]. intros r0.
    apply (@preserves_setitem_then _ P (fun s => A.LM_vec (A.sol s))
             A.set_LM_vec it r0); [exact HLM|].
    apply preserves_bind; [apply preserves_lift|]. intros r1.
    apply (@preserves_setitem_then _ P (fun s => A.HM_vec (A.sol s))
             A.set_HM_vec it r1); [exact HHM|].
    apply preserves_bind; [apply preserves_lift|]. intros r2.
    apply (@preserves_setitem_then _ P (fun s => A.LF_vec (A.sol s))
             A.set_LF_vec it r2); [exact HLF|].
    apply preserves_bind; [apply preserves_lift|]. intros r3.
    apply (@preserves_setitem_last P (fun s => A.HF_vec (A.sol s))
             A.set_HF_vec it r3). exact HHF.
Qed.

Lemma est_shape (P : A.Model -> Prop) (x : list float) :
  shape_stable P -> preserves P (A.est x).
Proof.
  intros HP. pose proof HP as (_ & Ha & Hs & _ & _ & _ & _ & Hb).
  unfold A.est.
  apply preserves_bind; [apply preserves_lift|]. intros x0.
  apply preserves_bind; [apply preserves_modify; auto|]. intros _.
  apply preserves_bind; [apply preserves_lift|]. intros x1.
  apply preserves_bind; [apply preserves_modify; auto|]. intros _.
  apply preserves_bind; [apply solve_wF_vec_shape, HP|]. intros _.
  apply preserves_bind; [apply run_regression_keeps, Hb|]. intros _.
  keep.
Qed.

Lemma call_shape (P : A.Model -> Prop) (self self' : A.Model) :
  shape_stable P -> call self self' -> P self -> P self'.
Proof.
  intros HP Hcall Hs. destruct Hcall.
  - rewrite calc_utility_read_only. exact Hs.
  - rewrite solve_discrete_read_only. exact Hs.
  - rewrite solve_cont_read_only. exact Hs.
  - apply solve_wF_vec_shape; assumption.
  - apply run_regression_keeps; [apply HP|assumption].
  - revert Hs. unfold A.estimate.
    apply preserves_bind; [|intros res; apply preserves_ret].
    apply preserves_minimize. intros v. apply est_shape, HP.
  - apply est_shape; assumption.
Qed.

Lemma default_shape_stable : shape_stable default_shape.
Proof.
  unfold shape_stable, default_shape.
  repeat match goal with |- _ /\ _ => split end;
    intros; cbn [A.set_wF A.set_alpha A.set_sigma A.set_LM_vec A.set_HM_vec
                 A.set_LF_vec A.set_HF_vec A.set_betas A.par A.sol
                 A.rho A.nu A.epsilon A.omega A.wM A.wF_vec A.beta0_target
                 A.beta1_target A.LM_vec A.HM_vec A.LF_vec A.HF_vec];
    intuition congruence.
Qed.

(** X13.  Every object reached from the default construction by calls of the
    methods of the class, in any order, with any arguments and whether they
    return or raise, keeps the default [rho], [nu], [epsilon], [omega], [wM],
    [wF_vec] and targets, and four solution vectors of five entries.  So the
    arrays [run_regression] combines element-wise are of one shape: regressor
    and regressand have five entries each. *)
Theorem X13_reachable_shape (self : A.Model) :
  reachable self ->
  default_shape self /\
  length (A.regressor (A.par self)) = 5 /\
  length (A.regressand (A.sol self)) = 5.
Proof.
  intros Hr.
  assert (HS : default_shape self).
  { induction Hr as [|self self' _ IH Hcall].
    - unfold default_shape. repeat split.
    - apply (call_shape default_shape_stable Hcall IH). }
  split; [exact HS|].
  destruct HS as (_ & _ & _ & _ & _ & Hvec & _ & _ & _ & HHM & _ & HHF).
  unfold A.regressor, A.regressand. rewrite !length_map.
  split; [rewrite Hvec; reflexivity|].
  rewrite map2_length; congruence.
Qed.

Lemma same_frame_shape_stable (t : A.Model) :
  shape_stable (fun s => same_frame s t).
Proof.
  unfold shape_stable, same_frame.
  repeat match goal with |- _ /\ _ => split end;
    intros;
    repeat match goal with H : _ /\ _ |- _ => destruct H end;
    repeat match goal with |- _ /\ _ => split end;
    intros;
    cbn [A.set_wF A.set_alpha A.set_sigma A.set_LM_vec A.set_HM_vec
         A.set_LF_vec A.set_HF_vec A.set_betas A.par A.sol
         A.LM_vec A.HM_vec A.LF_vec A.HF_vec] in *;
    try congruence;
    match goal with H : forall w a g, _ = _ |- _ => apply (H w a g) end.
Qed.

(** X14.  Whatever the optimizer does with the objective, and whether it
    returns or raises, [estimate] changes no parameter but [alpha], [sigma]
    and [wF], and changes the length of no solution vector. *)
Theorem X14_estimate_frame
        (alpha sigma : option float) (do_print : bool) (self : A.Model) :
  same_frame (snd (A.estimate alpha sigma do_print self)) self.
Proof.
  cut (preserves (fun s => same_frame s self)
                 (A.estimate alpha sigma do_print)).
  { intros Hp. apply (Hp self). repeat split. }
  unfold A.estimate.
  apply preserves_bind; [|intros res; apply preserves_ret].
  apply preserves_minimize. intros v.
  apply est_shape, same_frame_shape_stable.
Qed.

End CalibrationMore.

Section CalibrationMoreWitnesses.

#[local] Existing Instance binary64_range.
#[local] Existing Instance reference_minimize.
#[local] Existing Instance reference_lstsq.

Lemma X11_witness :
  exists v self',
    A.est [Fin 0.5; Fin 1.0] round_trip_model = (Ok v, self') /\
    np.less v (Fin 0) = false.
Proof.
  destruct (A.est [Fin 0.5; Fin 1.0] round_trip_model)
    as [[v|e] self'] eqn:Hrun.
  - exists v, self'. split; [reflexivity|].
    apply (@X11_est_objective_is_squared_distance _ _ _
             [Fin 0.5; Fin 1.0] v round_trip_model self' Hrun).
  - exfalso. revert Hrun. unfold A.est.
    unfold bind at 1, lift at 1. cbn [py.getitem nth_error].
    unfold bind at 1, modify at 1.
    unfold bind at 1, lift at 1. cbn [py.getitem nth_error].
    unfold bind at 1, modify at 1.
    destruct (@solve_wF_vec_continuous_reference _
                (A.set_sigma (Fin 1.0) (A.set_alpha (Fin 0.5)
                   round_trip_model)))
      as [swept Hsweep]; try reflexivity.
    { apply epsilon_one_nonzero. reflexivity. }
    unfold bind at 1. rewrite Hsweep.
    unfold bind at 1. unfold A.run_regression.
    unfold bind at 1, gets at 1. unfold bind at 1, gets at 1.
    cbn [linalg.lstsq reference_lstsq]. unfold lstsq_normal_equations.
    unfold modify, bind, gets, ret. discriminate.
Defined.

Lemma X12_witness :
  exists b0 b1 : float,
    A.run_regression A.init = (Ok tt, A.set_betas b0 b1 A.init) /\
    A.run_regression (A.set_wF (Fin 1.2) A.init)
    = (Ok tt, A.set_betas b0 b1 (A.set_wF (Fin 1.2) A.init)).
Proof.
  destruct (@X12_run_regression_reads_and_writes _ _
              A.init (A.set_wF (Fin 1.2) A.init)
              eq_refl eq_refl eq_refl eq_refl) as [[[H _]|H] _].
  - exfalso. revert H. unfold A.run_regression, bind, gets.
    cbn [linalg.lstsq reference_lstsq]. unfold lstsq_normal_equations.
    unfold modify. discriminate.
  - exact H.
Defined.

Lemma X13_witness :
  default_shape (snd (A.est [Fin 0.3; Fin 0.7] A.init)).
Proof.
  apply (@X13_reachable_shape _ _ _).
  apply reachable_call with (self := A.init);
    [apply reachable_init|apply call_est].
Defined.

End CalibrationMoreWitnesses.

(** ** Variant B *)

Section VariantB.

Context {ar : Arithmetic}
        {scipy_minimize : optimize.Minimize} {numpy_lstsq : linalg.Lstsq}.

Local Open Scope float_scope.

Lemma calc_utility_B_read_only (LM HM LF HF : float) :
  read_only (B.calc_utility LM HM LF HF).
Proof. intros s. rewrite calc_utility_B_run. reflexivity. Qed.

Lemma calc_utility_array_B_read_only (LM HM LF HF : list float) :
  read_only (B.calc_utility_array LM HM LF HF).
Proof.
  revert HM LF HF. induction LM as [|a LM IH]; intros [|b HM] [|c LF] [|d HF];
    try (intros s; reflexivity).
  apply preserves_read_only. intros s0. simpl.
  apply preserves_bind; [apply read_only_preserves, calc_utility_B_read_only|].
  intros u. apply preserves_bind; [apply read_only_preserves, IH|].
  intros us. apply preserves_ret.
Qed.

Lemma solve_discrete_B_read_only (do_print : bool) :
  read_only (B.solve_discrete do_print).
Proof.
  apply preserves_read_only. intros s0.
  unfold B.solve_discrete, nparray.meshgrid. cbv beta iota zeta.
  apply preserves_bind;
    [apply read_only_preserves, calc_utility_array_B_read_only|].
  intros u. keep.
Qed.

Lemma solve_cont_B_read_only (do_print : bool) :
  read_only (B.solve_cont do_print).
Proof.
  apply preserves_read_only. intros s0. unfold B.solve_cont.
  apply preserves_bind; [|intros res; apply preserves_ret].
  apply preserves_minimize. intros v.
  repeat (apply preserves_bind; [apply preserves_lift|intros ?]).
  apply preserves_bind;
    [apply read_only_preserves, calc_utility_B_read_only|].
  intros u. apply preserves_ret.
Qed.

Lemma calc_utility_array_B_run (par : B.Par)
      (cs : list (float * float * float * float)) :
  (B.epsilon par =? 0%R) = false ->
  exists us,
    Forall2 (fun t u => utility_at_B par t = Ok u) cs us /\
    forall self, B.par self = par ->
      B.calc_utility_array
        (map (fun t => let '(a, b, c, d) := t in a) cs)
        (map (fun t => let '(a, b, c, d) := t in b) cs)
        (map (fun t => let '(a, b, c, d) := t in c) cs)
        (map (fun t => let '(a, b, c, d) := t in d) cs) self
      = (Ok us, self).
Proof.
  intros E. induction cs as [|[[[a b] c] d] cs (us & Hall & Hrun)].
  - exists []. split; [constructor|reflexivity].
  - destruct (utility_B_total par a b c d E) as [u Hu].
    exists (u :: us). split; [constructor; assumption|].
    intros self Hpar. simpl. unfold bind at 1.
    rewrite calc_utility_B_run, Hpar, Hu.
    unfold bind at 1. rewrite (Hrun self Hpar). reflexivity.
Qed.

(** [solve_discrete] of variant B runs to its end whenever [1/epsilon] does
    not raise. *)
Lemma solve_discrete_B_run (par : B.Par) :
  (B.epsilon par =? 0%R) = false ->
  exists us j,
    Forall2 (fun t u => utility_at_B par t = Ok u) grid_cells us /\
    argmax_of (map2 masked us grid_cells) j /\
    forall do_print self, B.par self = par ->
      B.solve_discrete do_print self
      = (Ok (opt_of_B (nth j grid_cells (NaN, NaN, NaN, NaN))), self).
Proof.
  intros E.
  destruct (calc_utility_array_B_run par grid_cells E) as (us & Hall & Hrun).
  assert (Hlen : length (map2 masked us grid_cells) = length grid_cells).
  { rewrite map2_length; apply Forall2_length in Hall; lia. }
  destruct (@argmax_spec (map2 masked us grid_cells)) as (j & Hj & Hspec).
  { intros H. rewrite H in Hlen. rewrite length_grid_cells in Hlen.
    simpl length in Hlen. lia. }
  assert (Hlt : j < length grid_cells)
    by (rewrite <- Hlen; apply argmax_of_lt; assumption).
  exists us, j. split; [assumption|]. split; [assumption|].
  intros do_print self Hpar. specialize (Hrun self Hpar).
  unfold B.solve_discrete, nparray.meshgrid.
  cbv beta iota zeta.
  change (nparray.linspace 0 24 49) with grid.
  rewrite !ravel_grid. fold grid_cells.
  clear Hall Hspec Hlen. revert Hrun Hj Hlt.
  generalize grid_cells. intros cs Hrun Hj Hlt.
  unfold bind at 1. rewrite Hrun.
  rewrite !map2_map_map, !map_map, map2_map_map.
  unfold nparray.mask_assign. rewrite map2_map_r.
  rewrite map2_ext with (g := masked)
    by (intros u [[[a b] c] d]; reflexivity).
  unfold bind at 1, lift at 1. rewrite Hj.
  repeat (unfold bind at 1, lift at 1;
          rewrite getitem_nth with (d := NaN) by (rewrite length_map; exact Hlt);
          rewrite nth_map_in_range with (d' := (NaN, NaN, NaN, NaN)) by exact Hlt).
  unfold ret.
  destruct (nth j cs (NaN, NaN, NaN, NaN)) as [[[a b] c] d].
  reflexivity.
Qed.

Lemma solve_discrete_B_raises (do_print : bool) (self : B.Model) :
  (B.epsilon (B.par self) =? 0%R) = true ->
  B.solve_discrete do_print self = (Raise ZeroDivisionError, self).
Proof.
  intros E.
  unfold B.solve_discrete, nparray.meshgrid. cbv beta iota zeta.
  change (nparray.linspace 0 24 49) with grid.
  rewrite !ravel_grid. fold grid_cells.
  pose proof length_grid_cells as Hlen. revert Hlen.
  generalize grid_cells. intros [|[[[a b] c] d] cs] Hlen.
  - simpl length in Hlen. lia.
  - cbn [map B.calc_utility_array]. unfold bind at 1. unfold bind at 1.
    rewrite calc_utility_B_run.
    rewrite utility_B_raises by exact E. reflexivity.
Qed.

Lemma choice_of_B_opt_of_B (t : float * float * float * float) :
  choice_of_B (opt_of_B t) = opt_of t.
Proof. destruct t as [[[a b] c] d]. reflexivity. Qed.

(** X15.  [solve_discrete] of variant B has the outcomes of that of variant
    A, whatever the parameters ([eta] included): with [epsilon == 0] it raises
    [ZeroDivisionError]; otherwise it returns a Choice of four grid values
    that respects both time budgets.  The object is left as it was in both
    cases. *)
Theorem X15_solve_discrete_B_outcomes (do_print : bool) (self : B.Model) :
  ((B.epsilon (B.par self) =? 0%R) = true /\
   B.solve_discrete do_print self = (Raise ZeroDivisionError, self)) \/
  ((B.epsilon (B.par self) =? 0%R) = false /\
   exists c : B.Opt,
     B.solve_discrete do_print self = (Ok c, self) /\
     (B.LM c + B.HM c <=? 24%R) = true /\
     (B.LF c + B.HF c <=? 24%R) = true /\
     on_grid (B.LM c) /\ on_grid (B.HM c) /\
     on_grid (B.LF c) /\ on_grid (B.HF c)).
Proof.
  destruct (B.epsilon (B.par self) =? 0%R) eqn:E.
  - left. split; [reflexivity|]. apply solve_discrete_B_raises. exact E.
  - right. split; [reflexivity|].
    destruct (solve_discrete_B_run (B.par self) E)
      as (us & j & Hall & Hspec & Hrun).
    exists (opt_of_B (nth j grid_cells (NaN, NaN, NaN, NaN))).
    split; [apply Hrun; reflexivity|].
    assert (Hlen : length us = length grid_cells)
      by (symmetry; apply (Forall2_length Hall)).
    assert (Hfeas : feasible (opt_of (nth j grid_cells (NaN, NaN, NaN, NaN))))
      by (apply argmax_masked_feasible with (us := us); assumption).
    assert (Hgrid : In (nth j grid_cells (NaN, NaN, NaN, NaN)) grid_cells).
    { apply nth_In. apply argmax_of_lt in Hspec.
      rewrite map2_length in Hspec; lia. }
    apply in_grid_cells_on_grid in Hgrid.
    revert Hfeas Hgrid.
    generalize (nth j grid_cells (NaN, NaN, NaN, NaN)). clear.
    intros [[[a b] c] d] [H1 H2] H3. simpl in *. auto.
Qed.

(** The disutility of variant B with the default [epsilon], [nu] and
    [eta], at hours of [0, 24]. *)
Lemma disutility_B_default (par : B.Par) (LM HM LF HF : R) :
  B.epsilon par = Fin 1.0 -> B.nu par = Fin 0.001 -> B.eta par = Fin 0.002 ->
  (0 <= LM <= 24)%R -> (0 <= HM <= 24)%R ->
  (0 <= LF <= 24)%R -> (0 <= HF <= 24)%R ->
  exists d : R,
    B.disutility par (Fin LM) (Fin HM) (Fin LF) (Fin HF) = Ok (Fin d) /\
    (0 <= d <= 10)%R.
Proof.
  intros He Hn Hh HLM HHM HLF HHF. unfold B.disutility.
  rewrite He, Hn, Hh, truediv_Fin by lra. rewrite divide_rnd by lra.
  rewrite (@rnd_range _ (1 / 1.0)%R) by lra. unfold py.bind.
  rewrite !add_rnd.
  rewrite (@rnd_range _ (1 + 1 / 1.0)%R), (@rnd_range _ (LM + HM)%R),
    (@rnd_range _ (LF + HF)%R) by lra.
  rewrite !power_two_small by lra.
  rewrite !divide_rnd by lra.
  rewrite (@rnd_range _ ((LM + HM) * (LM + HM) / (1 + 1 / 1.0))%R)
    by (split; unfold Rdiv; nra).
  rewrite (@rnd_range _ ((LF + HF) * (LF + HF) / (1 + 1 / 1.0))%R)
    by (split; unfold Rdiv; nra).
  rewrite !multiply_rnd.
  rewrite (@rnd_range _ (0.001 * ((LM + HM) * (LM + HM) / (1 + 1 / 1.0)))%R)
    by (split; unfold Rdiv; nra).
  rewrite (@rnd_range _ (0.002 * ((LF + HF) * (LF + HF) / (1 + 1 / 1.0)))%R)
    by (split; unfold Rdiv; nra).
  rewrite add_rnd. rewrite rnd_range by (split; unfold Rdiv; nra).
  eexists. split; [reflexivity|]. split; unfold Rdiv; nra.
Qed.

(** With the default [rho], [epsilon], [nu] and [eta], the utility of
    variant B at a Choice with components in [0, 24] is a real number. *)
Lemma utility_B_default_finite (par : B.Par) (LM HM LF HF : R) :
  B.rho par = Fin 2.0 ->
  B.epsilon par = Fin 1.0 -> B.nu par = Fin 0.001 -> B.eta par = Fin 0.002 ->
  (0 <= LM <= 24)%R -> (0 <= HM <= 24)%R ->
  (0 <= LF <= 24)%R -> (0 <= HF <= 24)%R ->
  exists u : R, B.utility par (Fin LM) (Fin HM) (Fin LF) (Fin HF) = Ok (Fin u).
Proof.
  intros Hrho He Hn Hh HLM HHM HLF HHF. unfold B.utility.
  destruct (home_production_B_total par (Fin HM) (Fin HF)) as [H ->].
  cbn [py.bind]. rewrite !floored_hours_Fin.
  destruct (hours_spec_range (B.sigma par) HHM) as (hm & -> & Hhm).
  destruct (hours_spec_range (B.sigma par) HHF) as (hf & -> & Hhf).
  destruct (@disutility_B_default par LM hm LF hf He Hn Hh) as (d & -> & Hd);
    try lra.
  destruct (@consumption_utility_default _ (forget_eta par)
              (B.wM par * Fin LM + B.wF par * Fin LF) H Hrho)
    as (v & Hv & Hvr).
  cbn [py.bind].
  change (B.consumption_utility par (B.wM par * Fin LM + B.wF par * Fin LF) H)
    with (A.consumption_utility (forget_eta par)
            (B.wM par * Fin LM + B.wF par * Fin LF) H).
  rewrite Hv, subtract_rnd, rnd_range by lra. eauto.
Qed.

Lemma grid_utilities_B_default (par : B.Par) (us : list float) :
  B.rho par = Fin 2.0 ->
  B.epsilon par = Fin 1.0 -> B.nu par = Fin 0.001 -> B.eta par = Fin 0.002 ->
  Forall2 (fun t u => utility_at_B par t = Ok u) grid_cells us ->
  Forall (fun u => exists v : R, u = Fin v) us.
Proof.
  intros Hrho He Hn Hh Hall.
  apply Forall2_Forall_r with (1 := Hall). intros [[[a b] c] d] u Hin Hu.
  apply in_cells in Hin. destruct Hin as (Ha & Hb & Hc & Hd).
  apply in_grid in Ha, Hb, Hc, Hd.
  destruct Ha as (ra & -> & Hra), Hb as (rb & -> & Hrb),
           Hc as (rc & -> & Hrc), Hd as (rd & -> & Hrd).
  unfold utility_at_B in Hu.
  destruct (@utility_B_default_finite par ra rb rc rd Hrho He Hn Hh)
    as [v Hv]; try assumption.
  exists v. congruence.
Qed.

(** The call of variant B on four arrays returns the utilities of their
    entries. *)
Lemma calc_utility_array_B_utilities (par : B.Par)
      (cs : list (float * float * float * float)) (us : list float) :
  Forall2 (fun t u => utility_at_B par t = Ok u) cs us ->
  forall self, B.par self = par ->
    B.calc_utility_array
      (map (fun t => let '(a, b, c, d) := t in a) cs)
      (map (fun t => let '(a, b, c, d) := t in b) cs)
      (map (fun t => let '(a, b, c, d) := t in c) cs)
      (map (fun t => let '(a, b, c, d) := t in d) cs) self
    = (Ok us, self).
Proof.
  intros Hall self Hpar.
  induction Hall as [|[[[a b] c] d] u cs us Hu _ IH]; [reflexivity|].
  simpl. unfold bind at 1. rewrite calc_utility_B_run, Hpar.
  unfold utility_at_B in Hu. rewrite Hu.
  unfold bind at 1. rewrite IH. reflexivity.
Qed.

Lemma solve_discrete_B_utilities (par : B.Par) (us : list float) :
  Forall2 (fun t u => utility_at_B par t = Ok u) grid_cells us ->
  forall self, B.par self = par ->
    let '(LM, HM, LF, HF) := nparray.meshgrid grid grid grid grid in
    B.calc_utility_array (nparray.ravel LM) (nparray.ravel HM)
                         (nparray.ravel LF) (nparray.ravel HF) self
    = (Ok us, self).
Proof.
  intros Hall self Hpar. unfold nparray.meshgrid.
  rewrite !ravel_grid. fold grid_cells.
  revert Hall. generalize grid_cells. intros cs Hall.
  apply calc_utility_array_B_utilities with (par := par); assumption.
Qed.


Lemma argmax_of_unique (u : list float) (i j : nat) :
  argmax_of u i -> argmax_of u j -> i = j.
Proof.
  assert (Hmax : forall a b, first_max u a -> first_max u b -> ~ a < b).
  { intros a b (Ha & Hale & _) (Hb & _ & Hblt) Hab.
    specialize (Hblt a Hab). specialize (Hale b Hb).
    revert Hblt Hale. generalize (nth a u NaN), (nth b u NaN). clear.
    intros x y. float_cases. }
  assert (Hnan : forall a b, first_nan u a -> first_nan u b -> ~ a < b).
  { intros a b (_ & Ha & _) (_ & _ & Hb) Hab. apply (Hb a Hab). exact Ha. }
  intros [[Hi Hmi]|Hni] [[Hj Hmj]|Hnj].
  - specialize (Hmax i j Hmi Hmj) as H1.
    specialize (Hmax j i Hmj Hmi) as H2. lia.
  - exfalso. destruct Hnj as (Hlt & Hj & _).
    rewrite Forall_forall in Hi. apply (Hi (nth j u NaN)); [|exact Hj].
    apply nth_In, Hlt.
  - exfalso. destruct Hni as (Hlt & Hi & _).
    rewrite Forall_forall in Hj. apply (Hj (nth i u NaN)); [|exact Hi].
    apply nth_In, Hlt.
  - specialize (Hnan i j Hni Hnj) as H1.
    specialize (Hnan j i Hnj Hni) as H2. lia.
Qed.

Lemma Forall2_functional {T U} (f : T -> result U) (l : list T)
      (us us' : list U) :
  Forall2 (fun t u => f t = Ok u) l us ->
  Forall2 (fun t u => f t = Ok u) l us' ->
  us = us'.
Proof.
  intros H. revert us'. induction H as [|t u l us Htu _ IH];
    intros us' H'; inversion H' as [|t' u' l' us'' Htu' Hrest]; subst.
  - reflexivity.
  - f_equal; [congruence|apply IH, Hrest].
Qed.

Lemma solve_wF_vec_B_keeps (P : B.Model -> Prop) (discrete : bool) :
  (forall v s, P s -> P (B.set_wF v s)) ->
  (forall v s, P s -> P (B.set_LM_vec v s)) ->
  (forall v s, P s -> P (B.set_HM_vec v s)) ->
  (forall v s, P s -> P (B.set_LF_vec v s)) ->
  (forall v s, P s -> P (B.set_HF_vec v s)) ->
  preserves P (B.solve_wF_vec discrete).
Proof.
  intros HwF HLM HHM HLF HHF.
  unfold B.solve_wF_vec. keep; auto.
  - apply read_only_preserves, solve_discrete_B_read_only.
  - apply read_only_preserves, solve_cont_B_read_only.
Qed.

Lemma run_regression_B_keeps (P : B.Model -> Prop) :
  (forall b0 b1 s, P s -> P (B.set_betas b0 b1 s)) ->
  preserves P B.run_regression.
Proof.
  intros Hb. unfold B.run_regression.
  apply preserves_bind; [apply preserves_gets|]. intros par.
  apply preserves_bind; [apply preserves_gets|]. intros sol.
  destruct (linalg.lstsq _ _) as [|b0 [|b1 [|b2 l]]];
    try apply preserves_raise.
  apply preserves_modify. auto.
Qed.

Lemma est_B_keeps (t : B.Model) (x : list float) :
  preserves (fun s => par_up_to_sigma_wF s t) (B.est x).
Proof.
  unfold B.est.
  apply preserves_bind; [apply preserves_lift|]. intros x0.
  apply preserves_bind;
    [apply preserves_modify; intros s H w g; apply (H w g)|]. intros _.
  apply preserves_bind;
    [apply solve_wF_vec_B_keeps; intros v s H w g; apply (H w g)|].
  intros _.
  apply preserves_bind;
    [apply run_regression_B_keeps; intros b0 b1 s H w g; apply (H w g)|].
  intros _. keep.
Qed.

(** X18.  The calibration of variant B works on [sigma] alone.  [est] reads
    [x[0]] only: on an empty [x] it raises [IndexError] and the object is as
    before; otherwise the later entries play no part and, whether the trial
    returns or raises, [sigma] is [x[0]] afterwards while [alpha], [eta] and
    every other parameter but [wF] are as before.  [estimate], whatever the
    optimizer does and whatever its outcome, changes no parameter but [sigma]
    and [wF]. *)
Theorem X18_calibration_B_changes_sigma_only
        (self : B.Model) (sigma : option float) (do_print : bool) :
  B.est [] self = (Raise IndexError, self) /\
  (forall s rest,
     B.est (s :: rest) self = B.est [s] self /\
     forall w, B.par (B.set_wF w (snd (B.est (s :: rest) self)))
               = B.par (B.set_wF w (B.set_sigma s self))) /\
  par_up_to_sigma_wF (snd (B.estimate sigma do_print self)) self.
Proof.
  split; [reflexivity|]. split.
  - intros s rest. split; [reflexivity|].
    unfold B.est. unfold bind at 1, lift at 1. cbn [py.getitem nth_error].
    unfold bind at 1, modify at 1.
    match goal with
    | |- forall w, B.par (B.set_wF w (snd (?c ?st))) = _ =>
        cut (preserves
               (fun s1 => forall w, B.par (B.set_wF w s1)
                                    = B.par (B.set_wF w (B.set_sigma s self)))
               c);
        [intros Hp; apply (Hp st); intros w; reflexivity|]
    end.
    apply preserves_bind;
      [apply solve_wF_vec_B_keeps; intros v s0 H w; apply (H w)|].
    intros _.
    apply preserves_bind;
      [apply run_regression_B_keeps; intros b0 b1 s0 H w; apply (H w)|].
    intros _. keep.
  - cut (preserves (fun s => par_up_to_sigma_wF s self)
                   (B.estimate sigma do_print)).
    { intros Hp. apply (Hp self). intros w g. reflexivity. }
    unfold B.estimate.
    apply preserves_bind; [|intros res; apply preserves_ret].
    apply preserves_minimize. intros v. apply est_B_keeps.
Qed.

End VariantB.

Section VariantBExact.

#[local] Existing Instance exact_arithmetic.

Local Open Scope float_scope.


End VariantBExact.

Section VariantBExactWitnesses.

#[local] Existing Instance exact_arithmetic.


End VariantBExactWitnesses.

Section VariantBWitnesses.

#[local] Existing Instance binary64_range.


End VariantBWitnesses.
